(** * The WireGuard cookie subsystem of wireguard-freebsd (src/wg_cookie.c)

    A shallow embedding of [wg_cookie.c] and [wg_cookie.h]: the MAC1/MAC2
    computation and validation, the encrypted cookie reply, and the
    per-address-family initiation rate limiter with its token buckets.

    Conventions of the embedding.
    - C integers are [Z] with the wrap-around written out ([wrap_u64],
      [wrap_s64]); byte arrays are [list byte].
    - A struct passed by pointer and mutated becomes a value that is passed in
      and returned.
    - What the kernel provides (the uptime clock, [arc4random_buf], the
      non-sleeping zone allocator) and the rwlock operations live in a small
      state monad [Env] over the record [kernel].
    - BLAKE2s, XChaCha20-Poly1305 and SipHash are not part of the file; they
      are the operations of the class [Primitives]. *)

From Stdlib Require Import ZArith Lia Bool List.
From Stdlib Require Import Strings.Byte.
From stdpp Require Import base decidable option list.

Open Scope Z_scope.

(** ** Machine integers *)

Definition wrap_u64 (x : Z) : Z := x mod 2 ^ 64.

Definition wrap_s64 (x : Z) : Z := (x + 2 ^ 63) mod 2 ^ 64 - 2 ^ 63.

#[global] Instance byte_eq_dec : EqDecision byte := Byte.byte_eq_dec.

Definition zeroes (n : nat) : list byte := replicate n x00.

(** ** Constants *)

(** <sys/errno.h>, <sys/socket.h> and <sys/time.h> of FreeBSD. *)
Definition EINVAL : Z := 22.
Definition EAGAIN : Z := 35.
Definition EAFNOSUPPORT : Z := 47.
Definition ENOBUFS : Z := 55.
Definition ETIMEDOUT : Z := 60.
Definition ECONNREFUSED : Z := 61.

Definition AF_INET : Z := 2.
Definition AF_INET6 : Z := 28.

(** [sbintime_t] is a signed 64-bit fixed-point number, 32.32. *)
Definition SBT_1S : Z := Z.shiftl 1 32.

(** [nstosbt] of <sys/time.h>; the file only ever calls it with 0. *)
Definition nstosbt (ns : Z) : Z :=
  Z.shiftr (wrap_u64 (ns * (Z.shiftl 1 63 / 500000000))) 32.

(** wg_cookie.h *)
Definition COOKIE_MAC_SIZE : nat := 16.
Definition COOKIE_KEY_SIZE : nat := 32.
Definition COOKIE_NONCE_SIZE : nat := 24.
Definition COOKIE_COOKIE_SIZE : nat := 16.
Definition COOKIE_SECRET_SIZE : nat := 32.
Definition COOKIE_INPUT_SIZE : nat := 32.
Definition COOKIE_ENCRYPTED_SIZE : nat := (COOKIE_COOKIE_SIZE + COOKIE_MAC_SIZE)%nat.
Definition SIPHASH_KEY_LENGTH : nat := 16.

(** wg_cookie.c *)
Definition COOKIE_MAC1_KEY_LABEL : list byte :=
  [ "m"; "a"; "c"; "1"; "-"; "-"; "-"; "-" ]%byte.
Definition COOKIE_COOKIE_KEY_LABEL : list byte :=
  [ "c"; "o"; "o"; "k"; "i"; "e"; "-"; "-" ]%byte.
Definition COOKIE_SECRET_MAX_AGE : Z := 120.
Definition COOKIE_SECRET_LATENCY : Z := 5.

Definition RATELIMIT_SIZE : Z := Z.shiftl 1 13.
Definition RATELIMIT_SIZE_MAX : Z := RATELIMIT_SIZE * 8.
Definition INITIATIONS_PER_SECOND : Z := 20.
Definition INITIATIONS_BURSTABLE : Z := 5.
Definition INITIATION_COST : Z := SBT_1S / INITIATIONS_PER_SECOND.
Definition TOKEN_MAX : Z := INITIATION_COST * INITIATIONS_BURSTABLE.
Definition ELEMENT_TIMEOUT : Z := 1.
Definition IPV4_MASK_SIZE : nat := 4.
Definition IPV6_MASK_SIZE : nat := 8.

(** ** Data *)

(** [struct sockaddr], read through [satosin] or [satosin6] according to
    [sa_family]: [sa_addr] is [sin_addr] (4 bytes) or [sin6_addr] (16 bytes),
    [sa_port] is [sin_port] or [sin6_port] (2 bytes, network order). *)
Record sockaddr := {
  sa_family : Z;
  sa_port : list byte;
  sa_addr : list byte
}.

(** [struct ratelimit_entry]. The union [r_in]/[r_in6] is [r_addr]: the bytes
    that [ratelimit_allow] copied in, which are the only ones it reads. *)
Record ratelimit_entry := {
  r_af : Z;
  r_addr : list byte;
  r_last_time : Z;
  r_tokens : Z
}.

(** [struct ratelimit]. [rl_gc] is the callout; the model keeps whether it is
    pending. [rl_table] is the array of list heads made by [hashinit]. *)
Record ratelimit := {
  rl_secret : list byte;
  rl_gc : bool;
  rl_table : list (list ratelimit_entry);
  rl_table_mask : Z;
  rl_table_num : Z
}.

Record cookie_macs := {
  mac1 : list byte;
  mac2 : list byte
}.

Record cookie_maker := {
  cp_mac1_key : list byte;
  cp_cookie_key : list byte;
  cp_cookie : list byte;
  cp_birthdate : Z;
  cp_mac1_valid : bool;
  cp_mac1_last : list byte
}.

Record cookie_checker := {
  cc_mac1_key : list byte;
  cc_cookie_key : list byte;
  cc_secret_birthdate : Z;
  cc_secret : list byte
}.

(** The rwlocks of the file, named after the struct field that holds them. *)
Inductive rwlock := cc_key_lock | cc_secret_lock | cp_lock | rl_lock.

Inductive lock_op :=
| RLock (l : rwlock)
| RUnlock (l : rwlock)
| WLock (l : rwlock)
| WUnlock (l : rwlock).

#[global] Instance rwlock_eq_dec : EqDecision rwlock.
Proof. solve_decision. Defined.

#[global] Instance lock_op_eq_dec : EqDecision lock_op.
Proof. solve_decision. Defined.

(** ** The kernel environment *)

(** [k_uptime n] is what the [n]-th call of [getsbinuptime] returns,
    [k_entropy n] the [n]-th byte [arc4random_buf] hands out, [k_zalloc n]
    whether the [n]-th [M_NOWAIT] allocation finds memory. [k_locks]
    records the rwlock operations performed, oldest first. *)
Record kernel := {
  k_uptime : nat -> Z;
  k_reads : nat;
  k_entropy : nat -> byte;
  k_drawn : nat;
  k_zalloc : nat -> bool;
  k_allocs : nat;
  k_locks : list lock_op
}.

Definition Env (A : Type) : Type := kernel -> A * kernel.

Definition ret {A} (a : A) : Env A := fun k => (a, k).

Definition bind {A B} (m : Env A) (f : A -> Env B) : Env B :=
  fun k => let '(a, k') := m k in f a k'.

Notation "'let*' x := m 'in' f" := (bind m (fun x => f))
  (at level 10, x name, m at level 100, f at level 200, only parsing).
Notation "'let*' ' p := m 'in' f" :=
  (bind m (fun x => match x with p => f end))
  (at level 10, p pattern, m at level 100, f at level 200, only parsing).
Notation "'run' m 'in' f" := (bind m (fun _ => f))
  (at level 10, m at level 100, f at level 200, only parsing).

Definition getsbinuptime : Env Z := fun k =>
  (k_uptime k (k_reads k),
   {| k_uptime := k_uptime k; k_reads := S (k_reads k);
      k_entropy := k_entropy k; k_drawn := k_drawn k;
      k_zalloc := k_zalloc k; k_allocs := k_allocs k;
      k_locks := k_locks k |}).

Definition arc4random_buf (n : nat) : Env (list byte) := fun k =>
  (map (k_entropy k) (seq (k_drawn k) n),
   {| k_uptime := k_uptime k; k_reads := k_reads k;
      k_entropy := k_entropy k; k_drawn := (k_drawn k + n)%nat;
      k_zalloc := k_zalloc k; k_allocs := k_allocs k;
      k_locks := k_locks k |}).

(** A non-sleeping ([M_NOWAIT]) allocation; [false] is a NULL result. *)
Definition alloc_nowait : Env bool := fun k =>
  (k_zalloc k (k_allocs k),
   {| k_uptime := k_uptime k; k_reads := k_reads k;
      k_entropy := k_entropy k; k_drawn := k_drawn k;
      k_zalloc := k_zalloc k; k_allocs := S (k_allocs k);
      k_locks := k_locks k |}).

Definition lock_do (op : lock_op) : Env unit := fun k =>
  (tt,
   {| k_uptime := k_uptime k; k_reads := k_reads k;
      k_entropy := k_entropy k; k_drawn := k_drawn k;
      k_zalloc := k_zalloc k; k_allocs := k_allocs k;
      k_locks := k_locks k ++ [op] |}).

Definition rw_rlock (l : rwlock) : Env unit := lock_do (RLock l).
Definition rw_runlock (l : rwlock) : Env unit := lock_do (RUnlock l).
Definition rw_wlock (l : rwlock) : Env unit := lock_do (WLock l).
Definition rw_wunlock (l : rwlock) : Env unit := lock_do (WUnlock l).

(** [timingsafe_bcmp(a, b, n)]: 0 when the first [n] bytes agree. *)
Definition timingsafe_bcmp (a b : list byte) (n : nat) : Z :=
  if bool_decide (take n a = take n b) then 0 else 1.

Definition bcmp (a b : list byte) (n : nat) : Z :=
  if bool_decide (take n a = take n b) then 0 else 1.

(** ** Cryptographic primitives (crypto.h, crypto/siphash) *)

Class Primitives := {
  (** BLAKE2s of the absorbed bytes: output length, key, data. *)
  blake2s_hash : nat -> list byte -> list byte -> list byte;
  blake2s_hash_length : forall outlen key data,
    length (blake2s_hash outlen key data) = outlen;
  (** plaintext, associated data, nonce, key. *)
  xchacha20poly1305_encrypt :
    list byte -> list byte -> list byte -> list byte -> list byte;
  (** ciphertext, associated data, nonce, key; [None] when the tag is bad. *)
  xchacha20poly1305_decrypt :
    list byte -> list byte -> list byte -> list byte -> option (list byte);
  (** compression rounds, finalisation rounds, key, source bytes. *)
  SipHashX : nat -> nat -> list byte -> list byte -> Z
}.

Record blake2s_state := {
  b_outlen : nat;
  b_key : list byte;
  b_data : list byte
}.

Section Cookie.

Context `{Primitives}.

Definition blake2s_init (outlen : nat) : blake2s_state :=
  {| b_outlen := outlen; b_key := []; b_data := [] |}.

Definition blake2s_init_key (outlen : nat) (key : list byte) (keylen : nat)
  : blake2s_state :=
  {| b_outlen := outlen; b_key := take keylen key; b_data := [] |}.

Definition blake2s_update (st : blake2s_state) (src : list byte) (len : nat)
  : blake2s_state :=
  {| b_outlen := b_outlen st; b_key := b_key st;
     b_data := b_data st ++ take len src |}.

Definition blake2s_final (st : blake2s_state) : list byte :=
  blake2s_hash (b_outlen st) (b_key st) (b_data st).

Definition siphash13 (key : list byte) (src : list byte) (len : nat) : Z :=
  wrap_u64 (SipHashX 1 3 key (take len src)).

(** *** Private functions of the cookie code *)

Definition cookie_precompute_key (input : list byte) (label : list byte)
  : list byte :=
  let blake := blake2s_init COOKIE_KEY_SIZE in
  let blake := blake2s_update blake label (length label) in
  let blake := blake2s_update blake input COOKIE_INPUT_SIZE in
  blake2s_final blake.

Definition cookie_macs_mac1 (cm : cookie_macs) (buf : list byte) (len : nat)
    (key : list byte) : cookie_macs :=
  let state := blake2s_init_key COOKIE_MAC_SIZE key COOKIE_KEY_SIZE in
  let state := blake2s_update state buf len in
  {| mac1 := blake2s_final state; mac2 := mac2 cm |}.

Definition cookie_macs_mac2 (cm : cookie_macs) (buf : list byte) (len : nat)
    (key : list byte) : cookie_macs :=
  let state := blake2s_init_key COOKIE_MAC_SIZE key COOKIE_COOKIE_SIZE in
  let state := blake2s_update state buf len in
  let state := blake2s_update state (mac1 cm) COOKIE_MAC_SIZE in
  {| mac1 := mac1 cm; mac2 := blake2s_final state |}.

(** The sum is computed in [sbintime_t]; one [wrap_s64] around it is the same
    value as wrapping each operation. *)
Definition cookie_timer_expired (timer : Z) (sec nsec : Z) : Env Z :=
  let* now := getsbinuptime in
  ret (if now >? wrap_s64 (timer + sec * SBT_1S + nstosbt nsec)
       then ETIMEDOUT else 0).

Definition cookie_checker_make_cookie (cc : cookie_checker) (sa : sockaddr)
  : Env (list byte * cookie_checker) :=
  run rw_wlock cc_secret_lock in
  let* expired :=
    cookie_timer_expired (cc_secret_birthdate cc) COOKIE_SECRET_MAX_AGE 0 in
  let* cc :=
    if negb (expired =? 0) then
      let* secret := arc4random_buf COOKIE_SECRET_SIZE in
      let* now := getsbinuptime in
      ret {| cc_mac1_key := cc_mac1_key cc; cc_cookie_key := cc_cookie_key cc;
             cc_secret_birthdate := now; cc_secret := secret |}
    else ret cc in
  let state :=
    blake2s_init_key COOKIE_COOKIE_SIZE (cc_secret cc) COOKIE_SECRET_SIZE in
  run rw_wunlock cc_secret_lock in
  if sa_family sa =? AF_INET then
    let state := blake2s_update state (sa_addr sa) 4 in
    let state := blake2s_update state (sa_port sa) 2 in
    ret (blake2s_final state, cc)
  else if sa_family sa =? AF_INET6 then
    let state := blake2s_update state (sa_addr sa) 16 in
    let state := blake2s_update state (sa_port sa) 2 in
    ret (blake2s_final state, cc)
  else
    let* cookie := arc4random_buf COOKIE_COOKIE_SIZE in
    ret (cookie, cc).

(** *** The rate limiter *)

Definition set_rl_gc (rl : ratelimit) (pending : bool) : ratelimit :=
  {| rl_secret := rl_secret rl; rl_gc := pending; rl_table := rl_table rl;
     rl_table_mask := rl_table_mask rl; rl_table_num := rl_table_num rl |}.

Definition set_rl_table (rl : ratelimit) (tbl : list (list ratelimit_entry))
    (num : Z) : ratelimit :=
  {| rl_secret := rl_secret rl; rl_gc := rl_gc rl; rl_table := tbl;
     rl_table_mask := rl_table_mask rl; rl_table_num := num |}.

(** [hashinit_flags(RATELIMIT_SIZE, .., &mask, M_NOWAIT)]: a power-of-two
    array of empty list heads and its mask, or NULL. *)
Definition hashinit_flags (elements : Z)
  : Env (option (list (list ratelimit_entry) * Z)) :=
  let* ok := alloc_nowait in
  ret (if ok
       then Some (replicate (Z.to_nat (2 ^ Z.log2 elements)) [],
                  2 ^ Z.log2 elements - 1)
       else None).

Definition ratelimit_init : Env (Z * ratelimit) :=
  let* secret := arc4random_buf SIPHASH_KEY_LENGTH in
  let* tbl := hashinit_flags RATELIMIT_SIZE in
  match tbl with
  | Some (table, mask) =>
      ret (0, {| rl_secret := secret; rl_gc := false; rl_table := table;
                 rl_table_mask := mask; rl_table_num := 0 |})
  | None =>
      ret (ENOBUFS, {| rl_secret := secret; rl_gc := false; rl_table := [];
                       rl_table_mask := 0; rl_table_num := 0 |})
  end.

Definition ratelimit_gc_schedule (rl : ratelimit) : ratelimit :=
  if (rl_table_num rl >? 0) && negb (rl_gc rl)
  then set_rl_gc rl true
  else rl.

(** One bucket of the sweep: [LIST_FOREACH_SAFE] with [LIST_REMOVE]. *)
Fixpoint ratelimit_gc_bucket (expiry : Z) (force : bool)
    (b : list ratelimit_entry) (num : Z) : list ratelimit_entry * Z :=
  match b with
  | [] => ([], num)
  | r :: tr =>
      if (r_last_time r <? expiry) || force
      then ratelimit_gc_bucket expiry force tr (wrap_u64 (num - 1))
      else let '(b', num') := ratelimit_gc_bucket expiry force tr num in
           (r :: b', num')
  end.

(** The loop [for (i = 0; i < RATELIMIT_SIZE; i++)], [n] buckets to go. *)
Fixpoint ratelimit_gc_table (expiry : Z) (force : bool) (n : nat)
    (tbl : list (list ratelimit_entry)) (num : Z)
  : list (list ratelimit_entry) * Z :=
  match n, tbl with
  | S n', b :: tbl' =>
      let '(b', num) := ratelimit_gc_bucket expiry force b num in
      let '(tbl'', num) := ratelimit_gc_table expiry force n' tbl' num in
      (b' :: tbl'', num)
  | _, _ => (tbl, num)
  end.

Definition ratelimit_gc (rl : ratelimit) (force : bool) : Env ratelimit :=
  if rl_table_num rl =? 0 then ret rl
  else
    let* now := getsbinuptime in
    let expiry := wrap_s64 (now - ELEMENT_TIMEOUT * SBT_1S) in
    let '(tbl, num) :=
      ratelimit_gc_table expiry force (Z.to_nat RATELIMIT_SIZE)
        (rl_table rl) (rl_table_num rl) in
    ret (ratelimit_gc_schedule (set_rl_table rl tbl num)).

(** The callout fires: it is no longer pending, and the callout code takes
    [rl_lock] for writing around the handler. *)
Definition ratelimit_gc_callout (rl : ratelimit) : Env ratelimit :=
  run rw_wlock rl_lock in
  let* rl := ratelimit_gc (set_rl_gc rl false) false in
  run rw_wunlock rl_lock in
  ret rl.

Definition ratelimit_deinit (rl : ratelimit) : Env ratelimit :=
  run rw_wlock rl_lock in
  let rl := set_rl_gc rl false in
  let* rl := ratelimit_gc rl true in
  let rl := {| rl_secret := rl_secret rl; rl_gc := rl_gc rl; rl_table := [];
               rl_table_mask := rl_table_mask rl;
               rl_table_num := rl_table_num rl |} in
  run rw_wunlock rl_lock in
  ret rl.

(** The three [continue] tests of the bucket scan in [ratelimit_allow]. *)
Definition ratelimit_skip (r : ratelimit_entry) (sa : sockaddr) : bool :=
  if negb (r_af r =? sa_family sa) then true
  else if (r_af r =? AF_INET)
          && negb (bcmp (r_addr r) (sa_addr sa) IPV4_MASK_SIZE =? 0) then true
  else if (r_af r =? AF_INET6)
          && negb (bcmp (r_addr r) (sa_addr sa) IPV6_MASK_SIZE =? 0) then true
  else false.

(** [LIST_FOREACH] up to the first entry that is not skipped: the entry and
    its position in the bucket. *)
Fixpoint ratelimit_scan (sa : sockaddr) (b : list ratelimit_entry)
  : option (nat * ratelimit_entry) :=
  match b with
  | [] => None
  | r :: b' =>
      if ratelimit_skip r sa
      then match ratelimit_scan sa b' with
           | Some (j, r') => Some (S j, r')
           | None => None
           end
      else Some (0%nat, r)
  end.

Definition ratelimit_bucket (rl : ratelimit) (key : Z) : nat :=
  Z.to_nat (Z.land key (rl_table_mask rl)).

Definition ratelimit_allow (rl : ratelimit) (sa : sockaddr)
  : Env (Z * ratelimit) :=
  let lookup (key : Z) : Env (Z * ratelimit) :=
    run rw_wlock rl_lock in
    let i := ratelimit_bucket rl key in
    let bucket := default [] (rl_table rl !! i) in
    match ratelimit_scan sa bucket with
    | Some (j, r) =>
        let* now := getsbinuptime in
        let diff := wrap_s64 (now - r_last_time r) in
        let tokens := wrap_u64 (r_tokens r + diff) in
        let tokens := if tokens >? TOKEN_MAX then TOKEN_MAX else tokens in
        let store (t : Z) : ratelimit :=
          set_rl_table rl
            (<[i := <[j := {| r_af := r_af r; r_addr := r_addr r;
                              r_last_time := now; r_tokens := t |}]>
                    bucket]> (rl_table rl))
            (rl_table_num rl) in
        if tokens >=? INITIATION_COST then
          run rw_wunlock rl_lock in
          ret (0, store (tokens - INITIATION_COST))
        else
          run rw_wunlock rl_lock in
          ret (ECONNREFUSED, store tokens)
    | None =>
        if rl_table_num rl >=? RATELIMIT_SIZE_MAX then
          run rw_wunlock rl_lock in
          ret (ECONNREFUSED, rl)
        else
          let* r := alloc_nowait in
          if negb r then
            run rw_wunlock rl_lock in
            ret (ECONNREFUSED, rl)
          else
            let num := wrap_u64 (rl_table_num rl + 1) in
            let af := sa_family sa in
            let addr :=
              if af =? AF_INET then take IPV4_MASK_SIZE (sa_addr sa)
              else if af =? AF_INET6 then take IPV6_MASK_SIZE (sa_addr sa)
              else [] in
            let* now := getsbinuptime in
            let r := {| r_af := af; r_addr := addr; r_last_time := now;
                        r_tokens := TOKEN_MAX - INITIATION_COST |} in
            let rl := set_rl_table rl (<[i := r :: bucket]> (rl_table rl)) num in
            let rl := ratelimit_gc_schedule rl in
            run rw_wunlock rl_lock in
            ret (0, rl)
    end in
  if sa_family sa =? AF_INET then
    lookup (siphash13 (rl_secret rl) (sa_addr sa) IPV4_MASK_SIZE)
  else if sa_family sa =? AF_INET6 then
    lookup (siphash13 (rl_secret rl) (sa_addr sa) IPV6_MASK_SIZE)
  else
    ret (ECONNREFUSED, rl).

(** *** Public functions *)

(** The two file-scope rate limiters. *)
Record globals := {
  ratelimit_v4 : ratelimit;
  ratelimit_v6 : ratelimit
}.

Definition cookie_init : Env (Z * option globals) :=
  let* '(res, v4) := ratelimit_init in
  if negb (res =? 0) then ret (res, None)
  else
    let* '(res, v6) := ratelimit_init in
    if negb (res =? 0) then
      let* _ := ratelimit_deinit v4 in
      ret (res, None)
    else ret (0, Some {| ratelimit_v4 := v4; ratelimit_v6 := v6 |}).

Definition cookie_deinit (g : globals) : Env globals :=
  let* v4 := ratelimit_deinit (ratelimit_v4 g) in
  let* v6 := ratelimit_deinit (ratelimit_v6 g) in
  ret {| ratelimit_v4 := v4; ratelimit_v6 := v6 |}.

Definition cookie_checker_init : cookie_checker :=
  {| cc_mac1_key := zeroes COOKIE_KEY_SIZE;
     cc_cookie_key := zeroes COOKIE_KEY_SIZE;
     cc_secret_birthdate := 0;
     cc_secret := zeroes COOKIE_SECRET_SIZE |}.

Definition cookie_checker_update (cc : cookie_checker)
    (key : option (list byte)) : Env cookie_checker :=
  run rw_wlock cc_key_lock in
  let cc :=
    match key with
    | Some key =>
        {| cc_mac1_key := cookie_precompute_key key COOKIE_MAC1_KEY_LABEL;
           cc_cookie_key := cookie_precompute_key key COOKIE_COOKIE_KEY_LABEL;
           cc_secret_birthdate := cc_secret_birthdate cc;
           cc_secret := cc_secret cc |}
    | None =>
        {| cc_mac1_key := zeroes COOKIE_KEY_SIZE;
           cc_cookie_key := zeroes COOKIE_KEY_SIZE;
           cc_secret_birthdate := cc_secret_birthdate cc;
           cc_secret := cc_secret cc |}
    end in
  run rw_wunlock cc_key_lock in
  ret cc.

(** Returns the nonce, the encrypted cookie and the checker. *)
Definition cookie_checker_create_payload (cc : cookie_checker)
    (cm : cookie_macs) (sa : sockaddr)
  : Env (list byte * list byte * cookie_checker) :=
  let* '(cookie, cc) := cookie_checker_make_cookie cc sa in
  let* nonce := arc4random_buf COOKIE_NONCE_SIZE in
  run rw_rlock cc_key_lock in
  let ecookie :=
    xchacha20poly1305_encrypt (take COOKIE_COOKIE_SIZE cookie)
      (take COOKIE_MAC_SIZE (mac1 cm)) nonce (cc_cookie_key cc) in
  run rw_runlock cc_key_lock in
  ret (nonce, ecookie, cc).

Definition cookie_maker_init (key : list byte) : cookie_maker :=
  {| cp_mac1_key := cookie_precompute_key key COOKIE_MAC1_KEY_LABEL;
     cp_cookie_key := cookie_precompute_key key COOKIE_COOKIE_KEY_LABEL;
     cp_cookie := zeroes COOKIE_COOKIE_SIZE;
     cp_birthdate := 0;
     cp_mac1_valid := false;
     cp_mac1_last := zeroes COOKIE_MAC_SIZE |}.

Definition cookie_maker_consume_payload (cp : cookie_maker)
    (nonce ecookie : list byte) : Env (Z * cookie_maker) :=
  run rw_wlock cp_lock in
  if negb (cp_mac1_valid cp) then
    run rw_wunlock cp_lock in
    ret (ETIMEDOUT, cp)
  else
    match xchacha20poly1305_decrypt (take COOKIE_ENCRYPTED_SIZE ecookie)
            (take COOKIE_MAC_SIZE (cp_mac1_last cp)) nonce (cp_cookie_key cp)
    with
    | None =>
        run rw_wunlock cp_lock in
        ret (EINVAL, cp)
    | Some cookie =>
        let* now := getsbinuptime in
        let cp :=
          {| cp_mac1_key := cp_mac1_key cp; cp_cookie_key := cp_cookie_key cp;
             cp_cookie := take COOKIE_COOKIE_SIZE cookie;
             cp_birthdate := now;
             cp_mac1_valid := false;
             cp_mac1_last := cp_mac1_last cp |} in
        run rw_wunlock cp_lock in
        ret (0, cp)
    end.

Definition cookie_maker_mac (cp : cookie_maker) (cm : cookie_macs)
    (buf : list byte) (len : nat) : Env (cookie_maker * cookie_macs) :=
  run rw_rlock cp_lock in
  let cm := cookie_macs_mac1 cm buf len (cp_mac1_key cp) in
  let cp :=
    {| cp_mac1_key := cp_mac1_key cp; cp_cookie_key := cp_cookie_key cp;
       cp_cookie := cp_cookie cp; cp_birthdate := cp_birthdate cp;
       cp_mac1_valid := true;
       cp_mac1_last := take COOKIE_MAC_SIZE (mac1 cm) |} in
  let* expired :=
    cookie_timer_expired (cp_birthdate cp)
      (COOKIE_SECRET_MAX_AGE - COOKIE_SECRET_LATENCY) 0 in
  let cm :=
    if expired =? 0
    then cookie_macs_mac2 cm buf len (cp_cookie cp)
    else {| mac1 := mac1 cm; mac2 := zeroes COOKIE_MAC_SIZE |} in
  run rw_runlock cp_lock in
  ret (cp, cm).

Definition cookie_checker_validate_macs (cc : cookie_checker)
    (cm : cookie_macs) (buf : list byte) (len : nat) (busy : Z)
    (sa : sockaddr) (g : globals) : Env (Z * cookie_checker * globals) :=
  let our_cm := {| mac1 := []; mac2 := [] |} in
  run rw_rlock cc_key_lock in
  let our_cm := cookie_macs_mac1 our_cm buf len (cc_mac1_key cc) in
  run rw_runlock cc_key_lock in
  if negb (timingsafe_bcmp (mac1 our_cm) (mac1 cm) COOKIE_MAC_SIZE =? 0) then
    ret (EINVAL, cc, g)
  else if negb (busy =? 0) then
    let* '(cookie, cc) := cookie_checker_make_cookie cc sa in
    let our_cm := cookie_macs_mac2 our_cm buf len cookie in
    if negb (timingsafe_bcmp (mac2 our_cm) (mac2 cm) COOKIE_MAC_SIZE =? 0) then
      ret (EAGAIN, cc, g)
    else if sa_family sa =? AF_INET then
      let* '(res, v4) := ratelimit_allow (ratelimit_v4 g) sa in
      ret (res, cc, {| ratelimit_v4 := v4; ratelimit_v6 := ratelimit_v6 g |})
    else if sa_family sa =? AF_INET6 then
      let* '(res, v6) := ratelimit_allow (ratelimit_v6 g) sa in
      ret (res, cc, {| ratelimit_v4 := ratelimit_v4 g; ratelimit_v6 := v6 |})
    else
      ret (EAFNOSUPPORT, cc, g)
  else
    ret (0, cc, g).

(** *** Reading the state

    Names for what the statements below talk about; each is put together
    from the pieces of the functions above. *)

(** The value the next [getsbinuptime] returns. *)
Definition uptime (k : kernel) : Z := k_uptime k (k_reads k).

(** The kernel a computation leaves behind. *)
Definition after {A} (m : Env A) (k : kernel) : kernel := snd (m k).

(** How many address bytes [ratelimit_allow] hashes and compares. *)
Definition ratelimit_prefix (sa : sockaddr) : option nat :=
  if sa_family sa =? AF_INET then Some IPV4_MASK_SIZE
  else if sa_family sa =? AF_INET6 then Some IPV6_MASK_SIZE
  else None.

(** The bucket [key & rl->rl_table_mask] of an address. *)
Definition ratelimit_slot (rl : ratelimit) (sa : sockaddr) : option nat :=
  match ratelimit_prefix sa with
  | Some n =>
      Some (ratelimit_bucket rl (siphash13 (rl_secret rl) (sa_addr sa) n))
  | None => None
  end.

(** The entry the bucket scan of [ratelimit_allow] stops at, if any. *)
Definition ratelimit_find (rl : ratelimit) (sa : sockaddr)
  : option ratelimit_entry :=
  match ratelimit_slot rl sa with
  | Some i => snd <$> ratelimit_scan sa (default [] (rl_table rl !! i))
  | None => None
  end.

(** The token count after the refill and the cap, before the charge. *)
Definition replenish (r : ratelimit_entry) (now : Z) : Z :=
  let tokens := wrap_u64 (r_tokens r + wrap_s64 (now - r_last_time r)) in
  if tokens >? TOKEN_MAX then TOKEN_MAX else tokens.

(** The entry as [ratelimit_allow] leaves it when it is found at [now]. *)
Definition charge (r : ratelimit_entry) (now : Z) : ratelimit_entry :=
  {| r_af := r_af r; r_addr := r_addr r; r_last_time := now;
     r_tokens := if replenish r now >=? INITIATION_COST
                 then replenish r now - INITIATION_COST
                 else replenish r now |}.

(** The entry [ratelimit_allow] inserts for an unseen address. *)
Definition ratelimit_new (sa : sockaddr) (now : Z) : ratelimit_entry :=
  {| r_af := sa_family sa;
     r_addr := if sa_family sa =? AF_INET then take IPV4_MASK_SIZE (sa_addr sa)
               else if sa_family sa =? AF_INET6
                    then take IPV6_MASK_SIZE (sa_addr sa) else [];
     r_last_time := now;
     r_tokens := TOKEN_MAX - INITIATION_COST |}.

(** [n] calls of [ratelimit_allow] for one address in a row: the verdicts. *)
Fixpoint ratelimit_burst (n : nat) (rl : ratelimit) (sa : sockaddr)
  : Env (list Z * ratelimit) :=
  match n with
  | O => ret ([], rl)
  | S n' =>
      let* '(res, rl) := ratelimit_allow rl sa in
      let* '(rest, rl) := ratelimit_burst n' rl sa in
      ret (res :: rest, rl)
  end.

(** What happens to one rate limiter between [ratelimit_init] and
    [ratelimit_deinit]: packets are checked and the GC callout fires. *)
Inductive ratelimit_event :=
| Allow (sa : sockaddr)
| GcCallout.

Fixpoint ratelimit_run (evs : list ratelimit_event) (rl : ratelimit)
  : Env ratelimit :=
  match evs with
  | [] => ret rl
  | Allow sa :: evs' =>
      let* '(_, rl) := ratelimit_allow rl sa in
      ratelimit_run evs' rl
  | GcCallout :: evs' =>
      let* rl := ratelimit_gc_callout rl in
      ratelimit_run evs' rl
  end.

(** The number of entries linked into the table. *)
Definition ratelimit_entries (rl : ratelimit) : Z :=
  Z.of_nat (length (concat (rl_table rl))).

Definition entry_ok (r : ratelimit_entry) : Prop :=
  0 <= r_tokens r <= TOKEN_MAX.

(** What [ratelimit_init] establishes and every operation keeps. *)
Definition ratelimit_inv (rl : ratelimit) : Prop :=
  rl_table_mask rl = RATELIMIT_SIZE - 1 /\
  length (rl_table rl) = Z.to_nat RATELIMIT_SIZE /\
  rl_table_num rl = ratelimit_entries rl /\
  rl_table_num rl <= RATELIMIT_SIZE_MAX /\
  Forall (Forall entry_ok) (rl_table rl).

(** The MACs as the protocol defines them, for the statements about
    [cookie_checker_validate_macs] and [cookie_maker_mac]. *)
Definition expected_mac1 (key buf : list byte) : list byte :=
  blake2s_hash COOKIE_MAC_SIZE (take COOKIE_KEY_SIZE key) buf.

Definition expected_mac2 (cookie buf m1 : list byte) : list byte :=
  blake2s_hash COOKIE_MAC_SIZE (take COOKIE_COOKIE_SIZE cookie) (buf ++ m1).

End Cookie.

(** ** The rwlock discipline

    What [rw_rlock], [rw_wlock] and their unlocks do to one lock: any number
    of shared holders, or one exclusive holder. [None] is an operation that
    cannot proceed in that state. *)
Inductive rw_state :=
| rw_free
| rw_shared (readers : nat)
| rw_excl.

Definition rw_step (st : rw_state) (op : lock_op) : option rw_state :=
  match op, st with
  | RLock _, rw_free => Some (rw_shared 1)
  | RLock _, rw_shared n => Some (rw_shared (S n))
  | RUnlock _, rw_shared (S O) => Some rw_free
  | RUnlock _, rw_shared (S (S n)) => Some (rw_shared (S n))
  | WLock _, rw_free => Some rw_excl
  | WUnlock _, rw_excl => Some rw_free
  | _, _ => None
  end.

Fixpoint rw_steps (st : rw_state) (ops : list lock_op) : option rw_state :=
  match ops with
  | [] => Some st
  | op :: ops' =>
      match rw_step st op with
      | Some st' => rw_steps st' ops'
      | None => None
      end
  end.


(** ** An executable instance of the primitives

    Checksums with the interface of the primitives and none of their
    strength; they serve to run the embedding on concrete packets. *)

Definition byte_sum (l : list byte) : N :=
  fold_right (fun b acc => (Byte.to_N b + acc)%N) 0%N l.

Definition model_byte (n : N) : byte :=
  default x00 (Byte.of_N (n mod 256)%N).

Definition model_digest (outlen : nat) (key data : list byte) : list byte :=
  replicate outlen
    (model_byte (1 + 3 * byte_sum key + byte_sum data + N.of_nat (length data))).

Definition model_encrypt (pt ad nonce key : list byte) : list byte :=
  pt ++ model_digest 16 key (ad ++ nonce ++ pt).

Definition model_decrypt (ct ad nonce key : list byte) : option (list byte) :=
  let n := (length ct - 16)%nat in
  if bool_decide (drop n ct = model_digest 16 key (ad ++ nonce ++ take n ct))
  then Some (take n ct) else None.

Definition model_primitives : Primitives :=
  {| blake2s_hash := model_digest;
     blake2s_hash_length := fun outlen key data => length_replicate outlen _;
     xchacha20poly1305_encrypt := model_encrypt;
     xchacha20poly1305_decrypt := model_decrypt;
     SipHashX := fun _ _ key src => Z.of_N (byte_sum key + 7 * byte_sum src) |}.

(** A kernel whose clock reads [t n] at the [n]-th call, whose entropy is the
    byte counter, and whose allocator follows [mem]. *)
Definition model_kernel (t : nat -> Z) (mem : nat -> bool) : kernel :=
  {| k_uptime := t; k_reads := 0;
     k_entropy := fun n => model_byte (N.of_nat n); k_drawn := 0;
     k_zalloc := mem; k_allocs := 0;
     k_locks := [] |}.

(** ** Concrete inputs *)

(** 127.0.0.1, port 1. *)
Definition localhost : sockaddr :=
  {| sa_family := AF_INET; sa_port := [x00; x01];
     sa_addr := [x7f; x00; x00; x01] |}.

(** A clock that advances one second per reading, from 1000 s of uptime. *)
Definition ticking_kernel : kernel :=
  model_kernel (fun n => (1000 + Z.of_nat n) * SBT_1S) (fun _ => true).

(** A clock that stands at 1000 s of uptime. *)
Definition frozen_kernel : kernel :=
  model_kernel (fun _ => 1000 * SBT_1S) (fun _ => true).

(** [ratelimit_init], then one packet from [localhost]. *)
Definition seen_once (k : kernel) : Z * ratelimit * kernel :=
  let '(_, rl, k) := ratelimit_init k in
  ratelimit_allow (H := model_primitives) rl localhost k.

(** 127.0.0.2, port 1. *)
Definition localhost2 : sockaddr :=
  {| sa_family := AF_INET; sa_port := [x00; x01];
     sa_addr := [x7f; x00; x00; x02] |}.

(** 2001:db8::1 and 2001:db8::ffff, ports 1 and 2. *)
Definition doc_v6_1 : sockaddr :=
  {| sa_family := AF_INET6; sa_port := [x00; x01];
     sa_addr := [x20; x01; x0d; xb8; x00; x00; x00; x00;
                 x00; x00; x00; x00; x00; x00; x00; x01] |}.

Definition doc_v6_ffff : sockaddr :=
  {| sa_family := AF_INET6; sa_port := [x00; x02];
     sa_addr := [x20; x01; x0d; xb8; x00; x00; x00; x00;
                 x00; x00; x00; x00; x00; x00; xff; xff] |}.

(** [ratelimit_init], then five packets from [localhost] in one instant:
    the bucket of [localhost] is empty. *)
Definition drained : list Z * ratelimit * kernel :=
  let '(_, rl, k) := ratelimit_init frozen_kernel in
  ratelimit_burst (H := model_primitives) 5 rl localhost k.

(** The kernel [k] with its clock reading [t] from now on. *)
Definition clock_at (t : Z) (k : kernel) : kernel :=
  {| k_uptime := fun _ => t; k_reads := k_reads k;
     k_entropy := k_entropy k; k_drawn := k_drawn k;
     k_zalloc := k_zalloc k; k_allocs := k_allocs k;
     k_locks := k_locks k |}.

(** The kernel [k] out of memory. *)
Definition no_memory (k : kernel) : kernel :=
  {| k_uptime := k_uptime k; k_reads := k_reads k;
     k_entropy := k_entropy k; k_drawn := k_drawn k;
     k_zalloc := fun _ => false; k_allocs := k_allocs k;
     k_locks := k_locks k |}.

(** The packet "hello", the all-zero static key, and an empty MAC pair. *)
Definition hello : list byte := [ "h"; "e"; "l"; "l"; "o" ]%byte.

Definition zero_input : list byte := zeroes COOKIE_INPUT_SIZE.

Definition no_macs : cookie_macs :=
  {| mac1 := zeroes COOKIE_MAC_SIZE; mac2 := zeroes COOKIE_MAC_SIZE |}.

(** An initiator that has sent "hello" to the responder of [zero_input]. *)
Definition emitted : cookie_maker * cookie_macs * kernel :=
  cookie_maker_mac (H := model_primitives)
    (cookie_maker_init (H := model_primitives) zero_input)
    no_macs hello 5 frozen_kernel.

(** The responder of [zero_input]. *)
Definition responder : cookie_checker :=
  fst (cookie_checker_update (H := model_primitives) cookie_checker_init
         (Some zero_input) frozen_kernel).

(** Its cookie reply to that packet, coming from [localhost]:
    nonce, encrypted cookie, checker. *)
Definition reply : list byte * list byte * cookie_checker * kernel :=
  cookie_checker_create_payload (H := model_primitives) responder
    (snd (fst emitted)) localhost (snd emitted).

(** The initiator consumes the reply at 885 s of uptime. *)
Definition consumed : Z * cookie_maker * kernel :=
  cookie_maker_consume_payload (H := model_primitives) (fst (fst emitted))
    (fst (fst (fst reply))) (snd (fst (fst reply)))
    (clock_at (885 * SBT_1S) (snd reply)).

(** The rate limiters after [cookie_init]. *)
Definition limiters : globals :=
  match cookie_init frozen_kernel with
  | (_, Some g, _) => g
  | (_, None, _) =>
      {| ratelimit_v4 := snd (fst (ratelimit_init frozen_kernel));
         ratelimit_v6 := snd (fst (ratelimit_init frozen_kernel)) |}
  end.

(** The initiator's next packet, sent at 900 s with the cookie it holds. *)
Definition cookied_packet : cookie_maker * cookie_macs * kernel :=
  cookie_maker_mac (H := model_primitives) (snd (fst consumed)) no_macs hello 5
    (clock_at (900 * SBT_1S) (snd consumed)).

(** [n] validations of one packet in a row under load: the results. *)
Fixpoint validate_burst (n : nat) (cc : cookie_checker) (cm : cookie_macs)
    (sa : sockaddr) (g : globals) (k : kernel) : list Z :=
  match n with
  | O => []
  | S n' =>
      let '(res, cc, g, k) :=
        cookie_checker_validate_macs (H := model_primitives) cc cm hello 5 1
          sa g k in
      res :: validate_burst n' cc cm sa g k
  end.

(** ** Further names for the statements *)

Section Reading.

Context `{Primitives}.

(** The cookie of an address under a secret, as the protocol defines it:
    BLAKE2s keyed with the secret over the address bytes and the port. *)
Definition cookie_for (secret : list byte) (sa : sockaddr) : list byte :=
  blake2s_hash COOKIE_COOKIE_SIZE (take COOKIE_SECRET_SIZE secret)
    (take (if sa_family sa =? AF_INET then 4%nat else 16%nat) (sa_addr sa)
     ++ take 2 (sa_port sa)).

(** The rate limiter [cookie_checker_validate_macs] consults for a family. *)
Definition limiter_of (g : globals) (sa : sockaddr) : ratelimit :=
  if sa_family sa =? AF_INET then ratelimit_v4 g else ratelimit_v6 g.

(** The address an entry stands for, as a socket address. *)
Definition entry_sockaddr (r : ratelimit_entry) : sockaddr :=
  {| sa_family := r_af r; sa_port := []; sa_addr := r_addr r |}.

(** A bucket of the table at index [i]: its entries are for pairwise
    different prefixes, each hashes to [i], and each stores exactly the
    prefix bytes of its family. *)
Definition bucket_placed (rl : ratelimit) (i : nat)
    (b : list ratelimit_entry) : Prop :=
  NoDup (map (fun r => (r_af r, r_addr r)) b) /\
  forall r, In r b ->
    ratelimit_slot rl (entry_sockaddr r) = Some i /\
    match ratelimit_prefix (entry_sockaddr r) with
    | Some n => take n (r_addr r) = r_addr r
    | None => False
    end.

Definition ratelimit_placed (rl : ratelimit) : Prop :=
  forall i b, rl_table rl !! i = Some b -> bucket_placed rl i b.

End Reading.

(** One lock at a time: [held] is the operation that took the lock now held.
    An unlock must match it, and no lock is taken while one is held. *)
Definition lock_next (held : option lock_op) (op : lock_op)
  : option (option lock_op) :=
  match held, op with
  | None, RLock _ => Some (Some op)
  | None, WLock _ => Some (Some op)
  | Some (RLock l), RUnlock l' =>
      if bool_decide (l = l') then Some None else None
  | Some (WLock l), WUnlock l' =>
      if bool_decide (l = l') then Some None else None
  | _, _ => None
  end.

Fixpoint lock_run (held : option lock_op) (ops : list lock_op)
  : option (option lock_op) :=
  match ops with
  | [] => Some held
  | op :: ops' =>
      match lock_next held op with
      | Some held' => lock_run held' ops'
      | None => None
      end
  end.

(** A computation whose lock operations, whatever the kernel it starts
    from, are matched pairs one after the other: nothing is held at the end
    and never two locks at once. *)
Definition lock_paired {A} (m : Env A) : Prop :=
  forall k, exists ops,
    k_locks (snd (m k)) = k_locks k ++ ops /\ lock_run None ops = Some None.

(** How many of the verdicts are 0. *)
Fixpoint allowed (verdicts : list Z) : Z :=
  match verdicts with
  | [] => 0
  | v :: rest => (if v =? 0 then 1 else 0) + allowed rest
  end.

(** The sweep of [ratelimit_gc] as a filter: the entries it keeps. *)
Definition gc_keeps (expiry : Z) (force : bool) (r : ratelimit_entry) : bool :=
  negb ((r_last_time r <? expiry) || force).

(** A GC is pending whenever the counter says there are entries. *)
Definition gc_armed (rl : ratelimit) : Prop :=
  0 < rl_table_num rl -> rl_gc rl = true.

(** ** More concrete inputs *)

(** 127.0.0.1 again, from port 2. *)
Definition localhost_port2 : sockaddr :=
  {| sa_family := AF_INET; sa_port := [x00; x02];
     sa_addr := [x7f; x00; x00; x01] |}.

(** A rate limiter that has seen one packet from [localhost] at 1000 s, and
    the kernel after that. *)
Definition seen : ratelimit := snd (fst (seen_once frozen_kernel)).

Definition seen_kernel : kernel := snd (seen_once frozen_kernel).

(** The entry of [localhost] in [seen]. *)
Definition seen_entry : ratelimit_entry :=
  {| r_af := AF_INET; r_addr := [x7f; x00; x00; x01];
     r_last_time := 1000 * SBT_1S;
     r_tokens := TOKEN_MAX - INITIATION_COST |}.

(** Whether every entry of a table was last used before [t]. *)
Definition all_older (t : Z) (tbl : list (list ratelimit_entry)) : bool :=
  forallb (forallb (fun r => r_last_time r <? t)) tbl.

(** * Properties *)

Section RatelimitFacts.

Context `{Primitives}.

(** ** [ratelimit_allow], path by path *)

(** The two supported families, once the address is known to have a bucket;
    the call is then unfolded up to the lookup in the table. *)
Ltac family_cases sa Hslot :=
  destruct (sa_family sa =? AF_INET) eqn:E4;
    [| destruct (sa_family sa =? AF_INET6) eqn:E6; [| discriminate]];
    injection Hslot as <-;
    unfold bind, after; cbn.

Lemma ratelimit_allow_hit rl sa k i b j r :
  ratelimit_slot rl sa = Some i ->
  rl_table rl !! i = Some b ->
  ratelimit_scan sa b = Some (j, r) ->
  ratelimit_allow rl sa k =
    (if replenish r (uptime k) >=? INITIATION_COST then 0 else ECONNREFUSED,
     set_rl_table rl (<[i := <[j := charge r (uptime k)]> b]> (rl_table rl))
       (rl_table_num rl),
     after (run rw_wlock rl_lock in let* _ := getsbinuptime in
            rw_wunlock rl_lock) k).
Proof.
  unfold ratelimit_slot, ratelimit_prefix, ratelimit_allow.
  intros Hslot Hb Hscan.
  family_cases sa Hslot; rewrite Hb; cbn; rewrite Hscan; cbn;
    unfold charge, replenish, uptime; cbn;
    destruct (_ >=? INITIATION_COST); reflexivity.
Qed.

Lemma ratelimit_scan_nil_default sa (tbl : list (list ratelimit_entry)) i p :
  ratelimit_scan sa (default [] (tbl !! i)) = Some p ->
  tbl !! i = Some (default [] (tbl !! i)).
Proof. destruct (tbl !! i); [reflexivity | discriminate]. Qed.

Lemma ratelimit_allow_full rl sa k i :
  ratelimit_slot rl sa = Some i ->
  ratelimit_scan sa (default [] (rl_table rl !! i)) = None ->
  RATELIMIT_SIZE_MAX <= rl_table_num rl ->
  ratelimit_allow rl sa k =
    (ECONNREFUSED, rl, after (run rw_wlock rl_lock in rw_wunlock rl_lock) k).
Proof.
  unfold ratelimit_slot, ratelimit_prefix, ratelimit_allow.
  intros Hslot Hscan Hfull.
  assert ((rl_table_num rl >=? RATELIMIT_SIZE_MAX) = true) as Hge
    by (apply Z.geb_le; lia).
  family_cases sa Hslot; rewrite Hscan, Hge; reflexivity.
Qed.

Lemma ratelimit_allow_nomem rl sa k i :
  ratelimit_slot rl sa = Some i ->
  ratelimit_scan sa (default [] (rl_table rl !! i)) = None ->
  rl_table_num rl < RATELIMIT_SIZE_MAX ->
  k_zalloc k (k_allocs k) = false ->
  ratelimit_allow rl sa k =
    (ECONNREFUSED, rl,
     after (run rw_wlock rl_lock in let* _ := alloc_nowait in
            rw_wunlock rl_lock) k).
Proof.
  unfold ratelimit_slot, ratelimit_prefix, ratelimit_allow.
  intros Hslot Hscan Hroom Hmem.
  assert ((rl_table_num rl >=? RATELIMIT_SIZE_MAX) = false) as Hge
    by (rewrite Z.geb_leb; apply Z.leb_gt; lia).
  family_cases sa Hslot; rewrite Hscan, Hge; cbn; rewrite Hmem;
    reflexivity.
Qed.

Lemma ratelimit_allow_insert rl sa k i :
  ratelimit_slot rl sa = Some i ->
  ratelimit_scan sa (default [] (rl_table rl !! i)) = None ->
  rl_table_num rl < RATELIMIT_SIZE_MAX ->
  k_zalloc k (k_allocs k) = true ->
  ratelimit_allow rl sa k =
    (0,
     ratelimit_gc_schedule
       (set_rl_table rl
          (<[i := ratelimit_new sa (uptime k) :: default [] (rl_table rl !! i)]>
             (rl_table rl))
          (wrap_u64 (rl_table_num rl + 1))),
     after (run rw_wlock rl_lock in let* _ := alloc_nowait in
            let* _ := getsbinuptime in rw_wunlock rl_lock) k).
Proof.
  unfold ratelimit_slot, ratelimit_prefix, ratelimit_allow.
  intros Hslot Hscan Hroom Hmem.
  assert ((rl_table_num rl >=? RATELIMIT_SIZE_MAX) = false) as Hge
    by (rewrite Z.geb_leb; apply Z.leb_gt; lia).
  family_cases sa Hslot; rewrite Hscan, Hge; cbn; rewrite Hmem; cbn;
    unfold ratelimit_new, uptime; rewrite E4, ?E6; reflexivity.
Qed.

Lemma ratelimit_allow_unsupported rl sa k :
  ratelimit_slot rl sa = None ->
  ratelimit_allow rl sa k = (ECONNREFUSED, rl, k).
Proof.
  unfold ratelimit_slot, ratelimit_prefix, ratelimit_allow.
  destruct (sa_family sa =? AF_INET); [discriminate |].
  destruct (sa_family sa =? AF_INET6); [discriminate | reflexivity].
Qed.

(** Facts about the bucket scan. *)

Lemma ratelimit_scan_Some sa b j r :
  ratelimit_scan sa b = Some (j, r) ->
  b !! j = Some r /\ ratelimit_skip r sa = false.
Proof.
  revert j. induction b as [| r0 b IH]; intros j; cbn; [discriminate |].
  destruct (ratelimit_skip r0 sa) eqn:E.
  - destruct (ratelimit_scan sa b) as [[j' r'] |]; [| discriminate].
    intros [= <- <-]. apply (IH j' eq_refl).
  - intros [= <- <-]. auto.
Qed.

Lemma ratelimit_scan_update sa b j r r' :
  ratelimit_scan sa b = Some (j, r) ->
  ratelimit_skip r' sa = false ->
  ratelimit_scan sa (<[j := r']> b) = Some (j, r').
Proof.
  revert j. induction b as [| r0 b IH]; intros j; cbn; [discriminate |].
  destruct (ratelimit_skip r0 sa) eqn:E.
  - destruct (ratelimit_scan sa b) as [[j' r''] |] eqn:Es; [| discriminate].
    intros [= <- <-] Hr'. simpl. rewrite E, (IH j' eq_refl Hr'). reflexivity.
  - intros [= <- <-] Hr'. simpl. rewrite Hr'. reflexivity.
Qed.


Lemma ratelimit_skip_charge r now sa :
  ratelimit_skip (charge r now) sa = ratelimit_skip r sa.
Proof. reflexivity. Qed.

(** ** The entry an address maps to *)

Lemma ratelimit_find_Some rl sa r :
  ratelimit_find rl sa = Some r ->
  exists i b j,
    ratelimit_slot rl sa = Some i /\ rl_table rl !! i = Some b /\
    ratelimit_scan sa b = Some (j, r).
Proof.
  unfold ratelimit_find. destruct (ratelimit_slot rl sa) as [i |]; [| discriminate].
  destruct (ratelimit_scan sa (default [] (rl_table rl !! i))) as [[j r'] |] eqn:Es;
    [| discriminate].
  intros [= <-]. exists i, (default [] (rl_table rl !! i)), j.
  split; [reflexivity |]. split; [| exact Es].
  eapply ratelimit_scan_nil_default, Es.
Qed.

Lemma ratelimit_find_None rl sa i :
  ratelimit_slot rl sa = Some i ->
  ratelimit_find rl sa = None ->
  ratelimit_scan sa (default [] (rl_table rl !! i)) = None.
Proof.
  unfold ratelimit_find. intros ->.
  destruct (ratelimit_scan _ _); [discriminate | reflexivity].
Qed.

Lemma ratelimit_find_update rl sa i b j r r' num :
  ratelimit_slot rl sa = Some i ->
  rl_table rl !! i = Some b ->
  ratelimit_scan sa b = Some (j, r) ->
  ratelimit_skip r' sa = false ->
  ratelimit_find (set_rl_table rl (<[i := <[j := r']> b]> (rl_table rl)) num) sa
  = Some r'.
Proof.
  intros Hslot Hb Hscan Hr'. unfold ratelimit_find.
  change (ratelimit_slot (set_rl_table rl _ num) sa) with (ratelimit_slot rl sa).
  rewrite Hslot. cbn [set_rl_table rl_table].
  rewrite list_lookup_insert_eq by (eapply lookup_lt_Some, Hb). cbn.
  rewrite (ratelimit_scan_update sa b j r r' Hscan Hr'). reflexivity.
Qed.

Lemma ratelimit_allow_found rl sa k r :
  ratelimit_find rl sa = Some r ->
  fst (fst (ratelimit_allow rl sa k))
  = (if replenish r (uptime k) >=? INITIATION_COST then 0 else ECONNREFUSED) /\
  ratelimit_find (snd (fst (ratelimit_allow rl sa k))) sa
  = Some (charge r (uptime k)) /\
  rl_table_num (snd (fst (ratelimit_allow rl sa k))) = rl_table_num rl /\
  k_uptime (snd (ratelimit_allow rl sa k)) = k_uptime k /\
  k_reads (snd (ratelimit_allow rl sa k)) = S (k_reads k).
Proof.
  intros Hfind.
  destruct (ratelimit_find_Some rl sa r Hfind) as (i & b & j & Hslot & Hb & Hscan).
  rewrite (ratelimit_allow_hit rl sa k i b j r Hslot Hb Hscan). cbn [fst snd].
  split; [reflexivity |]. split; [| repeat split].
  apply (ratelimit_find_update rl sa i b j r); auto.
  rewrite ratelimit_skip_charge. apply (ratelimit_scan_Some sa b j r Hscan).
Qed.

(** ** The refill in a monotonic clock *)

Lemma wrap_s64_small x : - 2 ^ 63 <= x < 2 ^ 63 -> wrap_s64 x = x.
Proof. intros Hx. unfold wrap_s64. rewrite Z.mod_small; lia. Qed.

Lemma wrap_u64_small x : 0 <= x < 2 ^ 64 -> wrap_u64 x = x.
Proof. intros Hx. unfold wrap_u64. apply Z.mod_small; lia. Qed.

Lemma TOKEN_MAX_val : TOKEN_MAX = 1073741820.
Proof. reflexivity. Qed.

Lemma INITIATION_COST_val : INITIATION_COST = 214748364.
Proof. reflexivity. Qed.

Lemma replenish_forward r now :
  0 <= r_tokens r <= TOKEN_MAX ->
  r_last_time r <= now < r_last_time r + 2 ^ 63 ->
  replenish r now = Z.min (r_tokens r + (now - r_last_time r)) TOKEN_MAX.
Proof.
  intros Ht Hnow. unfold replenish. rewrite TOKEN_MAX_val in *.
  rewrite wrap_s64_small by lia. rewrite wrap_u64_small by lia.
  destruct (Z.gtb_spec (r_tokens r + (now - r_last_time r)) 1073741820); lia.
Qed.

Lemma replenish_range r now : 0 <= replenish r now <= TOKEN_MAX.
Proof.
  unfold replenish.
  pose proof (Z.mod_pos_bound (r_tokens r + wrap_s64 (now - r_last_time r))
                (2 ^ 64) ltac:(lia)) as Hm.
  fold (wrap_u64 (r_tokens r + wrap_s64 (now - r_last_time r))) in Hm.
  rewrite TOKEN_MAX_val.
  destruct (Z.gtb_spec (wrap_u64 (r_tokens r + wrap_s64 (now - r_last_time r)))
              1073741820); lia.
Qed.

Lemma charge_ok r now : entry_ok (charge r now).
Proof.
  unfold entry_ok, charge. cbn [r_tokens].
  pose proof (replenish_range r now) as Hr.
  rewrite INITIATION_COST_val, TOKEN_MAX_val in *.
  destruct (Z.geb_spec (replenish r now) 214748364); lia.
Qed.

Lemma ratelimit_new_ok sa now : entry_ok (ratelimit_new sa now).
Proof. unfold entry_ok. cbn. rewrite TOKEN_MAX_val, INITIATION_COST_val. lia. Qed.

(** ** The table and its counter *)

Lemma concat_insert_length {A} (tbl : list (list A)) i b b' :
  tbl !! i = Some b ->
  (length (concat (<[i := b']> tbl)) + length b
   = length (concat tbl) + length b')%nat.
Proof.
  revert i. induction tbl as [| b0 tbl IH]; intros [| i]; simpl; try discriminate.
  - intros [= ->]. rewrite !length_app. lia.
  - intros Hi. specialize (IH i Hi). rewrite !length_app. lia.
Qed.

Lemma concat_replicate_nil {A} n : concat (replicate n (@nil A)) = [].
Proof. induction n; simpl; auto. Qed.

Lemma ratelimit_slot_bound rl sa i :
  rl_table_mask rl = RATELIMIT_SIZE - 1 ->
  length (rl_table rl) = Z.to_nat RATELIMIT_SIZE ->
  ratelimit_slot rl sa = Some i ->
  (i < length (rl_table rl))%nat.
Proof.
  unfold ratelimit_slot, ratelimit_bucket. intros Hmask Hlen Hslot.
  destruct (ratelimit_prefix sa) as [n |]; [| discriminate].
  injection Hslot as <-. rewrite Hmask, Hlen.
  change (RATELIMIT_SIZE - 1) with (Z.ones 13).
  rewrite Z.land_ones by lia.
  pose proof (Z.mod_pos_bound (siphash13 (rl_secret rl) (sa_addr sa) n)
                (2 ^ 13) ltac:(lia)) as Hm.
  change RATELIMIT_SIZE with (2 ^ 13). lia.
Qed.

Lemma ratelimit_gc_bucket_spec (P : ratelimit_entry -> Prop) expiry force b num :
  Z.of_nat (length b) <= num < 2 ^ 64 ->
  Z.of_nat (length (fst (ratelimit_gc_bucket expiry force b num)))
  = snd (ratelimit_gc_bucket expiry force b num) - (num - Z.of_nat (length b)) /\
  (length (fst (ratelimit_gc_bucket expiry force b num)) <= length b)%nat /\
  (Forall P b -> Forall P (fst (ratelimit_gc_bucket expiry force b num))).
Proof.
  revert num. induction b as [| r tr IH]; intros num Hnum; simpl.
  - repeat split; auto; lia.
  - simpl in Hnum.
    destruct ((r_last_time r <? expiry) || force).
    + rewrite wrap_u64_small by lia.
      destruct (IH (num - 1) ltac:(lia)) as (Hn & Hl & HP).
      repeat split; [lia | lia |].
      intros HF. apply HP. inversion HF; assumption.
    + destruct (IH num ltac:(lia)) as (Hn & Hl & HP).
      destruct (ratelimit_gc_bucket expiry force tr num) as [b' num'].
      simpl in *. repeat split; [lia | lia |].
      intros HF. inversion HF; subst. constructor; auto.
Qed.

Lemma ratelimit_gc_table_spec (P : ratelimit_entry -> Prop) expiry force n tbl num :
  Z.of_nat (length (concat tbl)) <= num < 2 ^ 64 ->
  Z.of_nat (length (concat (fst (ratelimit_gc_table expiry force n tbl num))))
  = snd (ratelimit_gc_table expiry force n tbl num)
    - (num - Z.of_nat (length (concat tbl))) /\
  (length (concat (fst (ratelimit_gc_table expiry force n tbl num)))
   <= length (concat tbl))%nat /\
  length (fst (ratelimit_gc_table expiry force n tbl num)) = length tbl /\
  (Forall (Forall P) tbl ->
   Forall (Forall P) (fst (ratelimit_gc_table expiry force n tbl num))).
Proof.
  revert tbl num. induction n as [| n IH]; intros tbl num Hnum.
  - simpl. repeat split; auto; lia.
  - destruct tbl as [| b tbl]; [simpl; repeat split; auto; lia |].
    simpl in Hnum. rewrite length_app in Hnum. simpl.
    destruct (ratelimit_gc_bucket_spec P expiry force b num ltac:(lia))
      as (Hn & Hl & HP).
    destruct (ratelimit_gc_bucket expiry force b num) as [b' num1].
    simpl in Hn, Hl, HP.
    destruct (IH tbl num1 ltac:(lia)) as (Hn' & Hl' & Hlen & HP').
    destruct (ratelimit_gc_table expiry force n tbl num1) as [tbl' num2].
    simpl in *. rewrite !length_app.
    repeat split; [lia | lia | lia |].
    intros HF. inversion HF; subst. constructor; auto.
Qed.

(** ** The invariant *)

Lemma ratelimit_gc_schedule_inv rl :
  ratelimit_inv rl -> ratelimit_inv (ratelimit_gc_schedule rl).
Proof.
  unfold ratelimit_gc_schedule.
  destruct ((rl_table_num rl >? 0) && negb (rl_gc rl)); auto.
Qed.

Lemma ratelimit_init_inv k rl k' :
  ratelimit_init k = (0, rl, k') -> ratelimit_inv rl.
Proof.
  unfold ratelimit_init, hashinit_flags, bind, ret, alloc_nowait, arc4random_buf.
  cbv beta iota zeta.
  cbn [k_zalloc k_allocs k_uptime k_reads k_entropy k_drawn k_locks].
  destruct (k_zalloc k (k_allocs k)); [| discriminate].
  intros Heq. apply (f_equal (fun x => snd (fst x))) in Heq.
  cbn [fst snd] in Heq. subst rl. unfold ratelimit_inv, ratelimit_entries.
  cbn [rl_table_mask rl_table rl_table_num].
  change (2 ^ Z.log2 RATELIMIT_SIZE) with RATELIMIT_SIZE.
  rewrite concat_replicate_nil, length_replicate.
  split; [reflexivity |]. split; [reflexivity |]. split; [reflexivity |].
  split; [discriminate |].
  apply Forall_replicate. constructor.
Qed.

Lemma ratelimit_allow_inv rl sa k :
  ratelimit_inv rl -> ratelimit_inv (snd (fst (ratelimit_allow rl sa k))).
Proof.
  intros Hinv.
  destruct (ratelimit_slot rl sa) as [i |] eqn:Hslot;
    [| rewrite ratelimit_allow_unsupported by assumption; exact Hinv].
  destruct Hinv as (Hmask & Hlen & Hnum & Hmax & Hok).
  pose proof (ratelimit_slot_bound rl sa i Hmask Hlen Hslot) as Hi.
  destruct (lookup_lt_is_Some_2 _ _ Hi) as [b Hb].
  destruct (ratelimit_scan sa b) as [[j r] |] eqn:Hscan.
  - rewrite (ratelimit_allow_hit rl sa k i b j r Hslot Hb Hscan). cbn [fst snd].
    unfold ratelimit_inv, ratelimit_entries in *. cbn [set_rl_table rl_table_mask rl_table rl_table_num].
    pose proof (concat_insert_length (rl_table rl) i b
                  (<[j := charge r (uptime k)]> b) Hb) as Hc.
    rewrite length_insert in Hc. rewrite length_insert.
    repeat split; try assumption; try lia.
    apply Forall_insert; [assumption |].
    apply Forall_insert; [| apply charge_ok].
    eapply Forall_lookup_1; eassumption.
  - assert (ratelimit_scan sa (default [] (rl_table rl !! i)) = None) as Hscan'
      by (rewrite Hb; exact Hscan).
    destruct (Z_lt_le_dec (rl_table_num rl) RATELIMIT_SIZE_MAX) as [Hroom | Hfull];
      [| rewrite (ratelimit_allow_full rl sa k i) by assumption;
         repeat split; assumption].
    destruct (k_zalloc k (k_allocs k)) eqn:Hmem;
      [| rewrite (ratelimit_allow_nomem rl sa k i) by assumption;
         repeat split; assumption].
    rewrite (ratelimit_allow_insert rl sa k i) by assumption. cbn [fst snd].
    apply ratelimit_gc_schedule_inv.
    unfold ratelimit_inv, ratelimit_entries in *. cbn [set_rl_table rl_table_mask rl_table rl_table_num].
    rewrite Hb. cbn [default id].
    pose proof (concat_insert_length (rl_table rl) i b
                  (ratelimit_new sa (uptime k) :: b) Hb) as Hc.
    simpl length in Hc. rewrite length_insert.
    assert (0 <= rl_table_num rl) by lia.
    change RATELIMIT_SIZE_MAX with 65536 in *.
    rewrite wrap_u64_small by lia.
    repeat split; try assumption; try lia.
    apply Forall_insert; [assumption |].
    constructor; [apply ratelimit_new_ok |].
    eapply Forall_lookup_1; eassumption.
Qed.

Lemma ratelimit_gc_inv rl force k :
  ratelimit_inv rl -> ratelimit_inv (fst (ratelimit_gc rl force k)).
Proof.
  intros Hinv. unfold ratelimit_gc.
  destruct (rl_table_num rl =? 0); [exact Hinv |].
  unfold bind. cbn [getsbinuptime].
  set (expiry := wrap_s64 _).
  destruct Hinv as (Hmask & Hlen & Hnum & Hmax & Hok).
  unfold ratelimit_entries in Hnum.
  change RATELIMIT_SIZE_MAX with 65536 in *.
  destruct (ratelimit_gc_table_spec entry_ok expiry force
              (Z.to_nat RATELIMIT_SIZE) (rl_table rl) (rl_table_num rl)
              ltac:(lia)) as (Hn & Hl & Hlen' & HP).
  destruct (ratelimit_gc_table expiry force (Z.to_nat RATELIMIT_SIZE)
              (rl_table rl) (rl_table_num rl)) as [tbl num].
  cbn [fst snd] in *. unfold ret. cbn [fst].
  apply ratelimit_gc_schedule_inv.
  unfold ratelimit_inv, ratelimit_entries. cbn [set_rl_table rl_table_mask rl_table rl_table_num].
  change RATELIMIT_SIZE_MAX with 65536.
  repeat split; auto; lia.
Qed.

Lemma ratelimit_gc_callout_inv rl k :
  ratelimit_inv rl -> ratelimit_inv (fst (ratelimit_gc_callout rl k)).
Proof.
  intros Hinv. unfold ratelimit_gc_callout, bind, rw_wlock, rw_wunlock, lock_do.
  cbn.
  match goal with
  | |- context [ratelimit_gc ?r ?f ?k'] =>
      pose proof (ratelimit_gc_inv r f k' Hinv) as Hgc;
      destruct (ratelimit_gc r f k') as [rl' k'']
  end.
  exact Hgc.
Qed.

Lemma ratelimit_run_inv evs rl k :
  ratelimit_inv rl -> ratelimit_inv (fst (ratelimit_run evs rl k)).
Proof.
  revert rl k. induction evs as [| [sa |] evs IH]; intros rl k Hinv; simpl.
  - exact Hinv.
  - unfold bind.
    pose proof (ratelimit_allow_inv rl sa k Hinv) as Hstep.
    destruct (ratelimit_allow rl sa k) as [[res rl'] k']. apply IH, Hstep.
  - unfold bind.
    pose proof (ratelimit_gc_callout_inv rl k Hinv) as Hstep.
    destruct (ratelimit_gc_callout rl k) as [rl' k']. apply IH, Hstep.
Qed.

(** Every entry a reachable rate limiter finds holds at most TOKEN_MAX
    tokens. *)
Lemma ratelimit_find_ok rl sa r :
  ratelimit_inv rl -> ratelimit_find rl sa = Some r -> entry_ok r.
Proof.
  intros (_ & _ & _ & _ & Hok) Hfind.
  destruct (ratelimit_find_Some rl sa r Hfind) as (i & b & j & _ & Hb & Hscan).
  destruct (ratelimit_scan_Some sa b j r Hscan) as [Hj _].
  eapply Forall_lookup_1; [| exact Hj].
  eapply Forall_lookup_1; [exact Hok | exact Hb].
Qed.

(** ** A new entry and the calls that follow it *)

Lemma ratelimit_find_gc_schedule rl sa :
  ratelimit_find (ratelimit_gc_schedule rl) sa = ratelimit_find rl sa.
Proof.
  unfold ratelimit_gc_schedule.
  destruct ((rl_table_num rl >? 0) && negb (rl_gc rl)); reflexivity.
Qed.

Lemma bcmp_take a n : bcmp (take n a) a n = 0.
Proof.
  unfold bcmp. rewrite take_take, Nat.min_id.
  rewrite bool_decide_eq_true_2; reflexivity.
Qed.

Lemma ratelimit_skip_new sa now :
  ratelimit_prefix sa <> None ->
  ratelimit_skip (ratelimit_new sa now) sa = false.
Proof.
  unfold ratelimit_prefix, ratelimit_skip, ratelimit_new. cbn [r_af r_addr].
  rewrite Z.eqb_refl. cbn [negb].
  destruct (sa_family sa =? AF_INET) eqn:E4.
  - apply Z.eqb_eq in E4. rewrite E4, bcmp_take. reflexivity.
  - destruct (sa_family sa =? AF_INET6); [| congruence].
    rewrite bcmp_take. reflexivity.
Qed.

Lemma ratelimit_find_insert rl sa i now num :
  ratelimit_prefix sa <> None ->
  ratelimit_slot rl sa = Some i ->
  (i < length (rl_table rl))%nat ->
  ratelimit_find
    (set_rl_table rl
       (<[i := ratelimit_new sa now :: default [] (rl_table rl !! i)]>
          (rl_table rl)) num) sa
  = Some (ratelimit_new sa now).
Proof.
  intros Hfam Hslot Hi. unfold ratelimit_find.
  change (ratelimit_slot (set_rl_table rl _ num) sa) with (ratelimit_slot rl sa).
  rewrite Hslot. cbn [set_rl_table rl_table].
  rewrite list_lookup_insert_eq by assumption. cbn [default id ratelimit_scan].
  rewrite ratelimit_skip_new by assumption. reflexivity.
Qed.

Lemma replenish_same_instant r :
  0 <= r_tokens r <= TOKEN_MAX ->
  replenish r (r_last_time r) = r_tokens r.
Proof.
  intros Ht. unfold replenish. rewrite Z.sub_diag.
  rewrite TOKEN_MAX_val in *.
  rewrite wrap_s64_small by lia. rewrite Z.add_0_r, wrap_u64_small by lia.
  destruct (Z.gtb_spec (r_tokens r) 1073741820); lia.
Qed.

Lemma ratelimit_burst_S n rl sa k :
  ratelimit_burst (S n) rl sa k
  = let '(res, rl', k') := ratelimit_allow rl sa k in
    let '(rest, rl'', k'') := ratelimit_burst n rl' sa k' in
    (res :: rest, rl'', k'').
Proof.
  cbn [ratelimit_burst]. unfold bind.
  destruct (ratelimit_allow rl sa k) as [[res rl'] k'].
  destruct (ratelimit_burst n rl' sa k') as [[rest rl''] k'']. reflexivity.
Qed.

Lemma ratelimit_burst_found sa now n :
  forall (m : nat) rl k r,
    ratelimit_find rl sa = Some r ->
    r_last_time r = now ->
    r_tokens r = Z.of_nat m * INITIATION_COST ->
    (m <= 5)%nat ->
    (forall j, k_uptime k (k_reads k + j)%nat = now) ->
    fst (fst (ratelimit_burst n rl sa k))
    = replicate (min n m) 0 ++ replicate (n - m) ECONNREFUSED.
Proof.
  induction n as [| n IH]; intros m rl k r Hfind Hlast Htok Hm Hclock;
    [reflexivity |].
  destruct (ratelimit_allow_found rl sa k r Hfind)
    as (Hres & Hfind' & _ & Hup & Hreads).
  assert (uptime k = now) as Hnow
    by (unfold uptime; rewrite <- (Hclock 0%nat); f_equal; lia).
  assert (replenish r (uptime k) = r_tokens r) as Hrep.
  { rewrite Hnow, <- Hlast. apply replenish_same_instant.
    rewrite Htok, TOKEN_MAX_val, INITIATION_COST_val. lia. }
  rewrite Hrep in Hres. unfold charge in Hfind'. rewrite Hrep, Hnow in Hfind'.
  rewrite ratelimit_burst_S.
  destruct (ratelimit_allow rl sa k) as [[res rl'] k'].
  cbn [fst snd] in Hres, Hfind', Hup, Hreads.
  assert (forall j, k_uptime k' (k_reads k' + j)%nat = now) as Hclock'.
  { intros j. rewrite Hup, Hreads, <- (Hclock (S j)). f_equal. lia. }
  destruct m as [| m].
  - assert ((r_tokens r >=? INITIATION_COST) = false) as Hge.
    { rewrite Z.geb_leb. apply Z.leb_gt. rewrite Htok, INITIATION_COST_val. lia. }
    rewrite Hge in Hres, Hfind'.
    pose proof (IH 0%nat rl' k' _ Hfind' eq_refl Htok ltac:(lia) Hclock') as Hrest.
    destruct (ratelimit_burst n rl' sa k') as [[rest rl''] k''].
    cbn [fst snd] in *. rewrite Hres, Hrest.
    rewrite Nat.min_0_r, Nat.sub_0_r. reflexivity.
  - assert ((r_tokens r >=? INITIATION_COST) = true) as Hge.
    { apply Z.geb_le. rewrite Htok, INITIATION_COST_val. lia. }
    rewrite Hge in Hres, Hfind'.
    assert (r_tokens r - INITIATION_COST = Z.of_nat m * INITIATION_COST)
      as Htok' by (rewrite Htok; lia).
    pose proof (IH m rl' k' _ Hfind' eq_refl Htok' ltac:(lia) Hclock') as Hrest.
    destruct (ratelimit_burst n rl' sa k') as [[rest rl''] k''].
    cbn [fst snd] in *. rewrite Hres, Hrest. reflexivity.
Qed.

(** ** The claims about the rate limiter *)

(** C1. When [ratelimit_allow] finds an entry for the source prefix, with
    cost = ticks per second / INITIATIONS_PER_SECOND and
    cap = cost * INITIATIONS_BURSTABLE, it sets the entry's [r_last_time] to
    now and refills its tokens to min(tokens + (now - last_time), cap); if
    that is at least cost it returns 0 and stores the refilled tokens less
    cost, otherwise it returns ECONNREFUSED and stores the refilled tokens
    as they are. The clock is monotonic ([r_last_time r <= now]) and the entry
    holds at most cap tokens, as every entry the code makes does. *)
Theorem ratelimit_allow_token_bucket rl sa k r :
  ratelimit_find rl sa = Some r ->
  0 <= r_tokens r <= TOKEN_MAX ->
  r_last_time r <= uptime k < r_last_time r + 2 ^ 63 ->
  let now := uptime k in
  let cost := SBT_1S / INITIATIONS_PER_SECOND in
  let cap := cost * INITIATIONS_BURSTABLE in
  let tokens := Z.min (r_tokens r + (now - r_last_time r)) cap in
  fst (fst (ratelimit_allow rl sa k))
  = (if tokens >=? cost then 0 else ECONNREFUSED) /\
  ratelimit_find (snd (fst (ratelimit_allow rl sa k))) sa
  = Some {| r_af := r_af r; r_addr := r_addr r; r_last_time := now;
            r_tokens := if tokens >=? cost then tokens - cost else tokens |}.
Proof.
  intros Hfind Htok Hclock now cost cap tokens.
  destruct (ratelimit_allow_found rl sa k r Hfind) as (Hres & Hrl & _).
  assert (replenish r (uptime k) = tokens) as Hrep
    by (apply replenish_forward; assumption).
  rewrite Hres, Hrl. unfold charge. rewrite Hrep. split; reflexivity.
Qed.

(** C3. A freshly inserted entry starts with cap - cost tokens and
    [r_last_time] = now, the inserting initiation being charged; so, for a
    prefix not in the table (with room in the table and memory for the
    entry), INITIATIONS_BURSTABLE + 1 calls of [ratelimit_allow] at one clock
    instant return 0 INITIATIONS_BURSTABLE times and then ECONNREFUSED. *)
Theorem ratelimit_allow_burst rl sa k now :
  ratelimit_inv rl ->
  ratelimit_prefix sa <> None ->
  ratelimit_find rl sa = None ->
  rl_table_num rl < RATELIMIT_SIZE_MAX ->
  k_zalloc k (k_allocs k) = true ->
  (forall j, k_uptime k (k_reads k + j)%nat = now) ->
  let cost := SBT_1S / INITIATIONS_PER_SECOND in
  let cap := cost * INITIATIONS_BURSTABLE in
  fst (fst (ratelimit_allow rl sa k)) = 0 /\
  r_tokens <$> ratelimit_find (snd (fst (ratelimit_allow rl sa k))) sa
  = Some (cap - cost) /\
  r_last_time <$> ratelimit_find (snd (fst (ratelimit_allow rl sa k))) sa
  = Some now /\
  fst (fst (ratelimit_burst (S (Z.to_nat INITIATIONS_BURSTABLE)) rl sa k))
  = replicate (Z.to_nat INITIATIONS_BURSTABLE) 0 ++ [ECONNREFUSED].
Proof.
  intros Hinv Hfam Hnone Hroom Hmem Hclock cost cap.
  destruct (ratelimit_slot rl sa) as [i |] eqn:Hslot;
    [| unfold ratelimit_slot in Hslot;
       destruct (ratelimit_prefix sa); congruence].
  pose proof (ratelimit_find_None rl sa i Hslot Hnone) as Hscan.
  destruct Hinv as (Hmask & Hlen & _).
  pose proof (ratelimit_slot_bound rl sa i Hmask Hlen Hslot) as Hi.
  assert (uptime k = now) as Hnow
    by (unfold uptime; rewrite <- (Hclock 0%nat); f_equal; lia).
  pose proof (ratelimit_allow_insert rl sa k i Hslot Hscan Hroom Hmem) as Hins.
  rewrite Hnow in Hins.
  assert (ratelimit_find (snd (fst (ratelimit_allow rl sa k))) sa
          = Some (ratelimit_new sa now)) as Hfind.
  { rewrite Hins. cbn [fst snd]. rewrite ratelimit_find_gc_schedule.
    apply ratelimit_find_insert; assumption. }
  split; [rewrite Hins; reflexivity |].
  split; [rewrite Hfind; reflexivity |].
  split; [rewrite Hfind; reflexivity |].
  change (Z.to_nat INITIATIONS_BURSTABLE) with 5%nat.
  rewrite ratelimit_burst_S.
  assert (forall j,
    k_uptime (snd (ratelimit_allow rl sa k))
      (k_reads (snd (ratelimit_allow rl sa k)) + j)%nat = now) as Hclock'.
  { intros j. rewrite Hins. cbn. rewrite <- (Hclock (S j)). f_equal. lia. }
  assert (fst (fst (ratelimit_allow rl sa k)) = 0) as Hres
    by (rewrite Hins; reflexivity).
  destruct (ratelimit_allow rl sa k) as [[res rl'] k'].
  cbn [fst snd] in Hfind, Hclock', Hres.
  pose proof (ratelimit_burst_found sa now 5 4 rl' k' _ Hfind eq_refl eq_refl
                ltac:(lia) Hclock') as Hrest.
  destruct (ratelimit_burst 5 rl' sa k') as [[rest rl''] k''].
  cbn [fst snd] in *. rewrite Hres, Hrest. reflexivity.
Qed.

(** C4. Over every sequence of [ratelimit_allow] calls and GC callouts that
    follows a successful [ratelimit_init], the number of live entries equals
    [rl_table_num] and never exceeds RATELIMIT_SIZE_MAX = 65536; and a call
    for a prefix that has no entry returns ECONNREFUSED and leaves the rate
    limiter as it was when the count has reached RATELIMIT_SIZE_MAX, and
    likewise when the allocation fails. *)
Theorem ratelimit_capacity k rl0 k0 evs sa k' :
  ratelimit_init k = (0, rl0, k0) ->
  let rl := fst (ratelimit_run evs rl0 k0) in
  ratelimit_entries rl = rl_table_num rl /\
  ratelimit_entries rl <= 65536 /\
  RATELIMIT_SIZE_MAX = 65536 /\
  (ratelimit_find rl sa = None ->
   RATELIMIT_SIZE_MAX <= rl_table_num rl \/ k_zalloc k' (k_allocs k') = false ->
   fst (ratelimit_allow rl sa k') = (ECONNREFUSED, rl)).
Proof.
  intros Hinit rl.
  pose proof (ratelimit_run_inv evs rl0 k0 (ratelimit_init_inv k rl0 k0 Hinit))
    as (_ & _ & Hnum & Hmax & _).
  fold rl in Hnum, Hmax.
  split; [symmetry; exact Hnum |].
  split; [rewrite <- Hnum; exact Hmax |].
  split; [reflexivity |].
  intros Hnone Hwhy.
  destruct (ratelimit_slot rl sa) as [i |] eqn:Hslot;
    [| rewrite ratelimit_allow_unsupported by assumption; reflexivity].
  pose proof (ratelimit_find_None rl sa i Hslot Hnone) as Hscan.
  destruct (Z_lt_le_dec (rl_table_num rl) RATELIMIT_SIZE_MAX) as [Hroom | Hfull];
    [| rewrite (ratelimit_allow_full rl sa k' i) by assumption; reflexivity].
  destruct Hwhy as [Hfull | Hmem]; [lia |].
  rewrite (ratelimit_allow_nomem rl sa k' i) by assumption. reflexivity.
Qed.

(** ** Which addresses share an entry *)

Lemma ratelimit_scan_ext sa sa' b :
  (forall r, ratelimit_skip r sa = ratelimit_skip r sa') ->
  ratelimit_scan sa b = ratelimit_scan sa' b.
Proof.
  intros Hext. induction b as [| r b IH]; simpl; [reflexivity |].
  rewrite (Hext r), IH. reflexivity.
Qed.





Lemma ratelimit_allow_same_prefix rl k sa sa' :
  ratelimit_slot rl sa = ratelimit_slot rl sa' ->
  (forall r, ratelimit_skip r sa = ratelimit_skip r sa') ->
  (forall now, ratelimit_new sa now = ratelimit_new sa' now) ->
  ratelimit_allow rl sa k = ratelimit_allow rl sa' k.
Proof.
  intros Hslot Hskip Hnew.
  destruct (ratelimit_slot rl sa) as [i |] eqn:Hs; symmetry in Hslot;
    [| rewrite !ratelimit_allow_unsupported by assumption; reflexivity].
  destruct (ratelimit_scan sa (default [] (rl_table rl !! i)))
    as [[j r] |] eqn:Hscan.
  - pose proof (ratelimit_scan_nil_default _ _ _ _ Hscan) as Hb.
    rewrite (ratelimit_allow_hit rl sa k i _ j r Hs Hb Hscan).
    rewrite (ratelimit_scan_ext sa sa' _ Hskip) in Hscan.
    rewrite (ratelimit_allow_hit rl sa' k i _ j r Hslot Hb Hscan).
    reflexivity.
  - pose proof Hscan as Hscan'.
    rewrite (ratelimit_scan_ext sa sa' _ Hskip) in Hscan'.
    destruct (Z_lt_le_dec (rl_table_num rl) RATELIMIT_SIZE_MAX)
      as [Hroom | Hfull];
      [| rewrite !(ratelimit_allow_full rl _ k i) by assumption; reflexivity].
    destruct (k_zalloc k (k_allocs k)) eqn:Hmem;
      [| rewrite !(ratelimit_allow_nomem rl _ k i) by assumption; reflexivity].
    rewrite !(ratelimit_allow_insert rl _ k i) by assumption.
    rewrite Hnew. reflexivity.
Qed.







(** ** A clock that goes backward *)

Lemma replenish_backward r now :
  0 <= r_tokens r <= TOKEN_MAX ->
  0 <= now < r_last_time r -> r_last_time r < 2 ^ 63 ->
  replenish r now
  = (if r_last_time r - now <=? r_tokens r
     then r_tokens r - (r_last_time r - now) else TOKEN_MAX).
Proof.
  intros Ht Hnow Hlast. unfold replenish. rewrite TOKEN_MAX_val in *.
  rewrite wrap_s64_small by lia.
  destruct (Z.leb_spec (r_last_time r - now) (r_tokens r)) as [Hle | Hgt].
  - rewrite wrap_u64_small by lia.
    destruct (Z.gtb_spec (r_tokens r + (now - r_last_time r)) 1073741820); lia.
  - assert (wrap_u64 (r_tokens r + (now - r_last_time r))
            = r_tokens r + (now - r_last_time r) + 2 ^ 64) as ->.
    { unfold wrap_u64.
      rewrite <- (Z_mod_plus_full (r_tokens r + (now - r_last_time r)) 1).
      rewrite Z.mod_small; lia. }
    destruct (Z.gtb_spec (r_tokens r + (now - r_last_time r) + 2 ^ 64)
                1073741820); lia.
Qed.

(** C8, as the code has it. The elapsed time is not clamped: it is taken in
    [sbintime_t] and added to the unsigned token count modulo 2^64. When the
    clock reads d = last_time - now > 0 ticks less than at the entry's last
    use, the refilled count is tokens - d if d <= tokens, which does not
    exceed the count for an elapsed time of 0; if d > tokens the sum wraps
    around, the refilled count is the cap TOKEN_MAX, and the call is allowed
    with TOKEN_MAX - INITIATION_COST stored. *)
Theorem ratelimit_allow_clock_backward rl sa k r :
  ratelimit_find rl sa = Some r ->
  0 <= r_tokens r <= TOKEN_MAX ->
  0 <= uptime k < r_last_time r -> r_last_time r < 2 ^ 63 ->
  let d := r_last_time r - uptime k in
  let refilled := if d <=? r_tokens r then r_tokens r - d else TOKEN_MAX in
  fst (fst (ratelimit_allow rl sa k))
  = (if refilled >=? INITIATION_COST then 0 else ECONNREFUSED) /\
  r_tokens <$> ratelimit_find (snd (fst (ratelimit_allow rl sa k))) sa
  = Some (if refilled >=? INITIATION_COST
          then refilled - INITIATION_COST else refilled) /\
  (d <= r_tokens r -> refilled <= r_tokens r) /\
  (r_tokens r < d ->
   fst (fst (ratelimit_allow rl sa k)) = 0 /\
   r_tokens <$> ratelimit_find (snd (fst (ratelimit_allow rl sa k))) sa
   = Some (TOKEN_MAX - INITIATION_COST)).
Proof.
  intros Hfind Htok Hnow Hlast d refilled.
  destruct (ratelimit_allow_found rl sa k r Hfind) as (Hres & Hrl & _).
  pose proof (replenish_backward r (uptime k) Htok Hnow Hlast) as Hrep.
  fold d in Hrep. fold refilled in Hrep.
  rewrite Hres, Hrl. unfold charge. cbn [fmap option_fmap option_map r_tokens].
  rewrite Hrep.
  split; [reflexivity |]. split; [reflexivity |]. split.
  - intros Hle. unfold refilled.
    destruct (Z.leb_spec d (r_tokens r)); lia.
  - intros Hgt. unfold refilled.
    destruct (Z.leb_spec d (r_tokens r)); [lia |].
    split; reflexivity.
Qed.

End RatelimitFacts.

Lemma ratelimit_allow_token_bucket_witness :
  fst (fst (ratelimit_allow (H := model_primitives)
              (snd (fst (seen_once ticking_kernel))) localhost
              (snd (seen_once ticking_kernel)))) = 0 /\
  ratelimit_find (H := model_primitives)
    (snd (fst (ratelimit_allow (H := model_primitives)
                 (snd (fst (seen_once ticking_kernel))) localhost
                 (snd (seen_once ticking_kernel))))) localhost
  = Some {| r_af := AF_INET; r_addr := [x7f; x00; x00; x01];
            r_last_time := 1001 * SBT_1S;
            r_tokens := TOKEN_MAX - INITIATION_COST |}.
Proof.
  apply (ratelimit_allow_token_bucket (H := model_primitives)
           (snd (fst (seen_once ticking_kernel))) localhost
           (snd (seen_once ticking_kernel))
           {| r_af := AF_INET; r_addr := [x7f; x00; x00; x01];
              r_last_time := 1000 * SBT_1S;
              r_tokens := TOKEN_MAX - INITIATION_COST |}).
  - vm_compute. reflexivity.
  - vm_compute. split; discriminate.
  - vm_compute. split; [discriminate | reflexivity].
Defined.

Lemma ratelimit_allow_burst_witness :
  fst (fst (ratelimit_burst (H := model_primitives) 6
              (snd (fst (ratelimit_init frozen_kernel))) localhost
              (snd (ratelimit_init frozen_kernel))))
  = [0; 0; 0; 0; 0; ECONNREFUSED].
Proof.
  apply (ratelimit_allow_burst (H := model_primitives)
           (snd (fst (ratelimit_init frozen_kernel))) localhost
           (snd (ratelimit_init frozen_kernel)) (1000 * SBT_1S)).
  - apply (ratelimit_init_inv frozen_kernel _ (snd (ratelimit_init frozen_kernel))).
    reflexivity.
  - discriminate.
  - vm_compute. reflexivity.
  - vm_compute. reflexivity.
  - reflexivity.
  - intros j. reflexivity.
Defined.

Lemma ratelimit_capacity_witness :
  fst (ratelimit_allow (H := model_primitives)
         (fst (ratelimit_run (H := model_primitives)
                 [Allow localhost; GcCallout]
                 (snd (fst (ratelimit_init frozen_kernel)))
                 (snd (ratelimit_init frozen_kernel))))
         localhost2 (no_memory frozen_kernel))
  = (ECONNREFUSED,
     fst (ratelimit_run (H := model_primitives)
            [Allow localhost; GcCallout]
            (snd (fst (ratelimit_init frozen_kernel)))
            (snd (ratelimit_init frozen_kernel)))).
Proof.
  apply (ratelimit_capacity (H := model_primitives) frozen_kernel
           (snd (fst (ratelimit_init frozen_kernel)))
           (snd (ratelimit_init frozen_kernel))
           [Allow localhost; GcCallout] localhost2 (no_memory frozen_kernel)).
  - reflexivity.
  - vm_compute. reflexivity.
  - right. reflexivity.
Defined.

Lemma seen_inv : ratelimit_inv seen.
Proof.
  apply (ratelimit_allow_inv (H := model_primitives)
           (snd (fst (ratelimit_init frozen_kernel))) localhost
           (snd (ratelimit_init frozen_kernel))).
  apply (ratelimit_init_inv frozen_kernel _ (snd (ratelimit_init frozen_kernel))).
  reflexivity.
Qed.


Lemma ratelimit_allow_clock_backward_witness :
  fst (fst (ratelimit_allow (H := model_primitives) (snd (fst drained))
              localhost (clock_at (1000 * SBT_1S - 1) (snd drained)))) = 0.
Proof.
  apply (ratelimit_allow_clock_backward (H := model_primitives)
           (snd (fst drained)) localhost
           (clock_at (1000 * SBT_1S - 1) (snd drained))
           {| r_af := AF_INET; r_addr := [x7f; x00; x00; x01];
              r_last_time := 1000 * SBT_1S; r_tokens := 0 |}).
  - vm_compute. reflexivity.
  - vm_compute. split; discriminate.
  - vm_compute. split; [discriminate | reflexivity].
  - vm_compute. reflexivity.
  - vm_compute. reflexivity.
Defined.

(** C8, as stated, fails: five packets in one instant have emptied the bucket
    of [localhost]; a sixth arrives while the clock reads one tick less than
    at the fifth. With an elapsed time of 0 it is refused and 0 tokens stay;
    with the clock one tick back it is allowed and TOKEN_MAX -
    INITIATION_COST tokens are stored. *)
Lemma ratelimit_allow_clock_backward_counterexample :
  let rl := snd (fst drained) in
  let k := snd drained in
  ratelimit_find (H := model_primitives) rl localhost
  = Some {| r_af := AF_INET; r_addr := [x7f; x00; x00; x01];
            r_last_time := 1000 * SBT_1S; r_tokens := 0 |} /\
  ratelimit_find (H := model_primitives)
    (snd (fst (ratelimit_allow (H := model_primitives) rl localhost
                 (clock_at (1000 * SBT_1S) k)))) localhost
  = Some {| r_af := AF_INET; r_addr := [x7f; x00; x00; x01];
            r_last_time := 1000 * SBT_1S; r_tokens := 0 |} /\
  ratelimit_find (H := model_primitives)
    (snd (fst (ratelimit_allow (H := model_primitives) rl localhost
                 (clock_at (1000 * SBT_1S - 1) k)))) localhost
  = Some {| r_af := AF_INET; r_addr := [x7f; x00; x00; x01];
            r_last_time := 1000 * SBT_1S - 1;
            r_tokens := TOKEN_MAX - INITIATION_COST |} /\
  fst (fst (ratelimit_allow (H := model_primitives) rl localhost
              (clock_at (1000 * SBT_1S) k))) = ECONNREFUSED /\
  fst (fst (ratelimit_allow (H := model_primitives) rl localhost
              (clock_at (1000 * SBT_1S - 1) k))) = 0 /\
  0 < TOKEN_MAX - INITIATION_COST.
Proof. vm_compute. repeat split; reflexivity. Qed.

Section CookieFacts.
Context `{Primitives}.

(** ** MACs *)

Lemma cookie_macs_mac1_expected cm buf len key :
  mac1 (cookie_macs_mac1 cm buf len key) = expected_mac1 key (take len buf).
Proof. reflexivity. Qed.

Lemma expected_mac1_length key buf :
  length (expected_mac1 key buf) = COOKIE_MAC_SIZE.
Proof. apply blake2s_hash_length. Qed.

Lemma expected_mac2_length cookie buf m1 :
  length (expected_mac2 cookie buf m1) = COOKIE_MAC_SIZE.
Proof. apply blake2s_hash_length. Qed.

Lemma cookie_macs_mac2_expected cm buf len cookie :
  length (mac1 cm) = COOKIE_MAC_SIZE ->
  mac2 (cookie_macs_mac2 cm buf len cookie)
  = expected_mac2 cookie (take len buf) (mac1 cm).
Proof.
  intros Hlen. unfold cookie_macs_mac2, expected_mac2, blake2s_final,
    blake2s_update, blake2s_init_key. cbn [mac2 b_outlen b_key b_data].
  rewrite (take_ge (mac1 cm)) by lia. reflexivity.
Qed.

Lemma timingsafe_bcmp_differ a b n :
  length a = n -> length b = n ->
  negb (timingsafe_bcmp a b n =? 0) = bool_decide (a <> b).
Proof.
  intros Ha Hb. unfold timingsafe_bcmp.
  rewrite (take_ge a), (take_ge b) by lia.
  destruct (decide (a = b)) as [Heq | Hne].
  - rewrite bool_decide_eq_true_2 by assumption.
    rewrite bool_decide_eq_false_2 by auto. reflexivity.
  - rewrite bool_decide_eq_false_2 by assumption.
    rewrite bool_decide_eq_true_2 by assumption. reflexivity.
Qed.

Lemma ratelimit_allow_verdict rl sa k :
  fst (fst (ratelimit_allow rl sa k)) = 0 \/
  fst (fst (ratelimit_allow rl sa k)) = ECONNREFUSED.
Proof.
  destruct (ratelimit_slot rl sa) as [i |] eqn:Hslot;
    [| rewrite ratelimit_allow_unsupported by assumption; right; reflexivity].
  destruct (ratelimit_scan sa (default [] (rl_table rl !! i)))
    as [[j r] |] eqn:Hscan.
  - pose proof (ratelimit_scan_nil_default _ _ _ _ Hscan) as Hb.
    rewrite (ratelimit_allow_hit rl sa k i _ j r Hslot Hb Hscan).
    cbn [fst]. destruct (_ >=? _); auto.
  - destruct (Z_lt_le_dec (rl_table_num rl) RATELIMIT_SIZE_MAX)
      as [Hroom | Hfull];
      [| rewrite (ratelimit_allow_full rl _ k i) by assumption; right;
         reflexivity].
    destruct (k_zalloc k (k_allocs k)) eqn:Hmem;
      [| rewrite (ratelimit_allow_nomem rl _ k i) by assumption; right;
         reflexivity].
    rewrite (ratelimit_allow_insert rl _ k i) by assumption. left. reflexivity.
Qed.

(** C2. [cookie_checker_validate_macs] returns EINVAL when the MAC1
    recomputed over the packet differs from [cm.mac1]; otherwise 0 when
    [busy] is 0; otherwise EAGAIN when the MAC2 recomputed with the cookie
    of [sa] differs from [cm.mac2]; otherwise the verdict of the rate limiter
    of [sa]'s family, which is 0 or ECONNREFUSED, and EAFNOSUPPORT when the
    family is neither AF_INET nor AF_INET6. *)
Theorem cookie_checker_validate_macs_result cc cm buf len busy sa g k :
  length (mac1 cm) = COOKIE_MAC_SIZE ->
  length (mac2 cm) = COOKIE_MAC_SIZE ->
  let m1 := expected_mac1 (cc_mac1_key cc) (take len buf) in
  let k1 := after (run rw_rlock cc_key_lock in rw_runlock cc_key_lock) k in
  let cookie := fst (fst (cookie_checker_make_cookie cc sa k1)) in
  let k2 := snd (cookie_checker_make_cookie cc sa k1) in
  let m2 := expected_mac2 cookie (take len buf) m1 in
  let v4 := fst (fst (ratelimit_allow (ratelimit_v4 g) sa k2)) in
  let v6 := fst (fst (ratelimit_allow (ratelimit_v6 g) sa k2)) in
  fst (fst (fst (cookie_checker_validate_macs cc cm buf len busy sa g k)))
  = (if bool_decide (m1 <> mac1 cm) then EINVAL
     else if busy =? 0 then 0
     else if bool_decide (m2 <> mac2 cm) then EAGAIN
     else if sa_family sa =? AF_INET then v4
     else if sa_family sa =? AF_INET6 then v6
     else EAFNOSUPPORT) /\
  (v4 = 0 \/ v4 = ECONNREFUSED) /\
  (v6 = 0 \/ v6 = ECONNREFUSED).
Proof.
  intros Hm1 Hm2 m1 k1 cookie k2 m2 v4 v6.
  split; [| split; apply ratelimit_allow_verdict].
  unfold cookie_checker_validate_macs, bind.
  cbn [rw_rlock rw_runlock lock_do].
  rewrite cookie_macs_mac1_expected. fold m1.
  rewrite (timingsafe_bcmp_differ m1 (mac1 cm) COOKIE_MAC_SIZE
             (expected_mac1_length _ _) Hm1).
  destruct (bool_decide (m1 <> mac1 cm)); [reflexivity |].
  destruct (busy =? 0); [reflexivity |]. cbn [negb].
  change (cookie_checker_make_cookie cc sa _)
    with (cookie_checker_make_cookie cc sa k1).
  subst cookie k2 v4 v6 m2.
  destruct (cookie_checker_make_cookie cc sa k1) as [[cookie cc'] k2].
  cbn [fst snd].
  rewrite cookie_macs_mac2_expected
    by (rewrite cookie_macs_mac1_expected; apply expected_mac1_length).
  rewrite cookie_macs_mac1_expected. fold m1.
  rewrite (timingsafe_bcmp_differ _ (mac2 cm) COOKIE_MAC_SIZE
             (expected_mac2_length _ _ _) Hm2).
  destruct (bool_decide (_ <> mac2 cm)); [reflexivity |].
  destruct (sa_family sa =? AF_INET).
  { destruct (ratelimit_allow (ratelimit_v4 g) sa k2) as [[res rl'] k3].
    reflexivity. }
  destruct (sa_family sa =? AF_INET6); [| reflexivity].
  destruct (ratelimit_allow (ratelimit_v6 g) sa k2) as [[res rl'] k3].
  reflexivity.
Qed.

(** ** The cookie maker *)

Lemma cookie_timer_expired_spec timer sec k :
  - 2 ^ 63 <= timer + sec * SBT_1S < 2 ^ 63 ->
  fst (cookie_timer_expired timer sec 0 k)
  = (if uptime k - timer <=? sec * SBT_1S then 0 else ETIMEDOUT).
Proof.
  intros Hrange. unfold cookie_timer_expired, bind, ret, uptime.
  cbn [getsbinuptime fst].
  change (nstosbt 0) with 0. rewrite Z.add_0_r, wrap_s64_small by assumption.
  destruct (Z.gtb_spec (k_uptime k (k_reads k)) (timer + sec * SBT_1S)),
           (Z.leb_spec (k_uptime k (k_reads k) - timer) (sec * SBT_1S));
    try reflexivity; lia.
Qed.

(** C5, as the code has it. [cookie_maker_mac] computes [cm.mac2] as the MAC2
    of the packet under the stored cookie exactly when
    now - cookie_birthdate <= SECRET_MAX_AGE - SECRET_LATENCY, that is up to
    and including 115 seconds after the cookie was received, and zeroes it
    otherwise. (The birthdate is an uptime, 115 s short of the end of
    [sbintime_t].) *)
Theorem cookie_maker_mac_mac2 cp cm buf len k :
  - 2 ^ 63 <= cp_birthdate cp ->
  cp_birthdate cp
  + (COOKIE_SECRET_MAX_AGE - COOKIE_SECRET_LATENCY) * SBT_1S < 2 ^ 63 ->
  let now := uptime k in
  let cm' := snd (fst (cookie_maker_mac cp cm buf len k)) in
  mac1 cm' = expected_mac1 (cp_mac1_key cp) (take len buf) /\
  mac2 cm'
  = (if now - cp_birthdate cp
        <=? (COOKIE_SECRET_MAX_AGE - COOKIE_SECRET_LATENCY) * SBT_1S
     then expected_mac2 (cp_cookie cp) (take len buf) (mac1 cm')
     else zeroes COOKIE_MAC_SIZE).
Proof.
  intros Hlo Hhi now cm'. subst cm'.
  unfold cookie_maker_mac, bind. cbn [rw_rlock lock_do cp_birthdate cp_cookie].
  pose proof (cookie_timer_expired_spec (cp_birthdate cp)
                (COOKIE_SECRET_MAX_AGE - COOKIE_SECRET_LATENCY)
                (after (rw_rlock cp_lock) k)) as Hexp.
  change (after (rw_rlock cp_lock) k) with
    {| k_uptime := k_uptime k; k_reads := k_reads k;
       k_entropy := k_entropy k; k_drawn := k_drawn k;
       k_zalloc := k_zalloc k; k_allocs := k_allocs k;
       k_locks := k_locks k ++ [RLock cp_lock] |} in Hexp.
  change (uptime _) with now in Hexp.
  destruct (cookie_timer_expired _ _ 0 _) as [expired k'].
  cbn [fst] in Hexp. rewrite Hexp by (change SBT_1S with 4294967296 in *;
    change COOKIE_SECRET_MAX_AGE with 120 in *;
    change COOKIE_SECRET_LATENCY with 5 in *; lia).
  cbn [rw_runlock lock_do ret fst snd].
  destruct (now - cp_birthdate cp <=? _).
  - cbn [Z.eqb]. split; [reflexivity |].
    rewrite cookie_macs_mac2_expected
      by (rewrite cookie_macs_mac1_expected; apply expected_mac1_length).
    reflexivity.
  - change (ETIMEDOUT =? 0) with false. cbn [mac1 mac2].
    split; reflexivity.
Qed.

(** ** Consuming a cookie reply *)

Lemma cookie_maker_consume_payload_cases cp nonce ecookie k :
  fst (cookie_maker_consume_payload cp nonce ecookie k)
  = if negb (cp_mac1_valid cp) then (ETIMEDOUT, cp)
    else
      match xchacha20poly1305_decrypt (take COOKIE_ENCRYPTED_SIZE ecookie)
              (take COOKIE_MAC_SIZE (cp_mac1_last cp)) nonce (cp_cookie_key cp)
      with
      | None => (EINVAL, cp)
      | Some cookie =>
          (0, {| cp_mac1_key := cp_mac1_key cp;
                 cp_cookie_key := cp_cookie_key cp;
                 cp_cookie := take COOKIE_COOKIE_SIZE cookie;
                 cp_birthdate := uptime k;
                 cp_mac1_valid := false;
                 cp_mac1_last := cp_mac1_last cp |})
      end.
Proof.
  unfold cookie_maker_consume_payload, bind.
  destruct (cp_mac1_valid cp); cbn [negb]; [| reflexivity].
  destruct (xchacha20poly1305_decrypt _ _ _ _); reflexivity.
Qed.

(** C6. A successful [cookie_maker_consume_payload] leaves [cp_mac1_valid]
    false, so a second one on the same maker, with no [cookie_maker_mac] in
    between, returns ETIMEDOUT and leaves the maker, its cookie and its
    birthdate as they were. *)
Theorem cookie_maker_consume_once cp nonce ecookie k nonce' ecookie' k' :
  fst (fst (cookie_maker_consume_payload cp nonce ecookie k)) = 0 ->
  let cp1 := snd (fst (cookie_maker_consume_payload cp nonce ecookie k)) in
  let second := fst (cookie_maker_consume_payload cp1 nonce' ecookie' k') in
  cp_mac1_valid cp1 = false /\
  fst second = ETIMEDOUT /\
  snd second = cp1 /\
  cp_cookie (snd second) = cp_cookie cp1 /\
  cp_birthdate (snd second) = cp_birthdate cp1.
Proof.
  intros Hok cp1 second.
  assert (cp_mac1_valid cp1 = false) as Hvalid.
  { subst cp1. revert Hok. rewrite cookie_maker_consume_payload_cases.
    destruct (cp_mac1_valid cp); cbn [negb fst snd]; [| discriminate].
    destruct (xchacha20poly1305_decrypt _ _ _ _); [reflexivity | discriminate]. }
  assert (second = (ETIMEDOUT, cp1)) as ->.
  { subst second. rewrite cookie_maker_consume_payload_cases, Hvalid.
    reflexivity. }
  repeat split. exact Hvalid.
Qed.

(** C10. [cookie_maker_consume_payload] changes nothing when it fails: when
    it returns ETIMEDOUT or EINVAL, the maker (its cookie, its birthdate and
    [cp_mac1_valid] among the rest) is as before the call; and after EINVAL,
    a failed decryption, [cp_mac1_valid] is still true. *)
Theorem cookie_maker_consume_failure cp nonce ecookie k :
  fst (fst (cookie_maker_consume_payload cp nonce ecookie k)) = ETIMEDOUT \/
  fst (fst (cookie_maker_consume_payload cp nonce ecookie k)) = EINVAL ->
  let cp' := snd (fst (cookie_maker_consume_payload cp nonce ecookie k)) in
  cp' = cp /\
  cp_cookie cp' = cp_cookie cp /\
  cp_birthdate cp' = cp_birthdate cp /\
  cp_mac1_valid cp' = cp_mac1_valid cp /\
  (fst (fst (cookie_maker_consume_payload cp nonce ecookie k)) = EINVAL ->
   cp_mac1_valid cp' = true).
Proof.
  intros Hfail cp'. subst cp'. revert Hfail.
  rewrite cookie_maker_consume_payload_cases.
  destruct (cp_mac1_valid cp) eqn:Hvalid; cbn [negb fst snd].
  - destruct (xchacha20poly1305_decrypt _ _ _ _); cbn [fst snd].
    + intros [Hbad | Hbad]; discriminate.
    + intros _. repeat split; auto.
  - intros _. repeat split; auto. discriminate.
Qed.

(** ** The maker's lock *)

(** C9 fails on the code. [cookie_maker_mac] takes [cp_lock] with
    [rw_rlock], shared, and under it stores [cp_mac1_last] and sets
    [cp_mac1_valid]; only [cookie_maker_consume_payload] takes it with
    [rw_wlock]. A shared lock admits a second holder, so two calls of
    [cookie_maker_mac] can both be between their lock and their unlock, which
    two holders of the write lock cannot. *)
Theorem cookie_maker_mac_read_locked cp cm buf len nonce ecookie k :
  k_locks (snd (cookie_maker_mac cp cm buf len k))
  = k_locks k ++ [RLock cp_lock; RUnlock cp_lock] /\
  cp_mac1_valid (fst (fst (cookie_maker_mac cp cm buf len k))) = true /\
  cp_mac1_last (fst (fst (cookie_maker_mac cp cm buf len k)))
  = expected_mac1 (cp_mac1_key cp) (take len buf) /\
  k_locks (snd (cookie_maker_consume_payload cp nonce ecookie k))
  = k_locks k ++ [WLock cp_lock; WUnlock cp_lock] /\
  rw_steps rw_free [RLock cp_lock; RLock cp_lock] = Some (rw_shared 2) /\
  rw_steps rw_free [WLock cp_lock; WLock cp_lock] = None /\
  rw_steps rw_free [RLock cp_lock; WLock cp_lock] = None.
Proof.
  split; [| split; [| split; [| split; [| repeat split]]]].
  - unfold cookie_maker_mac, cookie_timer_expired, bind, ret.
    cbn [rw_rlock rw_runlock lock_do getsbinuptime snd k_locks].
    rewrite <- app_assoc. reflexivity.
  - reflexivity.
  - unfold cookie_maker_mac, cookie_timer_expired, bind, ret.
    cbn [rw_rlock rw_runlock lock_do getsbinuptime fst cp_mac1_last].
    rewrite cookie_macs_mac1_expected.
    apply take_ge. rewrite expected_mac1_length. reflexivity.
  - unfold cookie_maker_consume_payload, bind, ret.
    destruct (cp_mac1_valid cp); cbn [negb];
      [destruct (xchacha20poly1305_decrypt _ _ _ _) |];
      cbn [rw_wlock rw_wunlock lock_do getsbinuptime snd k_locks];
      rewrite <- app_assoc; reflexivity.
Qed.

End CookieFacts.

Lemma cookie_checker_validate_macs_result_witness :
  fst (fst (fst (cookie_checker_validate_macs (H := model_primitives)
                   responder (snd (fst emitted)) hello 5 1 localhost limiters
                   (snd emitted)))) = EAGAIN.
Proof.
  pose proof (cookie_checker_validate_macs_result (H := model_primitives)
                responder (snd (fst emitted)) hello 5 1 localhost limiters
                (snd emitted) eq_refl eq_refl) as [Hres _].
  exact Hres.
Defined.

Lemma cookie_maker_mac_mac2_witness :
  mac2 (snd (fst (cookie_maker_mac (H := model_primitives)
                    (snd (fst consumed)) no_macs hello 5
                    (clock_at (1000 * SBT_1S + 1) (snd consumed)))))
  = zeroes COOKIE_MAC_SIZE.
Proof.
  apply (cookie_maker_mac_mac2 (H := model_primitives)
           (snd (fst consumed)) no_macs hello 5
           (clock_at (1000 * SBT_1S + 1) (snd consumed))).
  - vm_compute. discriminate.
  - vm_compute. reflexivity.
Defined.

(** C5, as stated, fails: the cookie was received at 885 s of uptime and the
    next packet is sent at 1000 s, when now - cookie_birthdate is exactly
    115 s and not less; [cm.mac2] is the MAC2 under the cookie, not zero. *)
Lemma cookie_maker_mac_mac2_counterexample :
  let cp := snd (fst consumed) in
  let k := clock_at (1000 * SBT_1S) (snd consumed) in
  let cm' := snd (fst (cookie_maker_mac (H := model_primitives)
                         cp no_macs hello 5 k)) in
  uptime k - cp_birthdate cp
  = (COOKIE_SECRET_MAX_AGE - COOKIE_SECRET_LATENCY) * SBT_1S /\
  ~ (uptime k - cp_birthdate cp
     < (COOKIE_SECRET_MAX_AGE - COOKIE_SECRET_LATENCY) * SBT_1S) /\
  mac2 cm'
  = expected_mac2 (H := model_primitives) (cp_cookie cp) hello (mac1 cm') /\
  mac2 cm' <> zeroes COOKIE_MAC_SIZE.
Proof.
  vm_compute. split; [reflexivity |]. split; [discriminate |].
  split; [reflexivity | discriminate].
Qed.

Lemma cookie_maker_consume_once_witness :
  fst (cookie_maker_consume_payload (H := model_primitives)
         (snd (fst consumed)) (fst (fst (fst reply))) (snd (fst (fst reply)))
         (snd consumed))
  = (ETIMEDOUT, snd (fst consumed)).
Proof.
  pose proof (cookie_maker_consume_once (H := model_primitives)
                (fst (fst emitted)) (fst (fst (fst reply)))
                (snd (fst (fst reply))) (clock_at (885 * SBT_1S) (snd reply))
                (fst (fst (fst reply))) (snd (fst (fst reply))) (snd consumed)
                eq_refl) as (_ & Hret & Hcp & _).
  apply injective_projections; [exact Hret | exact Hcp].
Defined.

Lemma cookie_maker_consume_failure_witness :
  snd (fst (cookie_maker_consume_payload (H := model_primitives)
              (fst (fst emitted)) (fst (fst (fst reply))) hello
              (snd reply)))
  = fst (fst emitted).
Proof.
  apply (cookie_maker_consume_failure (H := model_primitives)
           (fst (fst emitted)) (fst (fst (fst reply))) hello (snd reply)).
  right. vm_compute. reflexivity.
Defined.

(** * The scenarios of the specification, run on the embedding *)

(** S1: no cookie yet, so [mac2] is zero; not under load the packet passes. *)
Example scenario_no_cookie :
  mac2 (snd (fst emitted)) = zeroes COOKIE_MAC_SIZE /\
  fst (fst (fst (cookie_checker_validate_macs (H := model_primitives)
                   responder (snd (fst emitted)) hello 5 0 localhost limiters
                   (snd emitted)))) = 0.
Proof. vm_compute. split; reflexivity. Qed.

(** S2 and S3: under load the same packet asks for a cookie; with the cookie
    of the reply the next packet passes five times in one instant and is
    refused the sixth time. *)
Example scenario_cookie_then_burst :
  fst (fst (fst (cookie_checker_validate_macs (H := model_primitives)
                   responder (snd (fst emitted)) hello 5 1 localhost limiters
                   (snd emitted)))) = EAGAIN /\
  fst (fst consumed) = 0 /\
  mac2 (snd (fst cookied_packet)) <> zeroes COOKIE_MAC_SIZE /\
  validate_burst 6 (snd (fst reply)) (snd (fst cookied_packet)) localhost
    limiters (snd cookied_packet)
  = [0; 0; 0; 0; 0; ECONNREFUSED].
Proof.
  vm_compute. split; [reflexivity |]. split; [reflexivity |].
  split; [discriminate | reflexivity].
Qed.

(** S4: 2001:db8::1 and 2001:db8::ffff draw on one bucket. *)
Example scenario_shared_prefix :
  let '(first, rl, k) :=
    ratelimit_burst (H := model_primitives) 3
      (snd (fst (ratelimit_init frozen_kernel))) doc_v6_1
      (snd (ratelimit_init frozen_kernel)) in
  first = [0; 0; 0] /\
  fst (fst (ratelimit_burst (H := model_primitives) 3 rl doc_v6_ffff k))
  = [0; 0; ECONNREFUSED].
Proof. vm_compute. split; reflexivity. Qed.

(** S5: one byte of [mac1] changed, and the packet is invalid under load or
    not. *)
Example scenario_tampered_mac1 :
  let cm := {| mac1 := x00 :: drop 1 (mac1 (snd (fst emitted)));
               mac2 := mac2 (snd (fst emitted)) |} in
  fst (fst (fst (cookie_checker_validate_macs (H := model_primitives)
                   responder cm hello 5 0 localhost limiters (snd emitted))))
  = EINVAL /\
  fst (fst (fst (cookie_checker_validate_macs (H := model_primitives)
                   responder cm hello 5 1 localhost limiters (snd emitted))))
  = EINVAL.
Proof. vm_compute. split; reflexivity. Qed.

(** * More of the code *)

Section MoreFacts.
Context `{Primitives}.

(** ** The checker's cookie *)

Lemma secret_age_test timer sec now :
  - 2 ^ 63 <= timer + sec * SBT_1S < 2 ^ 63 ->
  (now >? wrap_s64 (timer + sec * SBT_1S + nstosbt 0))
  = negb (now - timer <=? sec * SBT_1S).
Proof.
  intros Hrange. change (nstosbt 0) with 0.
  rewrite Z.add_0_r, wrap_s64_small by assumption.
  destruct (Z.gtb_spec now (timer + sec * SBT_1S)),
           (Z.leb_spec (now - timer) (sec * SBT_1S)); try reflexivity; lia.
Qed.

(** The checker as [cookie_checker_make_cookie] leaves it at kernel [k]. *)
Lemma cookie_checker_make_cookie_checker cc sa k :
  - 2 ^ 63 <= cc_secret_birthdate cc + COOKIE_SECRET_MAX_AGE * SBT_1S < 2 ^ 63 ->
  snd (fst (cookie_checker_make_cookie cc sa k))
  = (if uptime k - cc_secret_birthdate cc <=? COOKIE_SECRET_MAX_AGE * SBT_1S
     then cc
     else {| cc_mac1_key := cc_mac1_key cc; cc_cookie_key := cc_cookie_key cc;
             cc_secret_birthdate := k_uptime k (S (k_reads k));
             cc_secret := map (k_entropy k)
                            (seq (k_drawn k) COOKIE_SECRET_SIZE) |}).
Proof.
  intros Hrange.
  unfold cookie_checker_make_cookie, cookie_timer_expired, bind, ret, uptime.
  cbn [rw_wlock rw_wunlock lock_do getsbinuptime arc4random_buf
       k_uptime k_reads k_entropy k_drawn k_zalloc k_allocs k_locks].
  rewrite secret_age_test by assumption.
  destruct (k_uptime k (k_reads k) - cc_secret_birthdate cc
            <=? COOKIE_SECRET_MAX_AGE * SBT_1S); cbn [negb];
    [change (0 =? 0) with true | change (ETIMEDOUT =? 0) with false];
    cbn [negb];
    destruct (sa_family sa =? AF_INET); try reflexivity;
    destruct (sa_family sa =? AF_INET6); reflexivity.
Qed.

Lemma cookie_checker_make_cookie_cookie cc sa k :
  - 2 ^ 63 <= cc_secret_birthdate cc + COOKIE_SECRET_MAX_AGE * SBT_1S < 2 ^ 63 ->
  ratelimit_prefix sa <> None ->
  fst (fst (cookie_checker_make_cookie cc sa k))
  = cookie_for (cc_secret (snd (fst (cookie_checker_make_cookie cc sa k)))) sa.
Proof.
  intros Hrange Hfam. rewrite cookie_checker_make_cookie_checker by assumption.
  unfold cookie_checker_make_cookie, cookie_timer_expired, bind, ret, uptime.
  cbn [rw_wlock rw_wunlock lock_do getsbinuptime arc4random_buf
       k_uptime k_reads k_entropy k_drawn k_zalloc k_allocs k_locks].
  rewrite secret_age_test by assumption.
  unfold ratelimit_prefix in Hfam. unfold cookie_for.
  destruct (k_uptime k (k_reads k) - cc_secret_birthdate cc
            <=? COOKIE_SECRET_MAX_AGE * SBT_1S); cbn [negb];
    [change (0 =? 0) with true | change (ETIMEDOUT =? 0) with false];
    cbn [negb];
    destruct (sa_family sa =? AF_INET); try reflexivity;
    destruct (sa_family sa =? AF_INET6); try reflexivity; congruence.
Qed.

Lemma cookie_checker_make_cookie_length cc sa k :
  length (fst (fst (cookie_checker_make_cookie cc sa k))) = COOKIE_COOKIE_SIZE.
Proof.
  unfold cookie_checker_make_cookie, cookie_timer_expired, bind, ret.
  cbn [rw_wlock rw_wunlock lock_do getsbinuptime arc4random_buf
       k_uptime k_reads k_entropy k_drawn k_zalloc k_allocs k_locks].
  destruct (_ >? _);
    [change (ETIMEDOUT =? 0) with false | change (0 =? 0) with true];
    cbn [negb];
    (destruct (sa_family sa =? AF_INET);
     [apply blake2s_hash_length |
      destruct (sa_family sa =? AF_INET6);
      [apply blake2s_hash_length |]]);
    cbn [fst]; rewrite length_map, length_seq; reflexivity.
Qed.

(** Within COOKIE_SECRET_MAX_AGE of the secret's birthdate (the bound
    included) [cookie_checker_make_cookie] leaves the checker as it is, draws
    no randomness, and returns the BLAKE2s of address and port under the
    secret: the same cookie for the same address at any such time. Past that
    age it first replaces the secret by 32 fresh random bytes and the
    birthdate by the time read next, and the cookie is under the new
    secret. *)
Theorem cookie_checker_make_cookie_rotation cc sa k :
  - 2 ^ 63 <= cc_secret_birthdate cc + COOKIE_SECRET_MAX_AGE * SBT_1S < 2 ^ 63 ->
  ratelimit_prefix sa <> None ->
  let cookie := fst (fst (cookie_checker_make_cookie cc sa k)) in
  let cc' := snd (fst (cookie_checker_make_cookie cc sa k)) in
  let k' := snd (cookie_checker_make_cookie cc sa k) in
  cc_mac1_key cc' = cc_mac1_key cc /\
  cc_cookie_key cc' = cc_cookie_key cc /\
  cookie = cookie_for (cc_secret cc') sa /\
  (uptime k - cc_secret_birthdate cc <= COOKIE_SECRET_MAX_AGE * SBT_1S ->
   cc' = cc /\ k_drawn k' = k_drawn k) /\
  (COOKIE_SECRET_MAX_AGE * SBT_1S < uptime k - cc_secret_birthdate cc ->
   cc_secret cc' = map (k_entropy k) (seq (k_drawn k) COOKIE_SECRET_SIZE) /\
   cc_secret_birthdate cc' = k_uptime k (S (k_reads k)) /\
   k_drawn k' = (k_drawn k + COOKIE_SECRET_SIZE)%nat).
Proof.
  intros Hrange Hfam cookie cc' k'.
  pose proof (cookie_checker_make_cookie_checker cc sa k Hrange) as Hcc.
  pose proof (cookie_checker_make_cookie_cookie cc sa k Hrange Hfam) as Hck.
  fold cc' in Hcc, Hck. fold cookie in Hck.
  assert (k_drawn k'
          = if uptime k - cc_secret_birthdate cc
               <=? COOKIE_SECRET_MAX_AGE * SBT_1S
            then k_drawn k else (k_drawn k + COOKIE_SECRET_SIZE)%nat) as Hdr.
  { subst k'.
    unfold cookie_checker_make_cookie, cookie_timer_expired, bind, ret, uptime.
    cbn [rw_wlock rw_wunlock lock_do getsbinuptime arc4random_buf
         k_uptime k_reads k_entropy k_drawn k_zalloc k_allocs k_locks].
    rewrite secret_age_test by assumption.
    unfold ratelimit_prefix in Hfam.
    destruct (k_uptime k (k_reads k) - cc_secret_birthdate cc
              <=? COOKIE_SECRET_MAX_AGE * SBT_1S); cbn [negb];
      [change (0 =? 0) with true | change (ETIMEDOUT =? 0) with false];
      cbn [negb];
      destruct (sa_family sa =? AF_INET); try reflexivity;
      destruct (sa_family sa =? AF_INET6); try reflexivity; congruence. }
  destruct (Z.leb_spec (uptime k - cc_secret_birthdate cc)
              (COOKIE_SECRET_MAX_AGE * SBT_1S)) as [Hle | Hgt];
    rewrite Hcc; cbn [cc_mac1_key cc_cookie_key cc_secret cc_secret_birthdate];
    (split; [reflexivity |]); (split; [reflexivity |]);
    (split; [rewrite Hck, Hcc; reflexivity |]);
    (split; [intros Hle' | intros Hgt']); try lia; auto.
Qed.

(** ** Maker and checker together *)

Lemma timingsafe_bcmp_refl a n : timingsafe_bcmp a a n = 0.
Proof.
  unfold timingsafe_bcmp. rewrite bool_decide_eq_true_2; reflexivity.
Qed.

(** MAC1 round trip. A maker initialised with [key], in whatever state it
    is later, and a checker updated with the same [key]: the MACs
    [cookie_maker_mac] puts on a packet pass
    [cookie_checker_validate_macs] when the responder is not under load, for
    every packet and every source address, and neither the checker nor the
    rate limiters change. *)
Theorem mac1_round_trip key cc0 k0 cp cm buf len k sa g k' :
  cp_mac1_key cp = cp_mac1_key (cookie_maker_init key) ->
  let cc := fst (cookie_checker_update cc0 (Some key) k0) in
  let cm' := snd (fst (cookie_maker_mac cp cm buf len k)) in
  cp_mac1_key (fst (fst (cookie_maker_mac cp cm buf len k))) = cp_mac1_key cp /\
  fst (cookie_checker_validate_macs cc cm' buf len 0 sa g k') = (0, cc, g).
Proof.
  intros Hkey cc cm'. split; [reflexivity |].
  assert (mac1 cm' = expected_mac1 (cc_mac1_key cc) (take len buf)) as Hm1.
  { subst cm' cc.
    unfold cookie_maker_mac, cookie_timer_expired, bind, ret.
    cbn [rw_rlock rw_runlock lock_do getsbinuptime fst snd].
    destruct (_ =? 0); cbn [mac1 cookie_macs_mac2];
      rewrite cookie_macs_mac1_expected, Hkey; reflexivity. }
  unfold cookie_checker_validate_macs, bind.
  cbn [rw_rlock rw_runlock lock_do].
  rewrite cookie_macs_mac1_expected, <- Hm1, timingsafe_bcmp_refl.
  reflexivity.
Qed.

Lemma cookie_maker_mac_maker cp cm buf len k :
  fst (fst (cookie_maker_mac cp cm buf len k))
  = {| cp_mac1_key := cp_mac1_key cp; cp_cookie_key := cp_cookie_key cp;
       cp_cookie := cp_cookie cp; cp_birthdate := cp_birthdate cp;
       cp_mac1_valid := true;
       cp_mac1_last := expected_mac1 (cp_mac1_key cp) (take len buf) |}.
Proof.
  unfold cookie_maker_mac, cookie_timer_expired, bind, ret.
  cbn [rw_rlock rw_runlock lock_do getsbinuptime fst].
  rewrite cookie_macs_mac1_expected.
  rewrite (take_ge (expected_mac1 _ _))
    by (rewrite expected_mac1_length; reflexivity).
  reflexivity.
Qed.

Lemma cookie_maker_mac_mac1 cp cm buf len k :
  mac1 (snd (fst (cookie_maker_mac cp cm buf len k)))
  = expected_mac1 (cp_mac1_key cp) (take len buf).
Proof.
  unfold cookie_maker_mac, cookie_timer_expired, bind, ret.
  cbn [rw_rlock rw_runlock lock_do getsbinuptime fst snd].
  destruct (_ =? 0); reflexivity.
Qed.

(** Cookie reply round trip. With an AEAD that decrypts what it encrypted
    (ciphertext = plaintext length + 16), a maker and a checker that hold the
    same cookie key: the reply [cookie_checker_create_payload] makes for the
    MACs the maker sent last is consumed with result 0, and the maker then
    holds the very cookie the checker computed for the source address, born
    at the time of the consume, with [cp_mac1_valid] cleared. *)
Theorem cookie_reply_round_trip cp cc cm buf len sa k k1 k2 :
  (forall pt ad nonce key,
     xchacha20poly1305_decrypt (xchacha20poly1305_encrypt pt ad nonce key)
       ad nonce key = Some pt) ->
  (forall pt ad nonce key,
     length (xchacha20poly1305_encrypt pt ad nonce key)
     = (length pt + 16)%nat) ->
  cp_cookie_key cp = cc_cookie_key cc ->
  let sent := fst (cookie_maker_mac cp cm buf len k) in
  let made := fst (cookie_checker_create_payload cc (snd sent) sa k1) in
  let got :=
    fst (cookie_maker_consume_payload (fst sent) (fst (fst made))
           (snd (fst made)) k2) in
  fst got = 0 /\
  cp_cookie (snd got) = fst (fst (cookie_checker_make_cookie cc sa k1)) /\
  cp_birthdate (snd got) = uptime k2 /\
  cp_mac1_valid (snd got) = false /\
  length (snd (fst made)) = COOKIE_ENCRYPTED_SIZE /\
  length (fst (fst made)) = COOKIE_NONCE_SIZE.
Proof.
  intros Hdec Hlen Hkey sent made got.
  pose proof (cookie_checker_make_cookie_length cc sa k1) as Hck.
  assert (snd (fst (cookie_checker_make_cookie cc sa k1)) = snd made
          /\ cc_cookie_key (snd made) = cc_cookie_key cc
          /\ snd (fst made)
             = xchacha20poly1305_encrypt
                 (fst (fst (cookie_checker_make_cookie cc sa k1)))
                 (mac1 (snd sent)) (fst (fst made)) (cc_cookie_key cc)
          /\ length (fst (fst made)) = COOKIE_NONCE_SIZE)
    as (_ & _ & Hec & Hnonce).
  { subst made. unfold cookie_checker_create_payload, bind, ret.
    assert (cc_cookie_key (snd (fst (cookie_checker_make_cookie cc sa k1)))
            = cc_cookie_key cc) as Hk'.
    { unfold cookie_checker_make_cookie, cookie_timer_expired, bind, ret.
      cbn [rw_wlock rw_wunlock lock_do getsbinuptime arc4random_buf
           k_uptime k_reads k_entropy k_drawn k_zalloc k_allocs k_locks].
      destruct (_ >? _);
        [change (ETIMEDOUT =? 0) with false | change (0 =? 0) with true];
        cbn [negb];
        destruct (sa_family sa =? AF_INET); try reflexivity;
        destruct (sa_family sa =? AF_INET6); reflexivity. }
    assert (length (mac1 (snd sent)) = COOKIE_MAC_SIZE) as Hm1
      by (subst sent; rewrite cookie_maker_mac_mac1;
          apply expected_mac1_length).
    destruct (cookie_checker_make_cookie cc sa k1) as [[cookie cc'] k1'].
    cbn [fst snd] in *.
    cbn [arc4random_buf rw_rlock rw_runlock lock_do fst snd].
    rewrite (take_ge cookie), (take_ge (mac1 (snd sent))) by lia.
    rewrite Hk', length_map, length_seq. repeat split. }
  assert (got = (0, {| cp_mac1_key := cp_mac1_key cp;
                       cp_cookie_key := cp_cookie_key cp;
                       cp_cookie := fst (fst (cookie_checker_make_cookie cc sa k1));
                       cp_birthdate := uptime k2;
                       cp_mac1_valid := false;
                       cp_mac1_last :=
                         expected_mac1 (cp_mac1_key cp) (take len buf) |}))
    as Hgot.
  { subst got. rewrite cookie_maker_consume_payload_cases.
    subst sent. rewrite cookie_maker_mac_maker.
    cbn [cp_mac1_valid negb cp_mac1_last cp_cookie_key cp_mac1_key].
    rewrite (take_ge (snd (fst made)))
      by (rewrite Hec, Hlen, Hck; reflexivity).
    rewrite (take_ge (expected_mac1 _ _))
      by (rewrite expected_mac1_length; reflexivity).
    rewrite Hec, cookie_maker_mac_mac1, Hkey, Hdec.
    rewrite (take_ge (fst (fst (cookie_checker_make_cookie cc sa k1)))) by lia.
    reflexivity. }
  rewrite Hgot. cbn [fst snd cp_cookie cp_birthdate cp_mac1_valid].
  repeat split; try assumption.
  rewrite Hec, Hlen, Hck. reflexivity.
Qed.

(** ** Validation under load *)

Lemma cookie_maker_mac_fresh cp cm buf len k :
  - 2 ^ 63 <= cp_birthdate cp ->
  cp_birthdate cp
  + (COOKIE_SECRET_MAX_AGE - COOKIE_SECRET_LATENCY) * SBT_1S < 2 ^ 63 ->
  uptime k - cp_birthdate cp
  <= (COOKIE_SECRET_MAX_AGE - COOKIE_SECRET_LATENCY) * SBT_1S ->
  mac2 (snd (fst (cookie_maker_mac cp cm buf len k)))
  = expected_mac2 (cp_cookie cp) (take len buf)
      (expected_mac1 (cp_mac1_key cp) (take len buf)).
Proof.
  intros Hlo Hhi Hfresh.
  unfold cookie_maker_mac, cookie_timer_expired, bind, ret, uptime in *.
  cbn [rw_rlock rw_runlock lock_do getsbinuptime fst snd
       k_uptime k_reads cp_birthdate cp_cookie].
  rewrite secret_age_test
    by (change SBT_1S with 4294967296 in *;
        change COOKIE_SECRET_MAX_AGE with 120 in *;
        change COOKIE_SECRET_LATENCY with 5 in *; lia).
  rewrite (proj2 (Z.leb_le _ _) Hfresh). cbn [negb].
  change (0 =? 0) with true. cbv iota.
  rewrite cookie_macs_mac2_expected
    by (rewrite cookie_macs_mac1_expected; apply expected_mac1_length).
  rewrite cookie_macs_mac1_expected. reflexivity.
Qed.

(** What [cookie_checker_validate_macs] does to the rate limiters: nothing,
    or one call of [ratelimit_allow] on the limiter of the family. *)
Lemma cookie_checker_validate_macs_globals cc cm buf len busy sa g k :
  snd (fst (cookie_checker_validate_macs cc cm buf len busy sa g k)) = g \/
  (exists k2,
     sa_family sa = AF_INET /\
     snd (fst (cookie_checker_validate_macs cc cm buf len busy sa g k))
     = {| ratelimit_v4 := snd (fst (ratelimit_allow (ratelimit_v4 g) sa k2));
          ratelimit_v6 := ratelimit_v6 g |}) \/
  (exists k2,
     sa_family sa = AF_INET6 /\
     snd (fst (cookie_checker_validate_macs cc cm buf len busy sa g k))
     = {| ratelimit_v4 := ratelimit_v4 g;
          ratelimit_v6 := snd (fst (ratelimit_allow (ratelimit_v6 g) sa k2)) |}).
Proof.
  unfold cookie_checker_validate_macs, bind.
  cbn [rw_rlock rw_runlock lock_do].
  destruct (negb (timingsafe_bcmp _ (mac1 cm) _ =? 0)); [left; reflexivity |].
  destruct (negb (busy =? 0)); [| left; reflexivity].
  destruct (cookie_checker_make_cookie cc sa _) as [[cookie cc'] k2].
  destruct (negb (timingsafe_bcmp _ (mac2 cm) _ =? 0)); [left; reflexivity |].
  destruct (Z.eqb_spec (sa_family sa) AF_INET) as [F4 | F4].
  { right. left. exists k2. split; [exact F4 |].
    destruct (ratelimit_allow (ratelimit_v4 g) sa k2) as [[res rl'] k3].
    reflexivity. }
  destruct (Z.eqb_spec (sa_family sa) AF_INET6) as [F6 | F6];
    [| left; reflexivity].
  right. right. exists k2. split; [exact F6 |].
  destruct (ratelimit_allow (ratelimit_v6 g) sa k2) as [[res rl'] k3].
  reflexivity.
Qed.

(** A packet whose MAC1 is wrong, and any packet while the responder is not
    under load, costs one hash and nothing else:
    [cookie_checker_validate_macs] returns the checker and the rate limiters
    as they were, reads no clock, draws no randomness, allocates nothing, and
    takes the key lock for reading only. *)
Theorem cookie_checker_validate_macs_cheap cc cm buf len busy sa g k :
  length (mac1 cm) = COOKIE_MAC_SIZE ->
  expected_mac1 (cc_mac1_key cc) (take len buf) <> mac1 cm \/ busy = 0 ->
  let r := cookie_checker_validate_macs cc cm buf len busy sa g k in
  fst r
  = (if bool_decide (expected_mac1 (cc_mac1_key cc) (take len buf) <> mac1 cm)
     then EINVAL else 0, cc, g) /\
  k_reads (snd r) = k_reads k /\
  k_drawn (snd r) = k_drawn k /\
  k_allocs (snd r) = k_allocs k /\
  k_locks (snd r) = k_locks k ++ [RLock cc_key_lock; RUnlock cc_key_lock].
Proof.
  intros Hlen Hwhy r. subst r.
  unfold cookie_checker_validate_macs, bind.
  cbn [rw_rlock rw_runlock lock_do].
  rewrite cookie_macs_mac1_expected.
  rewrite (timingsafe_bcmp_differ _ (mac1 cm) COOKIE_MAC_SIZE
             (expected_mac1_length _ _) Hlen).
  destruct (decide (expected_mac1 (cc_mac1_key cc) (take len buf) = mac1 cm))
    as [Heq | Hne].
  - rewrite bool_decide_eq_false_2 by auto.
    destruct Hwhy as [Hne | ->]; [contradiction |].
    cbn [Z.eqb negb ret fst snd k_reads k_drawn k_allocs k_locks].
    rewrite <- app_assoc. repeat split.
  - rewrite bool_decide_eq_true_2 by assumption.
    cbn [ret fst snd k_reads k_drawn k_allocs k_locks].
    rewrite <- app_assoc. repeat split.
Qed.

(** Under load [cookie_checker_validate_macs] uses the rate limiter of the
    source's family only: the other one is returned as it was, both keep the
    invariant of [ratelimit_init], and the checker's two keys are never
    changed. *)
Theorem cookie_checker_validate_macs_limiters cc cm buf len busy sa g k :
  let r := fst (cookie_checker_validate_macs cc cm buf len busy sa g k) in
  (sa_family sa <> AF_INET -> ratelimit_v4 (snd r) = ratelimit_v4 g) /\
  (sa_family sa <> AF_INET6 -> ratelimit_v6 (snd r) = ratelimit_v6 g) /\
  (ratelimit_inv (ratelimit_v4 g) -> ratelimit_inv (ratelimit_v4 (snd r))) /\
  (ratelimit_inv (ratelimit_v6 g) -> ratelimit_inv (ratelimit_v6 (snd r))) /\
  cc_mac1_key (snd (fst r)) = cc_mac1_key cc /\
  cc_cookie_key (snd (fst r)) = cc_cookie_key cc.
Proof.
  intros r. subst r.
  assert (cc_mac1_key (snd (fst (fst
            (cookie_checker_validate_macs cc cm buf len busy sa g k))))
          = cc_mac1_key cc /\
          cc_cookie_key (snd (fst (fst
            (cookie_checker_validate_macs cc cm buf len busy sa g k))))
          = cc_cookie_key cc) as Hkeys.
  { unfold cookie_checker_validate_macs, bind.
    cbn [rw_rlock rw_runlock lock_do].
    destruct (negb (timingsafe_bcmp _ (mac1 cm) _ =? 0)); [split; reflexivity |].
    destruct (negb (busy =? 0)); [| split; reflexivity].
    match goal with
    | |- context [cookie_checker_make_cookie cc sa ?k1] =>
        assert (cc_mac1_key (snd (fst (cookie_checker_make_cookie cc sa k1)))
                = cc_mac1_key cc /\
                cc_cookie_key (snd (fst (cookie_checker_make_cookie cc sa k1)))
                = cc_cookie_key cc) as Hmk;
        [| destruct (cookie_checker_make_cookie cc sa k1) as [[cookie cc'] k2] ]
    end.
    { unfold cookie_checker_make_cookie, cookie_timer_expired, bind, ret.
      cbn [rw_wlock rw_wunlock lock_do getsbinuptime arc4random_buf
           k_uptime k_reads k_entropy k_drawn k_zalloc k_allocs k_locks].
      destruct (_ >? _);
        [change (ETIMEDOUT =? 0) with false | change (0 =? 0) with true];
        cbn [negb];
        destruct (sa_family sa =? AF_INET); try (split; reflexivity);
        destruct (sa_family sa =? AF_INET6); split; reflexivity. }
    cbn [fst snd] in Hmk.
    destruct (negb (timingsafe_bcmp _ (mac2 cm) _ =? 0)); [exact Hmk |].
    destruct (sa_family sa =? AF_INET).
    { destruct (ratelimit_allow (ratelimit_v4 g) sa k2) as [[res rl'] k3].
      exact Hmk. }
    destruct (sa_family sa =? AF_INET6); [| exact Hmk].
    destruct (ratelimit_allow (ratelimit_v6 g) sa k2) as [[res rl'] k3].
    exact Hmk. }
  destruct (cookie_checker_validate_macs_globals cc cm buf len busy sa g k)
    as [-> | [(k2 & F & ->) | (k2 & F & ->)]];
    cbn [ratelimit_v4 ratelimit_v6];
    (split; [intros Hne; try reflexivity; congruence |]);
    (split; [intros Hne; try reflexivity; congruence |]);
    (split; [intros Hinv; try assumption; apply ratelimit_allow_inv, Hinv |]);
    (split; [intros Hinv; try assumption; apply ratelimit_allow_inv, Hinv |]);
    exact Hkeys.
Qed.

(** A packet carrying the MACs of a maker that holds the checker's current
    cookie for the source address is neither invalid nor asked for a
    cookie under load: [cookie_checker_validate_macs] returns what
    [ratelimit_allow] says for the limiter of the family. The maker's cookie
    is at most SECRET_MAX_AGE - SECRET_LATENCY old when the packet is made,
    the checker's secret at most SECRET_MAX_AGE old when it is checked. *)
Theorem cookie_checker_validate_macs_cookie cc cp cm buf len busy sa g km k :
  cp_mac1_key cp = cc_mac1_key cc ->
  ratelimit_prefix sa <> None ->
  busy <> 0 ->
  cp_cookie cp = cookie_for (cc_secret cc) sa ->
  - 2 ^ 63 <= cp_birthdate cp ->
  cp_birthdate cp
  + (COOKIE_SECRET_MAX_AGE - COOKIE_SECRET_LATENCY) * SBT_1S < 2 ^ 63 ->
  uptime km - cp_birthdate cp
  <= (COOKIE_SECRET_MAX_AGE - COOKIE_SECRET_LATENCY) * SBT_1S ->
  - 2 ^ 63 <= cc_secret_birthdate cc + COOKIE_SECRET_MAX_AGE * SBT_1S < 2 ^ 63 ->
  uptime k - cc_secret_birthdate cc <= COOKIE_SECRET_MAX_AGE * SBT_1S ->
  let cm' := snd (fst (cookie_maker_mac cp cm buf len km)) in
  let k1 := after (run rw_rlock cc_key_lock in rw_runlock cc_key_lock) k in
  let k2 := snd (cookie_checker_make_cookie cc sa k1) in
  let r := fst (cookie_checker_validate_macs cc cm' buf len busy sa g k) in
  fst (fst r) = fst (fst (ratelimit_allow (limiter_of g sa) sa k2)) /\
  (fst (fst r) = 0 \/ fst (fst r) = ECONNREFUSED) /\
  snd (fst r) = cc.
Proof.
  intros Hkey Hfam Hbusy Hcookie Hlo Hhi Hfresh Hrange Hage cm' k1 k2 r.
  pose proof (cookie_maker_mac_mac1 cp cm buf len km) as Hm1.
  pose proof (cookie_maker_mac_fresh cp cm buf len km Hlo Hhi Hfresh) as Hm2.
  fold cm' in Hm1, Hm2. rewrite Hkey in Hm1, Hm2.
  pose proof (cookie_checker_make_cookie_checker cc sa k1 Hrange) as Hcc.
  pose proof (cookie_checker_make_cookie_cookie cc sa k1 Hrange Hfam) as Hck.
  change (uptime k1) with (uptime k) in Hcc.
  rewrite (proj2 (Z.leb_le _ _) Hage) in Hcc. rewrite Hcc in Hck.
  assert (fst r = (fst (fst (ratelimit_allow (limiter_of g sa) sa k2)), cc))
    as Hr.
  { subst r. unfold cookie_checker_validate_macs, bind.
    cbn [rw_rlock rw_runlock lock_do].
    rewrite cookie_macs_mac1_expected, Hm1, timingsafe_bcmp_refl.
    change (negb (0 =? 0)) with false. cbv iota.
    rewrite (proj2 (Z.eqb_neq busy 0) Hbusy). cbn [negb].
    change (cookie_checker_make_cookie cc sa _)
      with (cookie_checker_make_cookie cc sa k1).
    subst k2.
    destruct (cookie_checker_make_cookie cc sa k1) as [[cookie cc'] k2].
    cbn [fst snd] in Hcc, Hck. subst cc' cookie.
    rewrite cookie_macs_mac2_expected
      by (rewrite cookie_macs_mac1_expected; apply expected_mac1_length).
    rewrite cookie_macs_mac1_expected, Hm2, <- Hcookie, timingsafe_bcmp_refl.
    change (negb (0 =? 0)) with false. cbv iota.
    unfold limiter_of. unfold ratelimit_prefix in Hfam. cbn [snd].
    destruct (sa_family sa =? AF_INET).
    { destruct (ratelimit_allow (ratelimit_v4 g) sa k2) as [[res rl'] k3].
      reflexivity. }
    destruct (sa_family sa =? AF_INET6); [| congruence].
    destruct (ratelimit_allow (ratelimit_v6 g) sa k2) as [[res rl'] k3].
    reflexivity. }
  rewrite Hr. cbn [fst snd].
  split; [reflexivity |]. split; [apply ratelimit_allow_verdict | reflexivity].
Qed.

(** ** Locks *)

Lemma lock_run_app held ops ops' :
  lock_run held (ops ++ ops')
  = match lock_run held ops with
    | Some held' => lock_run held' ops'
    | None => None
    end.
Proof.
  revert held. induction ops as [| op ops IH]; intros held; simpl;
    [reflexivity |].
  destruct (lock_next held op); [apply IH | reflexivity].
Qed.

Lemma lock_paired_ret {A} (a : A) : lock_paired (ret a).
Proof. intros k. exists []. rewrite app_nil_r. split; reflexivity. Qed.

Lemma lock_paired_bind {A B} (m : Env A) (f : A -> Env B) :
  lock_paired m -> (forall a, lock_paired (f a)) -> lock_paired (bind m f).
Proof.
  intros Hm Hf k. unfold bind.
  destruct (Hm k) as (ops & Hops & Hrun).
  destruct (m k) as [a k1]. cbn [snd] in Hops.
  destruct (Hf a k1) as (ops' & Hops' & Hrun').
  exists (ops ++ ops'). rewrite Hops', Hops, app_assoc.
  split; [reflexivity |]. rewrite lock_run_app, Hrun. exact Hrun'.
Qed.

Lemma lock_paired_quiet {A} (m : Env A) :
  (forall k, k_locks (snd (m k)) = k_locks k) -> lock_paired m.
Proof.
  intros Hq k. exists []. rewrite Hq, app_nil_r. split; reflexivity.
Qed.

(** A section [lock; body; unlock] whose body takes no lock. *)
Lemma lock_paired_section {A B} (take give : lock_op) (body : Env A)
    (rest : A -> Env B) :
  lock_run None [take; give] = Some None ->
  (forall k, k_locks (snd (body k)) = k_locks k) ->
  (forall a, lock_paired (rest a)) ->
  lock_paired (bind (lock_do take) (fun _ =>
               bind body (fun a =>
               bind (lock_do give) (fun _ => rest a)))).
Proof.
  intros Hpair Hbody Hrest k. unfold bind. cbn [lock_do].
  match goal with
  | |- context [body ?k1] =>
      pose proof (Hbody k1) as Hb; destruct (body k1) as [a k2]
  end.
  cbn [snd k_locks] in Hb.
  match goal with
  | |- context [rest a ?k3] =>
      destruct (Hrest a k3) as (ops & Hops & Hrun)
  end.
  cbn [k_locks] in Hops.
  exists ([take; give] ++ ops). rewrite Hops, Hb, <- !app_assoc.
  split; [reflexivity |]. rewrite lock_run_app, Hpair. exact Hrun.
Qed.

Lemma ratelimit_gc_locks rl force k :
  k_locks (snd (ratelimit_gc rl force k)) = k_locks k.
Proof.
  unfold ratelimit_gc. destruct (rl_table_num rl =? 0); [reflexivity |].
  unfold bind. cbn [getsbinuptime].
  destruct (ratelimit_gc_table _ _ _ _ _). reflexivity.
Qed.

Lemma ratelimit_allow_locks rl sa k :
  k_locks (snd (ratelimit_allow rl sa k))
  = k_locks k ++ match ratelimit_slot rl sa with
                 | Some _ => [WLock rl_lock; WUnlock rl_lock]
                 | None => []
                 end.
Proof.
  destruct (ratelimit_slot rl sa) as [i |] eqn:Hslot;
    [| rewrite ratelimit_allow_unsupported, app_nil_r by assumption;
       reflexivity].
  destruct (ratelimit_scan sa (default [] (rl_table rl !! i)))
    as [[j r] |] eqn:Hscan.
  - pose proof (ratelimit_scan_nil_default _ _ _ _ Hscan) as Hb.
    rewrite (ratelimit_allow_hit rl sa k i _ j r Hslot Hb Hscan).
    unfold after, bind. cbn. rewrite <- app_assoc. reflexivity.
  - destruct (Z_lt_le_dec (rl_table_num rl) RATELIMIT_SIZE_MAX)
      as [Hroom | Hfull];
      [| rewrite (ratelimit_allow_full rl _ k i) by assumption;
         unfold after, bind; cbn; rewrite <- app_assoc; reflexivity].
    destruct (k_zalloc k (k_allocs k)) eqn:Hmem;
      [| rewrite (ratelimit_allow_nomem rl _ k i) by assumption;
         unfold after, bind; cbn; rewrite <- app_assoc; reflexivity].
    rewrite (ratelimit_allow_insert rl _ k i) by assumption.
    unfold after, bind. cbn. rewrite <- app_assoc. reflexivity.
Qed.

Lemma ratelimit_allow_paired rl sa : lock_paired (ratelimit_allow rl sa).
Proof.
  intros k. eexists. split; [apply ratelimit_allow_locks |].
  destruct (ratelimit_slot rl sa); reflexivity.
Qed.

Lemma cookie_checker_make_cookie_locks cc sa k :
  k_locks (snd (cookie_checker_make_cookie cc sa k))
  = k_locks k ++ [WLock cc_secret_lock; WUnlock cc_secret_lock].
Proof.
  unfold cookie_checker_make_cookie, cookie_timer_expired, bind, ret.
  cbn [rw_wlock rw_wunlock lock_do getsbinuptime arc4random_buf
       k_uptime k_reads k_entropy k_drawn k_zalloc k_allocs k_locks].
  destruct (_ >? _);
    [change (ETIMEDOUT =? 0) with false | change (0 =? 0) with true];
    cbn [negb];
    destruct (sa_family sa =? AF_INET);
    try (cbn [snd k_locks]; rewrite <- app_assoc; reflexivity);
    destruct (sa_family sa =? AF_INET6);
    cbn [snd k_locks]; rewrite <- app_assoc; reflexivity.
Qed.

Lemma cookie_checker_make_cookie_paired cc sa :
  lock_paired (cookie_checker_make_cookie cc sa).
Proof.
  intros k. eexists. split; [apply cookie_checker_make_cookie_locks |].
  reflexivity.
Qed.

Lemma ratelimit_init_quiet k : k_locks (snd (ratelimit_init k)) = k_locks k.
Proof.
  unfold ratelimit_init, hashinit_flags, bind, ret, alloc_nowait, arc4random_buf.
  cbv beta iota zeta.
  cbn [k_zalloc k_allocs k_uptime k_reads k_entropy k_drawn k_locks].
  destruct (k_zalloc k (k_allocs k)); reflexivity.
Qed.

Lemma ratelimit_deinit_paired rl : lock_paired (ratelimit_deinit rl).
Proof.
  unfold ratelimit_deinit.
  apply (lock_paired_section (WLock rl_lock) (WUnlock rl_lock)
           (ratelimit_gc (set_rl_gc rl false) true)
           (fun rl' => ret _)); [reflexivity | |].
  - intros k. apply ratelimit_gc_locks.
  - intros rl'. apply lock_paired_ret.
Qed.

(** Every function of the file that takes a lock gives it back before it
    returns and before it takes another, on each of its paths, the error
    paths included: its lock operations are matched pairs one after the
    other, so no lock is left held and no two are ever held together. *)
Theorem locks_are_paired cc cm buf len busy sa g cp nonce ecookie key rl :
  lock_paired (cookie_checker_validate_macs cc cm buf len busy sa g) /\
  lock_paired (cookie_checker_create_payload cc cm sa) /\
  lock_paired (cookie_checker_update cc key) /\
  lock_paired (cookie_maker_consume_payload cp nonce ecookie) /\
  lock_paired (cookie_maker_mac cp cm buf len) /\
  lock_paired (ratelimit_allow rl sa) /\
  lock_paired (ratelimit_gc_callout rl) /\
  lock_paired (ratelimit_deinit rl) /\
  lock_paired (cookie_deinit g) /\
  lock_paired cookie_init.
Proof.
  repeat match goal with |- _ /\ _ => split end.
  - unfold cookie_checker_validate_macs.
    apply (lock_paired_section (RLock cc_key_lock) (RUnlock cc_key_lock)
             (ret tt) (fun _ => _)); [reflexivity | reflexivity |].
    intros _.
    destruct (negb (timingsafe_bcmp _ _ _ =? 0)); [apply lock_paired_ret |].
    destruct (negb (busy =? 0)); [| apply lock_paired_ret].
    apply lock_paired_bind; [apply cookie_checker_make_cookie_paired |].
    intros [cookie cc'].
    destruct (negb (timingsafe_bcmp _ _ _ =? 0)); [apply lock_paired_ret |].
    destruct (sa_family sa =? AF_INET).
    { apply lock_paired_bind; [apply ratelimit_allow_paired |].
      intros [res v4]. apply lock_paired_ret. }
    destruct (sa_family sa =? AF_INET6); [| apply lock_paired_ret].
    apply lock_paired_bind; [apply ratelimit_allow_paired |].
    intros [res v6]. apply lock_paired_ret.
  - unfold cookie_checker_create_payload.
    apply lock_paired_bind; [apply cookie_checker_make_cookie_paired |].
    intros [cookie cc'].
    apply lock_paired_bind; [apply lock_paired_quiet; reflexivity |].
    intros nonce'.
    apply (lock_paired_section (RLock cc_key_lock) (RUnlock cc_key_lock)
             (ret tt) (fun _ => ret _)); [reflexivity | reflexivity |].
    intros _. apply lock_paired_ret.
  - unfold cookie_checker_update.
    apply (lock_paired_section (WLock cc_key_lock) (WUnlock cc_key_lock)
             (ret tt) (fun _ => ret _)); [reflexivity | reflexivity |].
    intros _. apply lock_paired_ret.
  - intros k. exists [WLock cp_lock; WUnlock cp_lock].
    split; [| reflexivity].
    unfold cookie_maker_consume_payload, bind, ret.
    destruct (cp_mac1_valid cp); cbn [negb];
      [destruct (xchacha20poly1305_decrypt _ _ _ _) |];
      cbn [rw_wlock rw_wunlock lock_do getsbinuptime snd k_locks];
      rewrite <- app_assoc; reflexivity.
  - intros k. exists [RLock cp_lock; RUnlock cp_lock].
    split; [| reflexivity].
    unfold cookie_maker_mac, cookie_timer_expired, bind, ret.
    cbn [rw_rlock rw_runlock lock_do getsbinuptime snd k_locks].
    rewrite <- app_assoc. reflexivity.
  - apply ratelimit_allow_paired.
  - unfold ratelimit_gc_callout.
    apply (lock_paired_section (WLock rl_lock) (WUnlock rl_lock)
             (ratelimit_gc (set_rl_gc rl false) false)
             (fun rl' => ret rl')); [reflexivity | |].
    + intros k. apply ratelimit_gc_locks.
    + intros rl'. apply lock_paired_ret.
  - apply ratelimit_deinit_paired.
  - unfold cookie_deinit.
    apply lock_paired_bind; [apply ratelimit_deinit_paired |]. intros v4.
    apply lock_paired_bind; [apply ratelimit_deinit_paired |]. intros v6.
    apply lock_paired_ret.
  - unfold cookie_init.
    apply lock_paired_bind;
      [apply lock_paired_quiet, ratelimit_init_quiet |].
    intros [res v4]. destruct (negb (res =? 0)); [apply lock_paired_ret |].
    apply lock_paired_bind;
      [apply lock_paired_quiet, ratelimit_init_quiet |].
    intros [res' v6]. destruct (negb (res' =? 0)); [| apply lock_paired_ret].
    apply lock_paired_bind; [apply ratelimit_deinit_paired |].
    intros _. apply lock_paired_ret.
Qed.

(** ** Garbage collection *)

Lemma ratelimit_gc_bucket_filter expiry force b num :
  fst (ratelimit_gc_bucket expiry force b num)
  = List.filter (gc_keeps expiry force) b.
Proof.
  revert num. induction b as [| r tr IH]; intros num; simpl; [reflexivity |].
  unfold gc_keeps at 1.
  destruct ((r_last_time r <? expiry) || force); cbn [negb].
  - apply IH.
  - specialize (IH num).
    destruct (ratelimit_gc_bucket expiry force tr num) as [b' num'].
    cbn [fst] in *. rewrite IH. reflexivity.
Qed.

Lemma ratelimit_gc_table_filter expiry force n tbl num :
  (length tbl <= n)%nat ->
  fst (ratelimit_gc_table expiry force n tbl num)
  = map (List.filter (gc_keeps expiry force)) tbl.
Proof.
  revert tbl num. induction n as [| n IH]; intros [| b tbl] num Hlen;
    simpl in *; try reflexivity; try lia.
  pose proof (ratelimit_gc_bucket_filter expiry force b num) as Hb.
  destruct (ratelimit_gc_bucket expiry force b num) as [b' num1].
  specialize (IH tbl num1 ltac:(lia)).
  destruct (ratelimit_gc_table expiry force n tbl num1) as [tbl' num2].
  cbn [fst] in *. rewrite Hb, IH. reflexivity.
Qed.

Lemma concat_empty_buckets {A} (p : A -> bool) (tbl : list (list A)) :
  length (concat tbl) = 0%nat -> map (List.filter p) tbl = tbl.
Proof.
  induction tbl as [| b tbl IH]; simpl; [reflexivity |].
  rewrite length_app. intros Hlen.
  destruct b; [| simpl in Hlen; lia]. rewrite IH by (simpl in Hlen; lia).
  reflexivity.
Qed.

(** The table and the counter [ratelimit_gc] leaves, the early return for an
    empty table included. *)
Lemma ratelimit_gc_table_after rl force k :
  ratelimit_inv rl ->
  let expiry := wrap_s64 (uptime k - ELEMENT_TIMEOUT * SBT_1S) in
  let rl' := fst (ratelimit_gc rl force k) in
  rl_table rl' = map (List.filter (gc_keeps expiry force)) (rl_table rl) /\
  rl_table_num rl' = ratelimit_entries rl' /\
  rl_secret rl' = rl_secret rl /\
  rl_table_mask rl' = rl_table_mask rl /\
  rl_gc rl' = (rl_gc rl || (rl_table_num rl' >? 0)).
Proof.
  intros Hinv expiry rl'.
  pose proof (ratelimit_gc_inv rl force k Hinv) as (_ & _ & Hnum' & _).
  fold rl' in Hnum'. split; [| split; [exact Hnum' |]].
  - subst rl'. destruct Hinv as (_ & Hlen & Hnum & _).
    unfold ratelimit_gc.
    destruct (Z.eqb_spec (rl_table_num rl) 0) as [Hz | Hnz].
    + cbn [ret fst]. symmetry. apply concat_empty_buckets.
      unfold ratelimit_entries in Hnum. lia.
    + unfold bind. cbn [getsbinuptime]. fold (uptime k). fold expiry.
      pose proof (ratelimit_gc_table_filter expiry force
                    (Z.to_nat RATELIMIT_SIZE) (rl_table rl) (rl_table_num rl)
                    ltac:(lia)) as Hf.
      destruct (ratelimit_gc_table _ _ _ _ _) as [tbl num].
      cbn [fst ret] in *. unfold ratelimit_gc_schedule.
      destruct (_ && _); cbn [set_rl_gc set_rl_table rl_table]; exact Hf.
  - subst rl'. unfold ratelimit_gc.
    destruct (Z.eqb_spec (rl_table_num rl) 0) as [Hz | Hnz].
    + cbn [ret fst]. rewrite Hz. cbn. rewrite orb_false_r. repeat split.
    + unfold bind. cbn [getsbinuptime].
      destruct (ratelimit_gc_table _ _ _ _ _) as [tbl num].
      cbn [fst ret]. unfold ratelimit_gc_schedule.
      cbn [set_rl_table rl_table_num rl_gc].
      destruct (num >? 0) eqn:E1, (rl_gc rl) eqn:E2; cbn;
        rewrite ?E1, ?E2; repeat split.
Qed.

Lemma ratelimit_scan_filter sa p b j r :
  ratelimit_scan sa b = Some (j, r) ->
  p r = true ->
  snd <$> ratelimit_scan sa (List.filter p b) = Some r.
Proof.
  revert j. induction b as [| r0 b IH]; intros j; simpl; [discriminate |].
  destruct (ratelimit_skip r0 sa) eqn:Hskip.
  - destruct (ratelimit_scan sa b) as [[j' r'] |]; [| discriminate].
    intros [= <- <-] Hp. specialize (IH j' eq_refl Hp).
    destruct (p r0); [| exact IH]. simpl. rewrite Hskip.
    destruct (ratelimit_scan sa (List.filter p b)) as [[? ?] |];
      [exact IH | discriminate].
  - intros [= <- <-] Hp. rewrite Hp. simpl. rewrite Hskip. reflexivity.
Qed.

Lemma ratelimit_scan_filter_kept sa p b j r :
  ratelimit_scan sa (List.filter p b) = Some (j, r) -> p r = true.
Proof.
  intros Hscan. destruct (ratelimit_scan_Some sa _ j r Hscan) as [Hj _].
  apply list_elem_of_lookup_2, list_elem_of_In, filter_In in Hj. apply Hj.
Qed.

Lemma ratelimit_find_fields rl rl' sa :
  rl_secret rl' = rl_secret rl ->
  rl_table_mask rl' = rl_table_mask rl ->
  ratelimit_slot rl' sa = ratelimit_slot rl sa.
Proof.
  intros Hs Hm. unfold ratelimit_slot, ratelimit_bucket. rewrite Hs, Hm.
  reflexivity.
Qed.

(** What the periodic sweep does. [ratelimit_gc] without force removes the
    entries whose last use is more than ELEMENT_TIMEOUT before now and keeps
    every other entry as it is: an address whose entry was used within the
    last second still finds it, tokens and all, and no entry found after the
    sweep is older. The counter is the number of entries left, and a GC is
    pending afterwards if one was before or if entries are left. *)
Theorem ratelimit_gc_sweep rl k sa :
  ratelimit_inv rl ->
  - 2 ^ 63 + SBT_1S <= uptime k < 2 ^ 63 ->
  let expiry := uptime k - ELEMENT_TIMEOUT * SBT_1S in
  let rl' := fst (ratelimit_gc rl false k) in
  rl_table rl'
  = map (List.filter (fun r => negb (r_last_time r <? expiry))) (rl_table rl) /\
  rl_table_num rl' = ratelimit_entries rl' /\
  rl_gc rl' = (rl_gc rl || (rl_table_num rl' >? 0)) /\
  (forall r, ratelimit_find rl sa = Some r -> expiry <= r_last_time r ->
             ratelimit_find rl' sa = Some r) /\
  (forall r, ratelimit_find rl' sa = Some r -> expiry <= r_last_time r).
Proof.
  intros Hinv Hclock expiry rl'.
  destruct (ratelimit_gc_table_after rl false k Hinv)
    as (Htbl & Hnum & Hsec & Hmask & Hgc).
  fold rl' in Htbl, Hnum, Hsec, Hmask, Hgc.
  rewrite wrap_s64_small in Htbl
    by (change ELEMENT_TIMEOUT with 1; change SBT_1S with 4294967296 in *; lia).
  fold expiry in Htbl.
  assert (forall r, gc_keeps expiry false r = negb (r_last_time r <? expiry))
    as Hkeep by (intros r; unfold gc_keeps; rewrite orb_false_r; reflexivity).
  pose proof (ratelimit_find_fields rl rl' sa Hsec Hmask) as Hslot.
  split; [| split; [exact Hnum | split; [exact Hgc | split]]].
  - rewrite Htbl. apply map_ext. intros b. apply filter_ext. exact Hkeep.
  - intros r Hfind Hfresh.
    destruct (ratelimit_find_Some rl sa r Hfind) as (i & b & j & Hs & Hb & Hscan).
    unfold ratelimit_find. rewrite Hslot, Hs, Htbl.
    rewrite list_lookup_fmap, Hb. cbn [fmap option_fmap option_map default id].
    apply (ratelimit_scan_filter sa _ b j r Hscan).
    rewrite Hkeep. apply negb_true_iff, Z.ltb_ge. exact Hfresh.
  - intros r Hfind.
    destruct (ratelimit_find_Some rl' sa r Hfind) as (i & b & j & Hs & Hb & Hscan).
    rewrite Htbl, list_lookup_fmap in Hb.
    destruct (rl_table rl !! i) as [b0 |]; [| discriminate].
    cbn in Hb. injection Hb as <-.
    apply ratelimit_scan_filter_kept in Hscan. rewrite Hkeep in Hscan.
    apply negb_true_iff, Z.ltb_ge in Hscan. exact Hscan.
Qed.

Lemma filter_none {A} (p : A -> bool) (l : list A) :
  (forall x, In x l -> p x = false) -> List.filter p l = [].
Proof.
  induction l as [| x l IH]; intros Hp; simpl; [reflexivity |].
  rewrite (Hp x) by (left; reflexivity).
  apply IH. intros y Hy. apply Hp. right. exact Hy.
Qed.

Lemma concat_map_filter_none {A} (p : A -> bool) (tbl : list (list A)) :
  (forall b x, In b tbl -> In x b -> p x = false) ->
  concat (map (List.filter p) tbl) = [].
Proof.
  induction tbl as [| b tbl IH]; intros Hp; simpl; [reflexivity |].
  rewrite (filter_none p b) by (intros x Hx; apply (Hp b x); [left |]; auto).
  apply IH. intros b' x Hb' Hx. apply (Hp b' x); [right |]; auto.
Qed.

Lemma ratelimit_find_empty rl sa :
  concat (rl_table rl) = [] -> ratelimit_find rl sa = None.
Proof.
  intros Hempty. unfold ratelimit_find.
  destruct (ratelimit_slot rl sa) as [i |]; [| reflexivity].
  destruct (rl_table rl !! i) as [b |] eqn:Hb; [| reflexivity].
  cbn [default id].
  destruct b as [| r b]; [reflexivity |].
  apply list_elem_of_lookup_2, list_elem_of_In, in_split in Hb.
  destruct Hb as (t1 & t2 & Ht). rewrite Ht, concat_app in Hempty.
  simpl in Hempty. apply app_eq_nil in Hempty. destruct Hempty as [_ Hempty].
  discriminate.
Qed.

(** When no address has been seen for more than ELEMENT_TIMEOUT, the GC
    callout empties the table: no entry is left, the counter is 0, no address
    finds an entry, and no further GC is scheduled. *)
Theorem ratelimit_gc_callout_idle rl k sa :
  ratelimit_inv rl ->
  - 2 ^ 63 + SBT_1S <= uptime k < 2 ^ 63 ->
  (forall b r, In b (rl_table rl) -> In r b ->
               r_last_time r < uptime k - ELEMENT_TIMEOUT * SBT_1S) ->
  let rl' := fst (ratelimit_gc_callout rl k) in
  ratelimit_entries rl' = 0 /\
  rl_table_num rl' = 0 /\
  rl_gc rl' = false /\
  ratelimit_find rl' sa = None.
Proof.
  intros Hinv Hclock Hidle rl'.
  assert (rl' = fst (ratelimit_gc (set_rl_gc rl false) false
                       (after (rw_wlock rl_lock) k))) as Hrl'.
  { subst rl'. unfold ratelimit_gc_callout, bind, after.
    cbn [rw_wlock rw_wunlock lock_do snd].
    destruct (ratelimit_gc _ _ _) as [rl1 k1]. reflexivity. }
  destruct (ratelimit_gc_table_after (set_rl_gc rl false) false
              (after (rw_wlock rl_lock) k) Hinv)
    as (Htbl & Hnum & _ & _ & Hgc).
  rewrite <- Hrl' in Htbl, Hnum, Hgc.
  change (uptime (after (rw_wlock rl_lock) k)) with (uptime k) in Htbl.
  rewrite wrap_s64_small in Htbl
    by (change ELEMENT_TIMEOUT with 1; change SBT_1S with 4294967296 in *; lia).
  cbn [set_rl_gc rl_table rl_gc] in Htbl, Hgc.
  assert (concat (rl_table rl') = []) as Hempty.
  { rewrite Htbl. apply concat_map_filter_none. intros b r Hb Hr.
    unfold gc_keeps. rewrite orb_false_r.
    apply negb_false_iff, Z.ltb_lt. apply (Hidle b r Hb Hr). }
  assert (ratelimit_entries rl' = 0) as Hent
    by (unfold ratelimit_entries; rewrite Hempty; reflexivity).
  rewrite Hent in Hnum. rewrite Hnum in Hgc.
  repeat split; try assumption.
  apply ratelimit_find_empty, Hempty.
Qed.

(** [ratelimit_deinit] leaves nothing behind: whatever the age of the
    entries, the forced sweep removes them all, the counter is 0, the
    callout is stopped and not scheduled again, and the table is gone. *)
Theorem ratelimit_deinit_empties rl k :
  ratelimit_inv rl ->
  let rl' := fst (ratelimit_deinit rl k) in
  let swept := fst (ratelimit_gc (set_rl_gc rl false) true
                      (after (rw_wlock rl_lock) k)) in
  ratelimit_entries swept = 0 /\
  rl_table rl' = [] /\
  rl_table_num rl' = 0 /\
  rl_gc rl' = false.
Proof.
  intros Hinv rl' swept.
  assert (rl' = {| rl_secret := rl_secret swept; rl_gc := rl_gc swept;
                   rl_table := []; rl_table_mask := rl_table_mask swept;
                   rl_table_num := rl_table_num swept |}) as Hrl'.
  { subst rl' swept. unfold ratelimit_deinit, bind, after.
    cbn [rw_wlock rw_wunlock lock_do snd].
    destruct (ratelimit_gc _ _ _) as [rl1 k1]. reflexivity. }
  destruct (ratelimit_gc_table_after (set_rl_gc rl false) true
              (after (rw_wlock rl_lock) k) Hinv)
    as (Htbl & Hnum & _ & _ & Hgc).
  fold swept in Htbl, Hnum, Hgc.
  cbn [set_rl_gc rl_table rl_gc] in Htbl, Hgc.
  assert (ratelimit_entries swept = 0) as Hent.
  { unfold ratelimit_entries. rewrite Htbl, concat_map_filter_none;
      [reflexivity |].
    intros b r _ _. unfold gc_keeps. rewrite orb_true_r. reflexivity. }
  rewrite Hent in Hnum. rewrite Hnum in Hgc.
  rewrite Hrl'. cbn [rl_table rl_table_num rl_gc].
  repeat split; assumption.
Qed.

(** ** The callout is armed while entries exist *)

Lemma ratelimit_gc_schedule_armed rl : gc_armed (ratelimit_gc_schedule rl).
Proof.
  unfold gc_armed, ratelimit_gc_schedule.
  destruct (Z.gtb_spec (rl_table_num rl) 0) as [Hpos | Hzero];
    destruct (rl_gc rl) eqn:Hgc; cbn; intros Hnum; auto; lia.
Qed.

Lemma ratelimit_allow_armed rl sa k :
  gc_armed rl -> gc_armed (snd (fst (ratelimit_allow rl sa k))).
Proof.
  intros Harmed.
  destruct (ratelimit_slot rl sa) as [i |] eqn:Hslot;
    [| rewrite ratelimit_allow_unsupported by assumption; exact Harmed].
  destruct (ratelimit_scan sa (default [] (rl_table rl !! i)))
    as [[j r] |] eqn:Hscan.
  - pose proof (ratelimit_scan_nil_default _ _ _ _ Hscan) as Hb.
    rewrite (ratelimit_allow_hit rl sa k i _ j r Hslot Hb Hscan).
    exact Harmed.
  - destruct (Z_lt_le_dec (rl_table_num rl) RATELIMIT_SIZE_MAX)
      as [Hroom | Hfull];
      [| rewrite (ratelimit_allow_full rl _ k i) by assumption; exact Harmed].
    destruct (k_zalloc k (k_allocs k)) eqn:Hmem;
      [| rewrite (ratelimit_allow_nomem rl _ k i) by assumption; exact Harmed].
    rewrite (ratelimit_allow_insert rl _ k i) by assumption.
    apply ratelimit_gc_schedule_armed.
Qed.

Lemma ratelimit_gc_callout_armed rl k :
  gc_armed (fst (ratelimit_gc_callout rl k)).
Proof.
  unfold ratelimit_gc_callout, bind. cbn [rw_wlock rw_wunlock lock_do].
  match goal with
  | |- context [ratelimit_gc ?r ?f ?k1] =>
      assert (gc_armed (fst (ratelimit_gc r f k1))) as Hgc;
      [| destruct (ratelimit_gc r f k1) as [rl1 k2]; exact Hgc]
  end.
  unfold ratelimit_gc. cbn [set_rl_gc rl_table_num].
  destruct (Z.eqb_spec (rl_table_num rl) 0) as [Hz | Hnz].
  - cbn [ret fst]. unfold gc_armed. cbn [set_rl_gc rl_table_num]. lia.
  - unfold bind. cbn [getsbinuptime].
    destruct (ratelimit_gc_table _ _ _ _ _) as [tbl num].
    cbn [ret fst]. apply ratelimit_gc_schedule_armed.
Qed.

Lemma ratelimit_run_armed evs rl k :
  gc_armed rl -> gc_armed (fst (ratelimit_run evs rl k)).
Proof.
  revert rl k. induction evs as [| [sa |] evs IH]; intros rl k Harmed; simpl.
  - exact Harmed.
  - unfold bind.
    pose proof (ratelimit_allow_armed rl sa k Harmed) as Hstep.
    destruct (ratelimit_allow rl sa k) as [[res rl'] k']. apply IH, Hstep.
  - unfold bind.
    pose proof (ratelimit_gc_callout_armed rl k) as Hstep.
    destruct (ratelimit_gc_callout rl k) as [rl' k']. apply IH, Hstep.
Qed.

(** No entry is left to linger. After a successful [ratelimit_init], over
    every sequence of [ratelimit_allow] calls and GC callouts, a GC is
    pending whenever the table holds an entry: an insertion schedules one,
    and a sweep that leaves entries schedules the next. *)
Theorem ratelimit_gc_always_armed k rl0 k0 evs :
  ratelimit_init k = (0, rl0, k0) ->
  let rl := fst (ratelimit_run evs rl0 k0) in
  0 < ratelimit_entries rl -> rl_gc rl = true.
Proof.
  intros Hinit rl Hpos.
  pose proof (ratelimit_run_inv evs rl0 k0 (ratelimit_init_inv k rl0 k0 Hinit))
    as (_ & _ & Hnum & _).
  fold rl in Hnum.
  assert (gc_armed rl0) as Harmed0.
  { pose proof (ratelimit_init_inv k rl0 k0 Hinit) as (_ & Hlen & Hnum0 & _).
    unfold gc_armed. intros Hpos0.
    revert Hinit Hpos0.
    unfold ratelimit_init, hashinit_flags, bind, ret, alloc_nowait,
      arc4random_buf.
    cbv beta iota zeta.
    cbn [k_zalloc k_allocs k_uptime k_reads k_entropy k_drawn k_locks].
    destruct (k_zalloc k (k_allocs k)); [| discriminate].
    intros Heq. apply (f_equal (fun x => snd (fst x))) in Heq.
    cbn [fst snd] in Heq. subst rl0. cbn [rl_table_num]. lia. }
  apply (ratelimit_run_armed evs rl0 k0 Harmed0). fold rl. lia.
Qed.

(** ** Start-up *)

Lemma ratelimit_init_result k :
  fst (ratelimit_init k)
  = if k_zalloc k (k_allocs k)
    then (0, {| rl_secret := map (k_entropy k)
                               (seq (k_drawn k) SIPHASH_KEY_LENGTH);
                rl_gc := false;
                rl_table := replicate (Z.to_nat RATELIMIT_SIZE) [];
                rl_table_mask := RATELIMIT_SIZE - 1;
                rl_table_num := 0 |})
    else (ENOBUFS, {| rl_secret := map (k_entropy k)
                                     (seq (k_drawn k) SIPHASH_KEY_LENGTH);
                      rl_gc := false; rl_table := [];
                      rl_table_mask := 0; rl_table_num := 0 |}).
Proof.
  unfold ratelimit_init, hashinit_flags, bind, ret, alloc_nowait,
    arc4random_buf.
  cbv beta iota zeta.
  cbn [k_zalloc k_allocs k_uptime k_reads k_entropy k_drawn k_locks].
  destruct (k_zalloc k (k_allocs k)); reflexivity.
Qed.

Lemma ratelimit_init_kernel k :
  snd (ratelimit_init k)
  = {| k_uptime := k_uptime k; k_reads := k_reads k;
       k_entropy := k_entropy k;
       k_drawn := (k_drawn k + SIPHASH_KEY_LENGTH)%nat;
       k_zalloc := k_zalloc k; k_allocs := S (k_allocs k);
       k_locks := k_locks k |}.
Proof.
  unfold ratelimit_init, hashinit_flags, bind, ret, alloc_nowait,
    arc4random_buf.
  cbv beta iota zeta.
  cbn [k_zalloc k_allocs k_uptime k_reads k_entropy k_drawn k_locks].
  destruct (k_zalloc k (k_allocs k)); reflexivity.
Qed.

(** [cookie_init] succeeds exactly when both hash tables can be allocated.
    It then returns 0 and two empty rate limiters, each with 8192 buckets,
    no GC pending, and its own 16 bytes of randomness as SipHash key. If
    either allocation fails it returns ENOBUFS and no rate limiters. *)
Theorem cookie_init_result k :
  let res := fst (fst (cookie_init k)) in
  let made := snd (fst (cookie_init k)) in
  if k_zalloc k (k_allocs k) && k_zalloc k (S (k_allocs k))
  then
    res = 0 /\
    exists g, made = Some g /\
      ratelimit_inv (ratelimit_v4 g) /\ ratelimit_inv (ratelimit_v6 g) /\
      ratelimit_entries (ratelimit_v4 g) = 0 /\
      ratelimit_entries (ratelimit_v6 g) = 0 /\
      rl_gc (ratelimit_v4 g) = false /\ rl_gc (ratelimit_v6 g) = false /\
      rl_secret (ratelimit_v4 g)
      = map (k_entropy k) (seq (k_drawn k) SIPHASH_KEY_LENGTH) /\
      rl_secret (ratelimit_v6 g)
      = map (k_entropy k)
          (seq (k_drawn k + SIPHASH_KEY_LENGTH) SIPHASH_KEY_LENGTH)
  else res = ENOBUFS /\ made = None.
Proof.
  intros res made. subst res made.
  unfold cookie_init, bind.
  pose proof (ratelimit_init_result k) as Hr1.
  pose proof (ratelimit_init_kernel k) as Hk1.
  destruct (ratelimit_init k) as [[res1 v4] k1]. cbn [fst snd] in Hr1, Hk1.
  destruct (k_zalloc k (k_allocs k)) eqn:Hm1; cbn [andb];
    apply pair_equal_spec in Hr1; destruct Hr1 as [-> ->];
    [| change (negb (ENOBUFS =? 0)) with true; cbv beta iota;
       cbn [ret fst snd]; split; reflexivity].
  change (negb (0 =? 0)) with false. cbv beta iota.
  pose proof (ratelimit_init_result k1) as Hr2.
  destruct (ratelimit_init k1) as [[res2 v6] k2]. cbn [fst snd] in Hr2.
  rewrite Hk1 in Hr2. cbn [k_zalloc k_allocs k_entropy k_drawn] in Hr2.
  destruct (k_zalloc k (S (k_allocs k))) eqn:Hm2;
    apply pair_equal_spec in Hr2; destruct Hr2 as [-> ->].
  - change (negb (0 =? 0)) with false. cbv beta iota. cbn [ret fst snd].
    split; [reflexivity |].
    eexists. split; [reflexivity |]. cbn [ratelimit_v4 ratelimit_v6].
    assert (forall s, ratelimit_inv
              {| rl_secret := s; rl_gc := false;
                 rl_table := replicate (Z.to_nat RATELIMIT_SIZE) [];
                 rl_table_mask := RATELIMIT_SIZE - 1; rl_table_num := 0 |}
              /\ ratelimit_entries
                   {| rl_secret := s; rl_gc := false;
                      rl_table := replicate (Z.to_nat RATELIMIT_SIZE) [];
                      rl_table_mask := RATELIMIT_SIZE - 1;
                      rl_table_num := 0 |} = 0) as Hfresh.
    { intros s. unfold ratelimit_inv, ratelimit_entries.
      cbn [rl_table_mask rl_table rl_table_num].
      rewrite concat_replicate_nil, length_replicate.
      split; [| reflexivity].
      split; [reflexivity |]. split; [reflexivity |]. split; [reflexivity |].
      split; [discriminate |]. apply Forall_replicate. constructor. }
    repeat split; try apply Hfresh.
  - change (negb (ENOBUFS =? 0)) with true. cbv beta iota.
    destruct (ratelimit_deinit _ _) as [v4' k3].
    cbn [ret fst snd]. split; reflexivity.
Qed.

(** ** The rate of one prefix *)

Lemma charge_accounts r now :
  0 <= r_tokens r <= TOKEN_MAX ->
  r_last_time r <= now < r_last_time r + 2 ^ 63 ->
  r_tokens (charge r now)
  + (if replenish r now >=? INITIATION_COST then INITIATION_COST else 0)
  = Z.min (r_tokens r + (now - r_last_time r)) TOKEN_MAX.
Proof.
  intros Htok Hclock. unfold charge. cbn [r_tokens].
  rewrite (replenish_forward r now Htok Hclock).
  destruct (_ >=? INITIATION_COST); lia.
Qed.

(** The token bucket bounds the rate. Over any run of calls for one address
    that has an entry, under a clock that does not go backward, every allowed
    call is paid for: cost times the number of calls allowed, plus the tokens
    left at the end, is at most the tokens held at the start plus the time
    elapsed. Hence at most INITIATIONS_BURSTABLE + elapsed / cost calls are
    allowed, 5 plus 20 per second. *)
Theorem ratelimit_burst_bounded n : forall rl sa k r,
  ratelimit_find rl sa = Some r ->
  0 <= r_tokens r <= TOKEN_MAX ->
  0 <= r_last_time r ->
  ((0 < n)%nat -> r_last_time r <= k_uptime k (k_reads k)) ->
  (forall j, (S j < n)%nat ->
     k_uptime k (k_reads k + j)%nat <= k_uptime k (k_reads k + S j)%nat) ->
  (forall j, (j < n)%nat -> k_uptime k (k_reads k + j)%nat < 2 ^ 63) ->
  let verdicts := fst (fst (ratelimit_burst n rl sa k)) in
  let rl' := snd (fst (ratelimit_burst n rl sa k)) in
  exists r',
    ratelimit_find rl' sa = Some r' /\
    r_last_time r <= r_last_time r' /\
    0 <= r_tokens r' /\
    allowed verdicts * INITIATION_COST + r_tokens r'
    <= r_tokens r + (r_last_time r' - r_last_time r) /\
    allowed verdicts * INITIATION_COST
    <= TOKEN_MAX + (r_last_time r' - r_last_time r).
Proof.
  induction n as [| n IH];
    intros rl sa k r Hfind Htok Hpos Hlast Hmono Hbound verdicts rl'.
  - exists r. subst verdicts rl'. cbn. repeat split; try assumption; lia.
  - subst verdicts rl'.
    destruct (ratelimit_allow_found rl sa k r Hfind)
      as (Hres & Hfind1 & _ & Hup & Hreads).
    specialize (Hlast ltac:(lia)).
    assert (k_uptime k (k_reads k) < 2 ^ 63) as Hnow.
    { pose proof (Hbound 0%nat ltac:(lia)) as Hc.
      rewrite Nat.add_0_r in Hc. exact Hc. }
    fold (uptime k) in Hlast, Hnow.
    pose proof (charge_accounts r (uptime k) Htok ltac:(lia)) as Hacc.
    pose proof (charge_ok r (uptime k)) as Hok1.
    rewrite ratelimit_burst_S.
    destruct (ratelimit_allow rl sa k) as [[res rl1] k1].
    cbn [fst snd] in Hres, Hfind1, Hup, Hreads.
    destruct (IH rl1 sa k1 (charge r (uptime k)) Hfind1 Hok1)
      as (r' & Hfind' & Hlast' & Htok' & Hsum & _).
    { cbn [charge r_last_time]. lia. }
    { intros Hn. cbn [charge r_last_time]. rewrite Hup, Hreads.
      pose proof (Hmono 0%nat ltac:(lia)) as Hc.
      rewrite Nat.add_0_r, Nat.add_1_r in Hc. exact Hc. }
    { intros j Hj. rewrite Hup, Hreads.
      replace (S (k_reads k) + j)%nat with (k_reads k + S j)%nat by lia.
      replace (S (k_reads k) + S j)%nat with (k_reads k + S (S j))%nat by lia.
      apply Hmono. lia. }
    { intros j Hj. rewrite Hup, Hreads.
      replace (S (k_reads k) + j)%nat with (k_reads k + S j)%nat by lia.
      apply Hbound. lia. }
    destruct (ratelimit_burst n rl1 sa k1) as [[rest rl2] k2].
    cbn [fst snd] in *. exists r'.
    change (r_last_time (charge r (uptime k))) with (uptime k) in Hlast', Hsum.
    assert (allowed (res :: rest) * INITIATION_COST + r_tokens r'
            <= r_tokens r + (r_last_time r' - r_last_time r)) as Hle.
    { cbn [allowed]. rewrite Hres.
      destruct (replenish r (uptime k) >=? INITIATION_COST);
        [change (0 =? 0) with true | change (ECONNREFUSED =? 0) with false];
        cbv iota;
        pose proof (Z.le_min_l (r_tokens r + (uptime k - r_last_time r))
                      TOKEN_MAX);
        rewrite ?Z.mul_add_distr_r, ?Z.mul_1_l, ?Z.mul_0_l; lia. }
    repeat split; try assumption; lia.
Qed.

(** A source that keeps to the rate is never refused. When every call for an
    address that has an entry comes at least cost ticks (1/20 s) after the
    one before, all of them return 0, however many there are. *)
Theorem ratelimit_steady_rate n : forall rl sa k r,
  ratelimit_find rl sa = Some r ->
  0 <= r_tokens r <= TOKEN_MAX ->
  0 <= r_last_time r ->
  ((0 < n)%nat -> r_last_time r + INITIATION_COST <= k_uptime k (k_reads k)) ->
  (forall j, (S j < n)%nat ->
     k_uptime k (k_reads k + j)%nat + INITIATION_COST
     <= k_uptime k (k_reads k + S j)%nat) ->
  (forall j, (j < n)%nat -> k_uptime k (k_reads k + j)%nat < 2 ^ 63) ->
  fst (fst (ratelimit_burst n rl sa k)) = replicate n 0.
Proof.
  induction n as [| n IH];
    intros rl sa k r Hfind Htok Hpos Hgap Hmono Hbound; [reflexivity |].
  destruct (ratelimit_allow_found rl sa k r Hfind)
    as (Hres & Hfind1 & _ & Hup & Hreads).
  specialize (Hgap ltac:(lia)).
  assert (k_uptime k (k_reads k) < 2 ^ 63) as Hnow.
  { pose proof (Hbound 0%nat ltac:(lia)) as Hc.
    rewrite Nat.add_0_r in Hc. exact Hc. }
  fold (uptime k) in Hgap, Hnow.
  rewrite INITIATION_COST_val in Hgap.
  pose proof (replenish_forward r (uptime k) Htok ltac:(lia)) as Hrep.
  assert ((replenish r (uptime k) >=? INITIATION_COST) = true) as Hge.
  { apply Z.geb_le. rewrite Hrep, INITIATION_COST_val, TOKEN_MAX_val in *. lia. }
  rewrite Hge in Hres.
  pose proof (charge_ok r (uptime k)) as Hok1.
  rewrite ratelimit_burst_S.
  destruct (ratelimit_allow rl sa k) as [[res rl1] k1].
  cbn [fst snd] in Hres, Hfind1, Hup, Hreads.
  pose proof (IH rl1 sa k1 (charge r (uptime k)) Hfind1 Hok1) as Hrest.
  cbn [charge r_last_time] in Hrest.
  specialize (Hrest ltac:(lia)).
  assert ((0 < n)%nat ->
          uptime k + INITIATION_COST <= k_uptime k1 (k_reads k1)) as Hgap1.
  { intros Hn. rewrite Hup, Hreads.
    pose proof (Hmono 0%nat ltac:(lia)) as Hc.
    rewrite Nat.add_0_r, Nat.add_1_r in Hc. exact Hc. }
  assert (forall j, (S j < n)%nat ->
            k_uptime k1 (k_reads k1 + j)%nat + INITIATION_COST
            <= k_uptime k1 (k_reads k1 + S j)%nat) as Hmono1.
  { intros j Hj. rewrite Hup, Hreads.
    replace (S (k_reads k) + j)%nat with (k_reads k + S j)%nat by lia.
    replace (S (k_reads k) + S j)%nat with (k_reads k + S (S j))%nat by lia.
    apply Hmono. lia. }
  assert (forall j, (j < n)%nat ->
            k_uptime k1 (k_reads k1 + j)%nat < 2 ^ 63) as Hbound1.
  { intros j Hj. rewrite Hup, Hreads.
    replace (S (k_reads k) + j)%nat with (k_reads k + S j)%nat by lia.
    apply Hbound. lia. }
  specialize (Hrest Hgap1 Hmono1 Hbound1).
  destruct (ratelimit_burst n rl1 sa k1) as [[rest rl2] k2].
  cbn [fst snd] in *. rewrite Hres, Hrest. reflexivity.
Qed.

(** ** Ports *)

(** The rate limiter does not look at the port. Two IPv4 socket addresses
    with the same 4 address bytes, whatever their ports, find the same entry
    and get the same verdict and state from [ratelimit_allow]. *)
Theorem ratelimit_ignores_port rl k sa sa' :
  sa_family sa = AF_INET -> sa_family sa' = AF_INET ->
  take 4 (sa_addr sa) = take 4 (sa_addr sa') ->
  ratelimit_find rl sa = ratelimit_find rl sa' /\
  ratelimit_allow rl sa k = ratelimit_allow rl sa' k.
Proof.
  intros F F' Haddr. change 4%nat with IPV4_MASK_SIZE in Haddr.
  assert (forall r, ratelimit_skip r sa = ratelimit_skip r sa') as Hskip.
  { intros r. unfold ratelimit_skip, bcmp. rewrite F, F', Haddr.
    destruct (Z.eqb_spec (r_af r) AF_INET) as [-> | Hne]; reflexivity. }
  assert (ratelimit_slot rl sa = ratelimit_slot rl sa') as Hslot.
  { unfold ratelimit_slot, ratelimit_prefix, siphash13. rewrite F, F'.
    change (AF_INET =? AF_INET) with true. cbv iota. rewrite Haddr.
    reflexivity. }
  split.
  - unfold ratelimit_find. rewrite Hslot.
    destruct (ratelimit_slot rl sa'); [| reflexivity].
    rewrite (ratelimit_scan_ext sa sa' _ Hskip). reflexivity.
  - apply ratelimit_allow_same_prefix; [exact Hslot | exact Hskip |].
    intros now. unfold ratelimit_new. rewrite F, F'.
    change (AF_INET =? AF_INET) with true. cbv iota. rewrite Haddr.
    reflexivity.
Qed.

(** ** Tokens never exceed the cap *)

(** Whatever the clock does, backward steps and wrap-around included: after a
    successful [ratelimit_init] and any sequence of [ratelimit_allow] calls
    and GC callouts, the entry an address finds holds between 0 and
    TOKEN_MAX tokens. *)
Theorem ratelimit_tokens_capped k rl0 k0 evs sa r :
  ratelimit_init k = (0, rl0, k0) ->
  ratelimit_find (fst (ratelimit_run evs rl0 k0)) sa = Some r ->
  0 <= r_tokens r <= INITIATION_COST * INITIATIONS_BURSTABLE.
Proof.
  intros Hinit Hfind.
  apply (ratelimit_find_ok (fst (ratelimit_run evs rl0 k0)) sa r);
    [| exact Hfind].
  apply ratelimit_run_inv, (ratelimit_init_inv k rl0 k0 Hinit).
Qed.

(** ** One entry per prefix, in the bucket of its hash *)

Lemma ratelimit_skip_false_key r sa n :
  ratelimit_prefix sa = Some n ->
  ratelimit_skip r sa = false ->
  r_af r = sa_family sa /\ take n (r_addr r) = take n (sa_addr sa).
Proof.
  unfold ratelimit_prefix, ratelimit_skip, bcmp.
  destruct (Z.eqb_spec (r_af r) (sa_family sa)) as [Haf | Haf];
    [| discriminate]. rewrite Haf. cbn [negb].
  destruct (Z.eqb_spec (sa_family sa) AF_INET) as [F4 | F4].
  - intros [= <-]. cbn [andb].
    destruct (decide (take IPV4_MASK_SIZE (r_addr r)
                      = take IPV4_MASK_SIZE (sa_addr sa))) as [Heq | Hne];
      [intros _; split; [reflexivity | exact Heq] |].
    rewrite bool_decide_eq_false_2 by assumption. discriminate.
  - cbn [andb].
    destruct (Z.eqb_spec (sa_family sa) AF_INET6) as [F6 | F6];
      [| discriminate].
    intros [= <-]. cbn [andb].
    destruct (decide (take IPV6_MASK_SIZE (r_addr r)
                      = take IPV6_MASK_SIZE (sa_addr sa))) as [Heq | Hne];
      [intros _; split; [reflexivity | exact Heq] |].
    rewrite bool_decide_eq_false_2 by assumption. discriminate.
Qed.

Lemma ratelimit_key_skip_false r sa n :
  ratelimit_prefix sa = Some n ->
  r_af r = sa_family sa ->
  take n (r_addr r) = take n (sa_addr sa) ->
  ratelimit_skip r sa = false.
Proof.
  unfold ratelimit_prefix, ratelimit_skip, bcmp. intros Hn Haf Hpre.
  rewrite Haf, Z.eqb_refl. cbn [negb].
  destruct (Z.eqb_spec (sa_family sa) AF_INET) as [F4 | F4].
  - injection Hn as <-. rewrite Hpre.
    rewrite bool_decide_eq_true_2 by reflexivity. cbn.
    rewrite F4. reflexivity.
  - cbn [andb].
    destruct (Z.eqb_spec (sa_family sa) AF_INET6) as [F6 | F6];
      [| discriminate].
    injection Hn as <-. rewrite Hpre.
    rewrite bool_decide_eq_true_2 by reflexivity. reflexivity.
Qed.

Lemma ratelimit_prefix_family sa sa' :
  sa_family sa = sa_family sa' -> ratelimit_prefix sa = ratelimit_prefix sa'.
Proof. unfold ratelimit_prefix. intros ->. reflexivity. Qed.

Lemma ratelimit_slot_prefix rl sa sa' n :
  sa_family sa = sa_family sa' ->
  ratelimit_prefix sa = Some n ->
  take n (sa_addr sa) = take n (sa_addr sa') ->
  ratelimit_slot rl sa = ratelimit_slot rl sa'.
Proof.
  intros Hfam Hn Hpre. unfold ratelimit_slot, siphash13.
  rewrite <- (ratelimit_prefix_family sa sa' Hfam), Hn, Hpre. reflexivity.
Qed.

Lemma ratelimit_new_key sa now n :
  ratelimit_prefix sa = Some n ->
  r_af (ratelimit_new sa now) = sa_family sa /\
  r_addr (ratelimit_new sa now) = take n (sa_addr sa).
Proof.
  unfold ratelimit_prefix, ratelimit_new. cbn [r_af r_addr].
  destruct (sa_family sa =? AF_INET); [intros [= <-]; auto |].
  destruct (sa_family sa =? AF_INET6); [intros [= <-]; auto | discriminate].
Qed.

Lemma ratelimit_scan_None sa b r :
  ratelimit_scan sa b = None -> In r b -> ratelimit_skip r sa = true.
Proof.
  induction b as [| r0 b IH]; simpl; [contradiction |].
  destruct (ratelimit_skip r0 sa) eqn:Hskip; [| discriminate].
  destruct (ratelimit_scan sa b) as [[? ?] |]; [discriminate |].
  intros _ [<- | Hin]; [exact Hskip | apply IH; auto].
Qed.

Lemma ratelimit_scan_finds sa b r :
  In r b -> ratelimit_skip r sa = false ->
  exists j r', ratelimit_scan sa b = Some (j, r').
Proof.
  intros Hin Hskip.
  destruct (ratelimit_scan sa b) as [[j r'] |] eqn:Hscan; [eauto |].
  rewrite (ratelimit_scan_None sa b r Hscan Hin) in Hskip. discriminate.
Qed.

Lemma bucket_placed_fields rl rl' i b :
  rl_secret rl' = rl_secret rl ->
  rl_table_mask rl' = rl_table_mask rl ->
  bucket_placed rl i b -> bucket_placed rl' i b.
Proof.
  intros Hs Hm [Hnodup Hall]. split; [exact Hnodup |].
  intros r Hr. rewrite (ratelimit_find_fields rl rl' _ Hs Hm).
  apply Hall, Hr.
Qed.

Lemma In_insert {A} (l : list A) j x y :
  In y (<[j := x]> l) -> y = x \/ In y l.
Proof.
  revert j. induction l as [| z l IH]; intros [| j]; simpl; auto.
  - intros [<- | Hin]; auto.
  - intros [<- | Hin]; auto. destruct (IH j Hin); auto.
Qed.

Lemma map_insert_same {A B} (f : A -> B) (l : list A) j x y :
  l !! j = Some x -> f y = f x -> map f (<[j := y]> l) = map f l.
Proof.
  revert j. induction l as [| z l IH]; intros [| j]; simpl; try discriminate.
  - intros [= ->] ->. reflexivity.
  - intros Hj Hf. rewrite (IH j Hj Hf). reflexivity.
Qed.

Lemma bucket_placed_update rl i b j r now :
  b !! j = Some r ->
  bucket_placed rl i b ->
  bucket_placed rl i (<[j := charge r now]> b).
Proof.
  intros Hj [Hnodup Hall]. split.
  - rewrite (map_insert_same (fun r => (r_af r, r_addr r)) b j r
               (charge r now) Hj eq_refl). exact Hnodup.
  - intros r' Hr'. apply In_insert in Hr'. destruct Hr' as [-> | Hin].
    + apply (Hall r). apply list_elem_of_In, list_elem_of_lookup_2 with j.
      exact Hj.
    + apply Hall, Hin.
Qed.

Lemma bucket_placed_insert rl i b sa now n :
  ratelimit_prefix sa = Some n ->
  ratelimit_slot rl sa = Some i ->
  ratelimit_scan sa b = None ->
  bucket_placed rl i b ->
  bucket_placed rl i (ratelimit_new sa now :: b).
Proof.
  intros Hn Hslot Hscan [Hnodup Hall].
  destruct (ratelimit_new_key sa now n Hn) as [Haf Haddr].
  split.
  - cbn [map]. constructor; [| exact Hnodup].
    intros Hin. apply list_elem_of_In, in_map_iff in Hin.
    destruct Hin as (r & Hkey & Hr).
    apply pair_equal_spec in Hkey. destruct Hkey as [Hkaf Hkaddr].
    assert (ratelimit_skip r sa = false) as Hskip.
    { apply (ratelimit_key_skip_false r sa n Hn); [congruence |].
      rewrite Hkaddr, Haddr, take_take, Nat.min_id. reflexivity. }
    rewrite (ratelimit_scan_None sa b r Hscan Hr) in Hskip. discriminate.
  - intros r [<- | Hin]; [| apply Hall, Hin].
    assert (ratelimit_prefix (entry_sockaddr (ratelimit_new sa now)) = Some n)
      as Hn' by (rewrite <- Hn; apply ratelimit_prefix_family; exact Haf).
    rewrite Hn'. split.
    + rewrite <- Hslot.
      apply (ratelimit_slot_prefix rl _ sa n); [exact Haf | exact Hn' |].
      cbn [entry_sockaddr sa_addr]. rewrite Haddr, take_take, Nat.min_id.
      reflexivity.
    + rewrite Haddr, take_take, Nat.min_id. reflexivity.
Qed.

Lemma NoDup_map_filter {A B} (f : A -> B) (p : A -> bool) (l : list A) :
  NoDup (map f l) -> NoDup (map f (List.filter p l)).
Proof.
  induction l as [| x l IH]; simpl; [auto |].
  intros Hnd. apply NoDup_cons in Hnd. destruct Hnd as [Hx Hl].
  destruct (p x); [| apply IH, Hl].
  simpl. constructor; [| apply IH, Hl].
  intros Hin. apply Hx. apply list_elem_of_In. apply list_elem_of_In in Hin.
  apply in_map_iff in Hin. destruct Hin as (y & Hy & Hin).
  apply filter_In in Hin. apply in_map_iff. exists y. tauto.
Qed.

Lemma bucket_placed_filter rl i b p :
  bucket_placed rl i b -> bucket_placed rl i (List.filter p b).
Proof.
  intros [Hnodup Hall]. split; [apply NoDup_map_filter, Hnodup |].
  intros r Hr. apply filter_In in Hr. apply Hall, Hr.
Qed.

Lemma ratelimit_allow_placed rl sa k :
  ratelimit_placed rl -> ratelimit_placed (snd (fst (ratelimit_allow rl sa k))).
Proof.
  intros Hpl.
  destruct (ratelimit_slot rl sa) as [i |] eqn:Hslot;
    [| rewrite ratelimit_allow_unsupported by assumption; exact Hpl].
  destruct (ratelimit_scan sa (default [] (rl_table rl !! i)))
    as [[j r] |] eqn:Hscan.
  - pose proof (ratelimit_scan_nil_default _ _ _ _ Hscan) as Hb.
    rewrite (ratelimit_allow_hit rl sa k i _ j r Hslot Hb Hscan).
    cbn [fst snd]. intros i' b'. cbn [set_rl_table rl_table].
    destruct (decide (i = i')) as [<- | Hne].
    + rewrite list_lookup_insert_eq by (eapply lookup_lt_Some, Hb).
      intros [= <-].
      apply (bucket_placed_fields rl); [reflexivity | reflexivity |].
      apply bucket_placed_update;
        [apply (ratelimit_scan_Some sa _ j r Hscan) | apply Hpl, Hb].
    + rewrite list_lookup_insert_ne by assumption. intros Hb'.
      apply (bucket_placed_fields rl); [reflexivity | reflexivity |].
      apply Hpl, Hb'.
  - destruct (Z_lt_le_dec (rl_table_num rl) RATELIMIT_SIZE_MAX)
      as [Hroom | Hfull];
      [| rewrite (ratelimit_allow_full rl _ k i) by assumption; exact Hpl].
    destruct (k_zalloc k (k_allocs k)) eqn:Hmem;
      [| rewrite (ratelimit_allow_nomem rl _ k i) by assumption; exact Hpl].
    rewrite (ratelimit_allow_insert rl _ k i) by assumption. cbn [fst snd].
    assert (exists n, ratelimit_prefix sa = Some n) as [n Hn].
    { unfold ratelimit_slot in Hslot.
      destruct (ratelimit_prefix sa) as [n |]; [eauto | discriminate]. }
    intros i' b'.
    assert (rl_table (ratelimit_gc_schedule
              (set_rl_table rl
                 (<[i := ratelimit_new sa (uptime k)
                          :: default [] (rl_table rl !! i)]> (rl_table rl))
                 (wrap_u64 (rl_table_num rl + 1))))
            = <[i := ratelimit_new sa (uptime k)
                       :: default [] (rl_table rl !! i)]> (rl_table rl)) as ->.
    { unfold ratelimit_gc_schedule. destruct (_ && _); reflexivity. }
    intros Hb'.
    apply (bucket_placed_fields rl);
      [unfold ratelimit_gc_schedule; destruct (_ && _); reflexivity
      |unfold ratelimit_gc_schedule; destruct (_ && _); reflexivity |].
    destruct (decide (i = i')) as [<- | Hne];
      [| rewrite list_lookup_insert_ne in Hb' by assumption; apply Hpl, Hb'].
    destruct (rl_table rl !! i) as [b |] eqn:Hb.
    + rewrite list_lookup_insert_eq in Hb' by (eapply lookup_lt_Some, Hb).
      injection Hb' as <-. cbn [default id] in *.
      apply (bucket_placed_insert rl i b sa _ n); auto.
    + rewrite list_insert_ge in Hb' by (apply lookup_ge_None, Hb).
      rewrite Hb in Hb'. discriminate.
Qed.

Lemma ratelimit_gc_placed rl force k :
  ratelimit_inv rl -> ratelimit_placed rl ->
  ratelimit_placed (fst (ratelimit_gc rl force k)).
Proof.
  intros Hinv Hpl.
  destruct (ratelimit_gc_table_after rl force k Hinv)
    as (Htbl & _ & Hsec & Hmask & _).
  intros i b. rewrite Htbl, list_lookup_fmap.
  destruct (rl_table rl !! i) as [b0 |] eqn:Hb0; [| discriminate].
  cbn. intros [= <-].
  apply (bucket_placed_fields rl); [exact Hsec | exact Hmask |].
  apply bucket_placed_filter, Hpl, Hb0.
Qed.

Lemma ratelimit_run_placed evs rl k :
  ratelimit_inv rl -> ratelimit_placed rl ->
  ratelimit_placed (fst (ratelimit_run evs rl k)).
Proof.
  revert rl k. induction evs as [| [sa |] evs IH]; intros rl k Hinv Hpl;
    simpl.
  - exact Hpl.
  - unfold bind.
    pose proof (ratelimit_allow_inv rl sa k Hinv) as Hinv'.
    pose proof (ratelimit_allow_placed rl sa k Hpl) as Hpl'.
    destruct (ratelimit_allow rl sa k) as [[res rl'] k']. apply IH; assumption.
  - unfold bind.
    pose proof (ratelimit_gc_callout_inv rl k Hinv) as Hinv'.
    assert (ratelimit_placed (fst (ratelimit_gc_callout rl k))) as Hpl'.
    { unfold ratelimit_gc_callout, bind. cbn [rw_wlock rw_wunlock lock_do].
      match goal with
      | |- context [ratelimit_gc ?r ?f ?k1] =>
          pose proof (ratelimit_gc_placed r f k1 Hinv) as Hgc;
          destruct (ratelimit_gc r f k1) as [rl1 k2]
      end.
      apply Hgc. intros i b Hb.
      apply (bucket_placed_fields rl); [reflexivity | reflexivity |].
      apply Hpl, Hb. }
    destruct (ratelimit_gc_callout rl k) as [rl' k']. apply IH; assumption.
Qed.

Lemma ratelimit_init_placed k rl k' :
  ratelimit_init k = (0, rl, k') -> ratelimit_placed rl.
Proof.
  intros Hinit. pose proof (ratelimit_init_result k) as Hr.
  rewrite Hinit in Hr. cbn [fst] in Hr.
  destruct (k_zalloc k (k_allocs k));
    apply pair_equal_spec in Hr; destruct Hr as [Hres ->]; [| discriminate].
  intros i b. cbn [rl_table]. intros Hb.
  apply lookup_replicate in Hb. destruct Hb as [-> _].
  split; [constructor | intros r []].
Qed.

(** Lookup is complete and entries are where their hash says. After a
    successful [ratelimit_init] and any sequence of [ratelimit_allow] calls
    and GC callouts: the entry [ratelimit_allow] finds for an address is the
    one entry of the whole table whose family and prefix bytes match it (no
    prefix ever has two entries, and none is missed by looking in one bucket
    only), and every entry sits in the bucket that the SipHash of its own
    prefix selects. *)
Theorem ratelimit_one_entry_per_prefix k rl0 k0 evs sa r :
  ratelimit_init k = (0, rl0, k0) ->
  let rl := fst (ratelimit_run evs rl0 k0) in
  (ratelimit_find rl sa = Some r <->
   ratelimit_prefix sa <> None /\
   exists b, In b (rl_table rl) /\ In r b /\ ratelimit_skip r sa = false) /\
  (forall i b r', rl_table rl !! i = Some b -> In r' b ->
     ratelimit_slot rl (entry_sockaddr r') = Some i).
Proof.
  intros Hinit rl.
  assert (ratelimit_placed rl) as Hpl.
  { apply ratelimit_run_placed;
      [apply (ratelimit_init_inv k rl0 k0 Hinit)
      |apply (ratelimit_init_placed k rl0 k0 Hinit)]. }
  split; [split |].
  - intros Hfind.
    destruct (ratelimit_find_Some rl sa r Hfind) as (i & b & j & Hs & Hb & Hscan).
    destruct (ratelimit_scan_Some sa b j r Hscan) as [Hj Hskip].
    split.
    + unfold ratelimit_slot in Hs. destruct (ratelimit_prefix sa); congruence.
    + exists b. repeat split; [| | exact Hskip].
      * apply list_elem_of_In, list_elem_of_lookup_2 with i. exact Hb.
      * apply list_elem_of_In, list_elem_of_lookup_2 with j. exact Hj.
  - intros (Hfam & b & Hb & Hr & Hskip).
    destruct (ratelimit_prefix sa) as [n |] eqn:Hn; [| congruence].
    apply list_elem_of_In, list_elem_of_lookup_1 in Hb. destruct Hb as [i Hb].
    destruct (Hpl i b Hb) as [Hnodup Hall].
    destruct (Hall r Hr) as [Hslot Hstored].
    destruct (ratelimit_skip_false_key r sa n Hn Hskip) as [Haf Hpre].
    assert (ratelimit_prefix (entry_sockaddr r) = Some n) as Hn'
      by (rewrite <- Hn; apply ratelimit_prefix_family; exact Haf).
    rewrite Hn' in Hstored.
    assert (ratelimit_slot rl sa = Some i) as Hs.
    { rewrite <- Hslot. symmetry.
      apply (ratelimit_slot_prefix rl _ sa n); [exact Haf | exact Hn' |].
      exact Hpre. }
    destruct (ratelimit_scan_finds sa b r Hr Hskip) as (j & r' & Hscan).
    destruct (ratelimit_scan_Some sa b j r' Hscan) as [Hj' Hskip'].
    assert (In r' b) as Hr'
      by (apply list_elem_of_In, list_elem_of_lookup_2 with j; exact Hj').
    destruct (Hall r' Hr') as [_ Hstored'].
    destruct (ratelimit_skip_false_key r' sa n Hn Hskip') as [Haf' Hpre'].
    assert (ratelimit_prefix (entry_sockaddr r') = Some n) as Hn''
      by (rewrite <- Hn; apply ratelimit_prefix_family; exact Haf').
    rewrite Hn'' in Hstored'.
    assert (r' = r) as ->.
    { assert ((r_af r', r_addr r') = (r_af r, r_addr r)) as Hkey
        by (rewrite <- Hstored, <- Hstored', Hpre, Hpre', Haf, Haf';
            reflexivity).
      clear - Hnodup Hr Hr' Hkey.
      induction b as [| x b IH]; [contradiction |].
      cbn [map] in Hnodup. apply NoDup_cons in Hnodup.
      destruct Hnodup as [Hx Hnodup].
      destruct Hr as [-> | Hr], Hr' as [-> | Hr']; auto.
      - exfalso. apply Hx. apply list_elem_of_In, in_map_iff.
        exists r'. auto.
      - exfalso. apply Hx. apply list_elem_of_In, in_map_iff.
        exists r. auto. }
    unfold ratelimit_find. rewrite Hs, Hb. cbn [default id].
    rewrite Hscan. reflexivity.
  - intros i b r' Hb Hr'. apply (Hpl i b Hb), Hr'.
Qed.

(** ** Before the first cookie and the first secret *)

(** A maker that has not received a cookie yet still has a birthdate, 0, and
    a cookie, all zero, from [cookie_maker_init]. While the uptime is at most
    SECRET_MAX_AGE - SECRET_LATENCY = 115 s, [cookie_maker_mac] therefore
    does not zero [mac2]: it sends the MAC2 of the packet under the all-zero
    cookie. Only later is [mac2] zero. *)
Theorem cookie_maker_mac_before_cookie key cm buf len k :
  let cm' := snd (fst (cookie_maker_mac (cookie_maker_init key) cm buf len k)) in
  mac2 cm'
  = (if uptime k <=? (COOKIE_SECRET_MAX_AGE - COOKIE_SECRET_LATENCY) * SBT_1S
     then expected_mac2 (zeroes COOKIE_COOKIE_SIZE) (take len buf) (mac1 cm')
     else zeroes COOKIE_MAC_SIZE).
Proof.
  intros cm'. subst cm'.
  rewrite cookie_maker_mac_mac1.
  unfold cookie_maker_mac, cookie_timer_expired, bind, ret, uptime.
  cbn [rw_rlock rw_runlock lock_do getsbinuptime fst snd
       k_uptime k_reads cp_birthdate cp_cookie cookie_maker_init].
  rewrite secret_age_test by (vm_compute; split; [discriminate | reflexivity]).
  rewrite Z.sub_0_r.
  destruct (k_uptime k (k_reads k)
            <=? (COOKIE_SECRET_MAX_AGE - COOKIE_SECRET_LATENCY) * SBT_1S);
    cbn [negb].
  - change (0 =? 0) with true. cbv iota.
    rewrite cookie_macs_mac2_expected
      by (rewrite cookie_macs_mac1_expected; apply expected_mac1_length).
    rewrite cookie_macs_mac1_expected. reflexivity.
  - change (ETIMEDOUT =? 0) with false. reflexivity.
Qed.

(** A checker starts from [cookie_checker_init] with an all-zero secret born
    at time 0, and [cookie_checker_update] does not touch either. While the
    uptime is at most SECRET_MAX_AGE = 120 s the secret is therefore not
    replaced: [cookie_checker_make_cookie] draws no randomness and returns
    the cookie of the address under the all-zero secret. The first random
    secret is drawn at the first cookie made after 120 s of uptime. *)
Theorem cookie_checker_make_cookie_before_secret key k0 sa k :
  ratelimit_prefix sa <> None ->
  let cc := fst (cookie_checker_update cookie_checker_init key k0) in
  let made := cookie_checker_make_cookie cc sa k in
  if uptime k <=? COOKIE_SECRET_MAX_AGE * SBT_1S
  then fst (fst made) = cookie_for (zeroes COOKIE_SECRET_SIZE) sa /\
       snd (fst made) = cc /\
       k_drawn (snd made) = k_drawn k
  else fst (fst made)
       = cookie_for (map (k_entropy k) (seq (k_drawn k) COOKIE_SECRET_SIZE)) sa
       /\ cc_secret_birthdate (snd (fst made)) = k_uptime k (S (k_reads k)).
Proof.
  intros Hfam cc made.
  assert (cc_secret_birthdate cc = 0 /\ cc_secret cc = zeroes COOKIE_SECRET_SIZE)
    as [Hbirth Hsecret].
  { subst cc. unfold cookie_checker_update, bind, ret.
    cbn [rw_wlock rw_wunlock lock_do fst].
    destruct key; split; reflexivity. }
  assert (- 2 ^ 63 <= cc_secret_birthdate cc + COOKIE_SECRET_MAX_AGE * SBT_1S
          < 2 ^ 63) as Hrange
    by (rewrite Hbirth; vm_compute; split; [discriminate | reflexivity]).
  destruct (cookie_checker_make_cookie_rotation cc sa k Hrange Hfam)
    as (_ & _ & Hcookie & Hkeep & Hrot).
  fold made in Hcookie, Hkeep, Hrot.
  rewrite Hbirth, Z.sub_0_r in Hkeep, Hrot.
  destruct (Z.leb_spec (uptime k) (COOKIE_SECRET_MAX_AGE * SBT_1S))
    as [Hle | Hgt].
  - destruct (Hkeep Hle) as [Hcc Hdrawn].
    rewrite Hcookie, Hcc, Hsecret. repeat split; assumption.
  - destruct (Hrot Hgt) as (Hsec & Hb & _).
    rewrite Hcookie, Hsec. split; [reflexivity | exact Hb].
Qed.

End MoreFacts.

(** * The properties above on concrete inputs *)

Lemma model_aead_opens pt ad nonce key :
  model_decrypt (model_encrypt pt ad nonce key) ad nonce key = Some pt.
Proof.
  unfold model_decrypt, model_encrypt.
  assert (length (pt ++ model_digest 16 key (ad ++ nonce ++ pt)) - 16
          = length pt)%nat as ->.
  { rewrite length_app. unfold model_digest. rewrite length_replicate. lia. }
  rewrite drop_app_length, take_app_length.
  rewrite bool_decide_eq_true_2; reflexivity.
Qed.

Lemma model_aead_length pt ad nonce key :
  length (model_encrypt pt ad nonce key) = (length pt + 16)%nat.
Proof.
  unfold model_encrypt, model_digest. rewrite length_app, length_replicate.
  reflexivity.
Qed.

Lemma all_older_spec t tbl :
  all_older t tbl = true ->
  forall b r, In b tbl -> In r b -> r_last_time r < t.
Proof.
  unfold all_older. intros Hall b r Hb Hr.
  rewrite forallb_forall in Hall. specialize (Hall b Hb).
  rewrite forallb_forall in Hall. apply Z.ltb_lt, Hall, Hr.
Qed.

Lemma cookie_checker_make_cookie_rotation_witness :
  fst (fst (cookie_checker_make_cookie (H := model_primitives)
              responder localhost frozen_kernel))
  = cookie_for (H := model_primitives)
      (cc_secret (snd (fst (cookie_checker_make_cookie (H := model_primitives)
                              responder localhost frozen_kernel))))
      localhost.
Proof.
  apply (cookie_checker_make_cookie_rotation (H := model_primitives)
           responder localhost frozen_kernel).
  - vm_compute. split; [discriminate | reflexivity].
  - discriminate.
Defined.

Lemma mac1_round_trip_witness :
  fst (cookie_checker_validate_macs (H := model_primitives)
         (fst (cookie_checker_update (H := model_primitives)
                 cookie_checker_init (Some zero_input) frozen_kernel))
         (snd (fst (cookie_maker_mac (H := model_primitives)
                      (snd (fst consumed)) no_macs hello 5 frozen_kernel)))
         hello 5 0 localhost limiters frozen_kernel)
  = (0,
     fst (cookie_checker_update (H := model_primitives)
            cookie_checker_init (Some zero_input) frozen_kernel),
     limiters).
Proof.
  apply (mac1_round_trip (H := model_primitives) zero_input
           cookie_checker_init frozen_kernel (snd (fst consumed)) no_macs
           hello 5 frozen_kernel localhost limiters frozen_kernel).
  vm_compute. reflexivity.
Defined.

Lemma cookie_reply_round_trip_witness :
  fst (fst consumed) = 0 /\
  cp_cookie (snd (fst consumed))
  = fst (fst (cookie_checker_make_cookie (H := model_primitives)
                responder localhost (snd emitted))).
Proof.
  pose proof (cookie_reply_round_trip (H := model_primitives)
                (cookie_maker_init (H := model_primitives) zero_input)
                responder no_macs hello 5 localhost frozen_kernel
                (snd emitted) (clock_at (885 * SBT_1S) (snd reply))
                model_aead_opens model_aead_length eq_refl)
    as (Hres & Hcookie & _).
  split; [exact Hres | exact Hcookie].
Defined.

Lemma cookie_checker_validate_macs_cheap_witness :
  k_locks (snd (cookie_checker_validate_macs (H := model_primitives)
                  responder (snd (fst emitted)) hello 5 0 localhost limiters
                  frozen_kernel))
  = k_locks frozen_kernel ++ [RLock cc_key_lock; RUnlock cc_key_lock].
Proof.
  apply (cookie_checker_validate_macs_cheap (H := model_primitives)
           responder (snd (fst emitted)) hello 5 0 localhost limiters
           frozen_kernel).
  - reflexivity.
  - right. reflexivity.
Defined.

Lemma cookie_checker_validate_macs_limiters_witness :
  ratelimit_v6
    (snd (fst (cookie_checker_validate_macs (H := model_primitives)
                 (snd (fst reply)) (snd (fst cookied_packet)) hello 5 1
                 localhost limiters (snd cookied_packet))))
  = ratelimit_v6 limiters.
Proof.
  apply (cookie_checker_validate_macs_limiters (H := model_primitives)
           (snd (fst reply)) (snd (fst cookied_packet)) hello 5 1
           localhost limiters (snd cookied_packet)).
  discriminate.
Defined.

Lemma cookie_checker_validate_macs_cookie_witness :
  snd (fst (fst (cookie_checker_validate_macs (H := model_primitives)
                   (snd (fst reply)) (snd (fst cookied_packet)) hello 5 1
                   localhost limiters (snd cookied_packet))))
  = snd (fst reply).
Proof.
  apply (cookie_checker_validate_macs_cookie (H := model_primitives)
           (snd (fst reply)) (snd (fst consumed)) no_macs hello 5 1
           localhost limiters (clock_at (900 * SBT_1S) (snd consumed))
           (snd cookied_packet)).
  - vm_compute. reflexivity.
  - discriminate.
  - discriminate.
  - vm_compute. reflexivity.
  - vm_compute. discriminate.
  - vm_compute. reflexivity.
  - vm_compute. discriminate.
  - vm_compute. split; [discriminate | reflexivity].
  - vm_compute. discriminate.
Defined.

Lemma ratelimit_gc_sweep_witness :
  ratelimit_find (H := model_primitives)
    (fst (ratelimit_gc seen false
            (clock_at (1000 * SBT_1S + SBT_1S / 2) seen_kernel))) localhost
  = Some seen_entry.
Proof.
  apply (ratelimit_gc_sweep (H := model_primitives) seen
           (clock_at (1000 * SBT_1S + SBT_1S / 2) seen_kernel) localhost
           seen_inv).
  - vm_compute. split; [discriminate | reflexivity].
  - vm_compute. reflexivity.
  - vm_compute. discriminate.
Defined.

Lemma ratelimit_gc_callout_idle_witness :
  ratelimit_find (H := model_primitives)
    (fst (ratelimit_gc_callout seen (clock_at (1005 * SBT_1S) seen_kernel)))
    localhost
  = None.
Proof.
  apply (ratelimit_gc_callout_idle (H := model_primitives) seen
           (clock_at (1005 * SBT_1S) seen_kernel) localhost seen_inv).
  - vm_compute. split; [discriminate | reflexivity].
  - apply all_older_spec. vm_compute. reflexivity.
Defined.

Lemma ratelimit_deinit_empties_witness :
  rl_table (fst (ratelimit_deinit seen seen_kernel)) = [] /\
  rl_table_num (fst (ratelimit_deinit seen seen_kernel)) = 0.
Proof.
  pose proof (ratelimit_deinit_empties seen seen_kernel seen_inv)
    as (_ & Htbl & Hnum & _).
  split; [exact Htbl | exact Hnum].
Defined.

Lemma ratelimit_gc_always_armed_witness :
  rl_gc (fst (ratelimit_run (H := model_primitives)
                [Allow localhost; GcCallout; Allow localhost2]
                (snd (fst (ratelimit_init frozen_kernel)))
                (snd (ratelimit_init frozen_kernel)))) = true.
Proof.
  apply (ratelimit_gc_always_armed (H := model_primitives) frozen_kernel
           (snd (fst (ratelimit_init frozen_kernel)))
           (snd (ratelimit_init frozen_kernel))
           [Allow localhost; GcCallout; Allow localhost2]).
  - reflexivity.
  - vm_compute. reflexivity.
Defined.

Lemma ratelimit_burst_bounded_witness :
  exists r',
    ratelimit_find (H := model_primitives)
      (snd (fst (ratelimit_burst (H := model_primitives) 6
                   (snd (fst (seen_once ticking_kernel))) localhost
                   (snd (seen_once ticking_kernel))))) localhost = Some r' /\
    allowed (fst (fst (ratelimit_burst (H := model_primitives) 6
                         (snd (fst (seen_once ticking_kernel))) localhost
                         (snd (seen_once ticking_kernel)))))
    * INITIATION_COST
    <= TOKEN_MAX + (r_last_time r' - 1000 * SBT_1S).
Proof.
  destruct (ratelimit_burst_bounded (H := model_primitives) 6
              (snd (fst (seen_once ticking_kernel))) localhost
              (snd (seen_once ticking_kernel)) seen_entry)
    as (r' & Hfind & _ & _ & _ & Hbound).
  - vm_compute. reflexivity.
  - vm_compute. split; discriminate.
  - vm_compute. discriminate.
  - intros _. vm_compute. discriminate.
  - intros j _.
    change (k_uptime (snd (seen_once ticking_kernel)))
      with (fun n : nat => (1000 + Z.of_nat n) * SBT_1S).
    change (k_reads (snd (seen_once ticking_kernel))) with 1%nat.
    change SBT_1S with 4294967296. cbv beta. lia.
  - intros j Hj.
    change (k_uptime (snd (seen_once ticking_kernel)))
      with (fun n : nat => (1000 + Z.of_nat n) * SBT_1S).
    change (k_reads (snd (seen_once ticking_kernel))) with 1%nat.
    change SBT_1S with 4294967296. cbv beta. lia.
  - exists r'. split; [exact Hfind | exact Hbound].
Defined.

Lemma ratelimit_steady_rate_witness :
  fst (fst (ratelimit_burst (H := model_primitives) 10
              (snd (fst (seen_once ticking_kernel))) localhost
              (snd (seen_once ticking_kernel))))
  = replicate 10 0.
Proof.
  apply (ratelimit_steady_rate (H := model_primitives) 10
           (snd (fst (seen_once ticking_kernel))) localhost
           (snd (seen_once ticking_kernel)) seen_entry).
  - vm_compute. reflexivity.
  - vm_compute. split; discriminate.
  - vm_compute. discriminate.
  - intros _. vm_compute. discriminate.
  - intros j _.
    change (k_uptime (snd (seen_once ticking_kernel)))
      with (fun n : nat => (1000 + Z.of_nat n) * SBT_1S).
    change (k_reads (snd (seen_once ticking_kernel))) with 1%nat.
    change SBT_1S with 4294967296. change INITIATION_COST with 214748364.
    cbv beta. lia.
  - intros j Hj.
    change (k_uptime (snd (seen_once ticking_kernel)))
      with (fun n : nat => (1000 + Z.of_nat n) * SBT_1S).
    change (k_reads (snd (seen_once ticking_kernel))) with 1%nat.
    change SBT_1S with 4294967296. cbv beta. lia.
Defined.

Lemma ratelimit_ignores_port_witness :
  ratelimit_allow (H := model_primitives) seen localhost seen_kernel
  = ratelimit_allow (H := model_primitives) seen localhost_port2 seen_kernel.
Proof.
  apply (ratelimit_ignores_port (H := model_primitives) seen seen_kernel
           localhost localhost_port2); reflexivity.
Defined.

Lemma ratelimit_tokens_capped_witness :
  0 <= r_tokens seen_entry <= INITIATION_COST * INITIATIONS_BURSTABLE.
Proof.
  apply (ratelimit_tokens_capped (H := model_primitives) frozen_kernel
           (snd (fst (ratelimit_init frozen_kernel)))
           (snd (ratelimit_init frozen_kernel))
           [Allow localhost] localhost seen_entry).
  - reflexivity.
  - vm_compute. reflexivity.
Defined.

Lemma ratelimit_one_entry_per_prefix_witness :
  ratelimit_prefix localhost <> None /\
  exists b,
    In b (rl_table (fst (ratelimit_run (H := model_primitives)
                           [Allow localhost]
                           (snd (fst (ratelimit_init frozen_kernel)))
                           (snd (ratelimit_init frozen_kernel))))) /\
    In seen_entry b /\ ratelimit_skip seen_entry localhost = false.
Proof.
  apply (ratelimit_one_entry_per_prefix (H := model_primitives) frozen_kernel
           (snd (fst (ratelimit_init frozen_kernel)))
           (snd (ratelimit_init frozen_kernel))
           [Allow localhost] localhost seen_entry).
  - reflexivity.
  - vm_compute. reflexivity.
Defined.

Lemma cookie_checker_make_cookie_before_secret_witness :
  fst (fst (cookie_checker_make_cookie (H := model_primitives) responder
              localhost (clock_at (60 * SBT_1S) frozen_kernel)))
  = cookie_for (H := model_primitives) (zeroes COOKIE_SECRET_SIZE) localhost.
Proof.
  pose proof (cookie_checker_make_cookie_before_secret (H := model_primitives)
                (Some zero_input) frozen_kernel localhost
                (clock_at (60 * SBT_1S) frozen_kernel) ltac:(discriminate))
    as Hmade.
  apply Hmade.
Defined.
